(** * Clorm fact-base query engine: a shallow embedding and its properties

    The development follows [src/clorm/orm.py] (the fact index, the fact map,
    the comparators, the select and delete statements) and
    [src/clorm/orm/factbase.py] (the fact base with its set operations and
    the query end points).  Python objects are modelled by records, Python
    sets by [gset], dictionaries by [gmap], ordered dictionaries by
    association lists, exceptions by the [Raise] constructor of [result]. *)

From stdpp Require Import base decidable option list sorting gmap strings.
From Stdlib Require Import ZArith Lia.

Local Open Scope Z_scope.
Local Open Scope nat_scope.

#[local] Set Warnings "-clear-no-such-hyp".

(** ** Exceptions and results *)

(** The exception classes the modelled code raises.  A [ValueError] keeps
    its message, the only thing that tells two of them apart. *)
Inductive exn :=
| TypeError
| KeyError
| IndexError
| NameError
| AttributeError
| ValueError (msg : string).

Inductive result (A : Type) :=
| Ok (a : A)
| Raise (e : exn).
Arguments Ok {A} a.
Arguments Raise {A} e.

Global Instance exn_eq_dec : EqDecision exn.
Proof. solve_decision. Defined.
Global Instance result_eq_dec {A} `{EqDecision A} : EqDecision (result A).
Proof. solve_decision. Defined.

Global Instance result_ret : MRet result := λ A a, Ok a.
Global Instance result_bind : MBind result := λ A B k r,
  match r with
  | Ok a => k a
  | Raise e => Raise e
  end.

Definition is_ok {A} (r : result A) : bool :=
  match r with Ok _ => true | Raise _ => false end.

(** [[f(x) for x in l]] for a [f] that may raise. *)
Fixpoint rmapM {A B} (f : A → result B) (l : list A) : result (list B) :=
  match l with
  | [] => Ok []
  | x :: r => y ← f x; ys ← rmapM f r; Ok (y :: ys)
  end.

(** [[x for x in l if f(x)]] for a [f] that may raise. *)
Fixpoint rfilterM {A} (f : A → result bool) (l : list A) : result (list A) :=
  match l with
  | [] => Ok []
  | x :: r =>
      b ← f x; ys ← rfilterM f r; Ok (if b : bool then x :: ys else ys)
  end.

(** ** Comparison and boolean operators *)

(** The six functions of the [operator] module a comparison can hold. *)
Inductive compop := OpEq | OpNe | OpLt | OpLe | OpGt | OpGe.

(** [operator.not_], [operator.and_], [operator.or_]. *)
Inductive boolop := OpNot | OpAnd | OpOr.

Global Instance compop_eq_dec : EqDecision compop.
Proof. solve_decision. Defined.
Global Instance boolop_eq_dec : EqDecision boolop.
Proof. solve_decision. Defined.

(** [compop(1,1)]: the value of a comparison of a thing with itself. *)
Definition compop_1_1 (op : compop) : bool :=
  match op with
  | OpEq | OpLe | OpGe => true
  | OpNe | OpLt | OpGt => false
  end.

Section Engine.

(** The schema layer, consumed at its boundary: terms [K] (hashable, totally
    ordered by [klt], Python's [<]), facts, canonical field paths, predicate
    types; [path_get p f] is the term a path addresses in a fact of its
    predicate. *)
Context {K : Type} `{Countable K}.
Context {fact : Type} `{Countable fact}.
Context {path : Type} `{Countable path}.
Context {ptype : Type} `{EqDecision ptype}.
Variable klt : K → K → bool.
Variable fact_type : fact → ptype.
Variable path_pred : path → ptype.
Variable path_get : path → fact → K.

(** Python's comparison of two terms by one of the six operators. *)
Definition apply_op (op : compop) (a b : K) : bool :=
  match op with
  | OpEq => bool_decide (a = b)
  | OpNe => negb (bool_decide (a = b))
  | OpLt => klt a b
  | OpLe => klt a b || bool_decide (a = b)
  | OpGt => klt b a
  | OpGe => klt b a || bool_decide (a = b)
  end.

(** *** The [bisect] module *)

(** [bisect.bisect_left(a, x)]: the loop
    [while lo < hi: mid = (lo+hi)//2; if a[mid] < x: lo = mid+1 else: hi = mid].
    The fuel is the length of the list, which the loop never exhausts. *)
Fixpoint bisect_left_loop (fuel : nat) (a : list K) (x : K) (lo hi : nat) : nat :=
  match fuel with
  | O => lo
  | S n =>
      if decide (lo < hi) then
        let mid := (lo + hi) `div` 2 in
        match a !! mid with
        | Some am =>
            if klt am x then bisect_left_loop n a x (mid + 1) hi
            else bisect_left_loop n a x lo mid
        | None => lo
        end
      else lo
  end.

Definition bisect_left (a : list K) (x : K) : nat :=
  bisect_left_loop (length a) a x 0 (length a).

(** [bisect.bisect_right(a, x)]: the same loop with the test
    [if x < a[mid]: hi = mid else: lo = mid+1]. *)
Fixpoint bisect_right_loop (fuel : nat) (a : list K) (x : K) (lo hi : nat) : nat :=
  match fuel with
  | O => lo
  | S n =>
      if decide (lo < hi) then
        let mid := (lo + hi) `div` 2 in
        match a !! mid with
        | Some am =>
            if klt x am then bisect_right_loop n a x lo mid
            else bisect_right_loop n a x (mid + 1) hi
        | None => lo
        end
      else lo
  end.

Definition bisect_right (a : list K) (x : K) : nat :=
  bisect_right_loop (length a) a x 0 (length a).

(** [bisect.insort_left(a, x)]: [a.insert(bisect_left(a, x), x)]. *)
Definition insort_left (a : list K) (x : K) : list K :=
  let i := bisect_left a x in take i a ++ x :: drop i a.

(** *** [_FactIndex]: the facts of one predicate indexed by one field *)

(** The object's attributes: the canonical path ([_fpspec], whose predicate
    is [_predicate]), the sorted list of keys ([_keylist]) and the dictionary
    from a key to the set of facts that have it ([_key2values]). *)
Record FactIndex := mkFactIndex {
  fi_fpspec : path;
  fi_keylist : list K;
  fi_key2values : gmap K (gset fact)
}.

(** [_FactIndex.__init__]. *)
Definition findex_init (fpspec : path) : FactIndex :=
  mkFactIndex fpspec [] ∅.

(** [_FactIndex.add]: the index after the call, and what the call did. *)
Definition findex_add (f : fact) (ix : FactIndex) : FactIndex * result () :=
  if decide (fact_type f = path_pred (fi_fpspec ix)) then
    let key := path_get (fi_fpspec ix) f in
    (* if key not in self._key2values: self._key2values[key] = set() *)
    let m1 := match fi_key2values ix !! key with
              | None => <[key := ∅]> (fi_key2values ix)
              | Some _ => fi_key2values ix
              end in
    (* self._key2values[key].add(fact) *)
    let m2 := alter (λ vs, {[f]} ∪ vs) key m1 in
    let posn := bisect_left (fi_keylist ix) key in
    if decide (posn < length (fi_keylist ix) ∧ fi_keylist ix !! posn = Some key)
    then (mkFactIndex (fi_fpspec ix) (fi_keylist ix) m2, Ok ())
    else (mkFactIndex (fi_fpspec ix) (insort_left (fi_keylist ix) key) m2, Ok ())
  else (ix, Raise TypeError).

(** [_FactIndex.remove].  [values.remove(fact)] raises [KeyError] on a
    missing fact, [values.discard(fact)] does not; [del self._keylist[posn]]
    raises [IndexError] past the end of the list. *)
Definition findex_remove (f : fact) (raise_on_missing : bool) (ix : FactIndex)
  : FactIndex * result () :=
  if decide (fact_type f = path_pred (fi_fpspec ix)) then
    let key := path_get (fi_fpspec ix) f in
    match fi_key2values ix !! key with
    | None => (ix, if raise_on_missing then Raise KeyError else Ok ())
    | Some values =>
        if raise_on_missing && negb (bool_decide (f ∈ values))
        then (ix, Raise KeyError)
        else
          let values' := values ∖ {[f]} in
          let m1 := <[key := values']> (fi_key2values ix) in
          if decide (values' = ∅) then
            let m2 := delete key m1 in
            let posn := bisect_left (fi_keylist ix) key in
            if decide (posn < length (fi_keylist ix))
            then (mkFactIndex (fi_fpspec ix) (delete posn (fi_keylist ix)) m2, Ok ())
            else (mkFactIndex (fi_fpspec ix) (fi_keylist ix) m2, Raise IndexError)
          else (mkFactIndex (fi_fpspec ix) (fi_keylist ix) m1, Ok ())
    end
  else (ix, Raise TypeError).

(** [_FactIndex.discard]. *)
Definition findex_discard (f : fact) (ix : FactIndex) : FactIndex * result () :=
  findex_remove f false ix.

(** [_FactIndex.clear]. *)
Definition findex_clear (ix : FactIndex) : FactIndex :=
  mkFactIndex (fi_fpspec ix) [] ∅.

(** The six key selections, [_keys_eq] to [_keys_ge], slice for slice. *)
Definition keys_eq (ix : FactIndex) (key : K) : list K :=
  if decide (is_Some (fi_key2values ix !! key)) then [key] else [].

Definition keys_ne (ix : FactIndex) (key : K) : list K :=
  let posn1 := bisect_left (fi_keylist ix) key in
  let left := if decide (posn1 = 0) then [] else take posn1 (fi_keylist ix) in
  let posn2 := bisect_right (fi_keylist ix) key in
  let right := if decide (posn2 = 0) then [] else drop posn2 (fi_keylist ix) in
  left ++ right.

Definition keys_lt (ix : FactIndex) (key : K) : list K :=
  let posn := bisect_left (fi_keylist ix) key in
  if decide (posn = 0) then [] else take posn (fi_keylist ix).

Definition keys_le (ix : FactIndex) (key : K) : list K :=
  let posn := bisect_right (fi_keylist ix) key in
  if decide (posn = 0) then [] else take posn (fi_keylist ix).

Definition keys_gt (ix : FactIndex) (key : K) : list K :=
  let posn := bisect_right (fi_keylist ix) key in
  if decide (posn = 0) then [] else drop posn (fi_keylist ix).

Definition keys_ge (ix : FactIndex) (key : K) : list K :=
  let posn := bisect_left (fi_keylist ix) key in
  if decide (posn = 0) then [] else drop posn (fi_keylist ix).

(** [_FactIndex.find]: [self._key2values[k]] raises [KeyError] on a key the
    dictionary does not hold; the union of no set is the empty set. *)
Definition findex_find (ix : FactIndex) (op : compop) (key : K) : result (gset fact) :=
  let keys := match op with
              | OpEq => keys_eq ix key
              | OpNe => keys_ne ix key
              | OpLt => keys_lt ix key
              | OpLe => keys_le ix key
              | OpGt => keys_gt ix key
              | OpGe => keys_ge ix key
              end in
  sets ← rmapM (λ k, match fi_key2values ix !! k with
                     | Some vs => Ok vs
                     | None => Raise KeyError
                     end) keys;
  Ok (⋃ sets).

(** *** [_FactMap]: the facts of one predicate and their indexes *)

(** An [OrderedDict]: keys in the order of their first insertion. *)
Fixpoint odict_set {V} (p : path) (v : V) (d : list (path * V)) : list (path * V) :=
  match d with
  | [] => [(p, v)]
  | (q, w) :: r => if decide (p = q) then (q, v) :: r else (q, w) :: odict_set p v r
  end.

Definition odict_of {V} (items : list (path * V)) : list (path * V) :=
  foldl (λ d pv, odict_set pv.1 pv.2 d) [] items.

Fixpoint odict_get {V} (p : path) (d : list (path * V)) : option V :=
  match d with
  | [] => None
  | (q, w) :: r => if decide (p = q) then Some w else odict_get p r
  end.

(** The object's attributes: [_ptype], [_allfacts] and [_findexes] (the
    empty dictionary stands for [None] too: the code tests its truth only). *)
Record FactMap := mkFactMap {
  fm_ptype : ptype;
  fm_allfacts : gset fact;
  fm_findexes : list (path * FactIndex)
}.

(** [_FactMap.__init__]. *)
Definition factmap_init (pt : ptype) (index : list path) : result FactMap :=
  match index with
  | [] => Ok (mkFactMap pt ∅ [])
  | _ =>
      if forallb (λ p, bool_decide (path_pred p = pt)) index
      then Ok (mkFactMap pt ∅ (odict_of ((λ p, (p, findex_init p)) <$> index)))
      else Raise TypeError
  end.

(** [for findex in self._findexes.values(): step(findex)]: the indexes are
    updated in place, in order, and the loop ends at the first exception. *)
Fixpoint each_index (step : FactIndex → FactIndex * result ())
    (d : list (path * FactIndex)) : list (path * FactIndex) * result () :=
  match d with
  | [] => ([], Ok ())
  | (p, ix) :: r =>
      match step ix with
      | (ix', Ok _) =>
          let '(r', res) := each_index step r in ((p, ix') :: r', res)
      | (ix', Raise e) => ((p, ix') :: r, Raise e)
      end
  end.

(** [_FactMap.add]. *)
Definition factmap_add (f : fact) (m : FactMap) : FactMap * result () :=
  let facts := {[f]} ∪ fm_allfacts m in
  let '(d, res) := each_index (findex_add f) (fm_findexes m) in
  (mkFactMap (fm_ptype m) facts d, res).

(** [_FactMap.remove]: [set.remove] raises [KeyError] on a missing fact,
    before any index is reached. *)
Definition factmap_remove (f : fact) (raise_on_missing : bool) (m : FactMap)
  : FactMap * result () :=
  if raise_on_missing && negb (bool_decide (f ∈ fm_allfacts m))
  then (m, Raise KeyError)
  else
    let facts := fm_allfacts m ∖ {[f]} in
    let '(d, res) := each_index (findex_remove f raise_on_missing) (fm_findexes m) in
    (mkFactMap (fm_ptype m) facts d, res).


(** [_FactMap.clear]. *)
Definition factmap_clear (m : FactMap) : FactMap :=
  mkFactMap (fm_ptype m) ∅ ((λ pi, (pi.1, findex_clear pi.2)) <$> fm_findexes m).

(** [_FactMap.indexes]. *)
Definition factmap_indexes (m : FactMap) : list path :=
  fst <$> fm_findexes m.

(** [_FactMap.get_factindex]: [self._findexes[field.spec]].  On a fact map
    without index [_findexes] is [None], which cannot be subscripted. *)
Definition factmap_get_factindex (m : FactMap) (p : path) : result FactIndex :=
  match fm_findexes m with
  | [] => Raise TypeError
  | d =>
      match odict_get p d with
      | Some ix => Ok ix
      | None => Raise KeyError
      end
  end.

(** *** Comparators: the conditions of a [where] clause *)

(** The second argument of a comparison when it is no field path: a
    positional placeholder ([ph1_], ...: [posn] counts from 0), a named one
    with its default ([None] when it has none), or any other object, which is
    compared as it is. *)
Inductive value_arg :=
| ArgValue (v : K)
| ArgPositional (posn : nat)
| ArgNamed (name : string) (default : option K).

(** The second argument of a [FieldQueryComparator]. *)
Inductive query_arg :=
| ArgPath (p : path)
| ArgOther (a : value_arg).

(** The three [Comparator] classes.  The first argument of a
    [FieldQueryComparator] is a [_FieldPathEval], given by its path. *)
#[warnings="-register-all"]
Inductive Comparator :=
| StaticComparator (value : bool)
| FieldQueryComparator (op : compop) (arg1 : path) (arg2 : query_arg)
| BoolComparator (bop : boolop) (args : list Comparator).

(** [FieldQueryComparator.__init__] sets [_static] and [_value]: the
    comparison is static when both arguments are the same path. *)
Definition fqc_static (op : compop) (arg1 : path) (arg2 : query_arg) : option bool :=
  match arg2 with
  | ArgPath q => if decide (arg1 = q) then Some (compop_1_1 op) else None
  | ArgOther _ => None
  end.

(** [BoolComparator.__init__]: [not_] takes exactly one argument, [and_]
    and [or_] more than one. *)
Definition bool_comparator (bop : boolop) (args : list Comparator) : result Comparator :=
  match bop with
  | OpNot => if decide (length args = 1) then Ok (BoolComparator bop args)
             else Raise IndexError
  | _ => if decide (length args ≤ 1) then Raise IndexError
         else Ok (BoolComparator bop args)
  end.

(** The conditions the constructors build. *)
Fixpoint well_formed (c : Comparator) : Prop :=
  match c with
  | StaticComparator _ | FieldQueryComparator _ _ _ => True
  | BoolComparator bop args =>
      (match bop with OpNot => length args = 1 | _ => 2 ≤ length args end)
      ∧ (fix all (l : list Comparator) : Prop :=
           match l with [] => True | a :: r => well_formed a ∧ all r end) args
  end.

(** [_FieldPathEval.__call__]: the fact must be of the path's predicate. *)
Definition fieldpath_eval (p : path) (f : fact) : result K :=
  if decide (fact_type f = path_pred p) then Ok (path_get p f) else Raise TypeError.

(** [args[posn]] and [kwargs[name]]. *)
Definition get_value (args : list K) (kwargs : gmap string K) (a : value_arg) : result K :=
  match a with
  | ArgValue v => Ok v
  | ArgPositional posn =>
      match args !! posn with Some v => Ok v | None => Raise IndexError end
  | ArgNamed name _ =>
      match kwargs !! name with Some v => Ok v | None => Raise KeyError end
  end.

(** The local function [getargval] of [FieldQueryComparator.__call__]. *)
Definition getargval (f : fact) (args : list K) (kwargs : gmap string K)
    (a : query_arg) : result K :=
  match a with
  | ArgPath q => fieldpath_eval q f
  | ArgOther v => get_value args kwargs v
  end.

(** [Comparator.__call__(fact, *args, **kwargs)], class by class.  The terms
    of [K] are of one type, so the conversion of a tuple that
    [FieldQueryComparator.__call__] attempts does not arise here (it is
    modelled in the section on complex terms). *)
Fixpoint comparator_call (c : Comparator) (f : fact) (args : list K)
    (kwargs : gmap string K) : result bool :=
  match c with
  | StaticComparator v => Ok v
  | FieldQueryComparator op arg1 arg2 =>
      match fqc_static op arg1 arg2 with
      | Some v => Ok v
      | None =>
          v1 ← fieldpath_eval arg1 f;
          v2 ← getargval f args kwargs arg2;
          Ok (apply_op op v1 v2)
      end
  | BoolComparator OpNot cs =>
      match cs with
      | [] => Raise IndexError
      | a :: _ => b ← comparator_call a f args kwargs; Ok (negb b)
      end
  | BoolComparator OpAnd cs =>
      (fix loop (l : list Comparator) : result bool :=
         match l with
         | [] => Ok true
         | a :: r =>
             b ← comparator_call a f args kwargs;
             if b : bool then loop r else Ok false
         end) cs
  | BoolComparator OpOr cs =>
      (fix loop (l : list Comparator) : result bool :=
         match l with
         | [] => Ok false
         | a :: r =>
             b ← comparator_call a f args kwargs;
             if b : bool then Ok true else loop r
         end) cs
  end.

(** The loop of [BoolComparator.simplified] over the simplified arguments:
    a static argument of [not_] ends it with the negated constant; a static
    argument of [and_] or [or_] is looked at (the statement [sarg]) and left
    out of [newargs]; any other argument is appended. *)
Fixpoint simplified_loop (bop : boolop) (sargs newargs : list Comparator)
  : Comparator + list Comparator :=
  match sargs with
  | [] => inr newargs
  | StaticComparator v :: r =>
      if decide (bop = OpNot) then inl (StaticComparator (negb v))
      else simplified_loop bop r newargs
  | sarg :: r => simplified_loop bop r (newargs ++ [sarg])
  end.

(** What follows the loop in [BoolComparator.simplified]. *)
Definition simplified_combine (bop : boolop) (newargs : list Comparator)
  : result Comparator :=
  match newargs, bop with
  | [], OpAnd => Ok (StaticComparator true)
  | [], OpOr => Ok (StaticComparator false)
  | [a], (OpAnd | OpOr) => Ok a
  | _, _ => bool_comparator bop newargs
  end.

(** [comparator.simplified()].  A [StaticComparator] has no such method (its
    method is spelt [simpified]), so the call raises, which the only caller,
    [_simplify_fact_comparator], catches: [simplify_fact_comparator] is that
    function, and it simplifies the arguments of a [BoolComparator]. *)
Fixpoint simplified (c : Comparator) : result Comparator :=
  match c with
  | StaticComparator _ => Raise AttributeError
  | FieldQueryComparator op arg1 arg2 =>
      match fqc_static op arg1 arg2 with
      | Some v => Ok (StaticComparator v)
      | None => Ok c
      end
  | BoolComparator bop args =>
      let sargs := map (λ a, match simplified a with
                             | Ok s => s
                             | Raise _ => a
                             end) args in
      match simplified_loop bop sargs [] with
      | inl s => Ok s
      | inr newargs => simplified_combine bop newargs
      end
  end.

Definition simplify_fact_comparator (c : Comparator) : Comparator :=
  match simplified c with
  | Ok s => s
  | Raise _ => c
  end.

(** [placeholders()], class by class. *)
Fixpoint placeholders (c : Comparator) : list value_arg :=
  match c with
  | StaticComparator _ => []
  | FieldQueryComparator _ _ (ArgOther (ArgPositional n)) => [ArgPositional n]
  | FieldQueryComparator _ _ (ArgOther (ArgNamed n d)) => [ArgNamed n d]
  | FieldQueryComparator _ _ _ => []
  | BoolComparator _ args => concat (map placeholders args)
  end.

(** [FieldQueryComparator.indexable]. *)
Definition fqc_indexable (op : compop) (arg1 : path) (arg2 : query_arg)
  : option (path * compop * value_arg) :=
  match fqc_static op arg1 arg2 with
  | Some _ => None
  | None =>
      match arg2 with
      | ArgPath _ => None
      | ArgOther a => Some (arg1, op, a)
      end
  end.

(** *** Ordering *)

(** [FieldOrderBy]: a path and the direction. *)
Record FieldOrderBy := mkFieldOrderBy {
  fob_fp : path;
  fob_asc : bool
}.

(** [FieldOrderBy.compare]: -1, 0 or 1. *)
Definition fob_compare (o : FieldOrderBy) (a b : fact) : result Z :=
  va ← fieldpath_eval (fob_fp o) a;
  vb ← fieldpath_eval (fob_fp o) b;
  Ok (if bool_decide (va = vb) then 0%Z
      else if fob_asc o && klt va vb then (-1)%Z
      else if negb (fob_asc o) && klt vb va then (-1)%Z
      else 1%Z).

(** The local function [mycmp] of [_Select.order_by]. *)
Fixpoint mycmp (field_orders : list FieldOrderBy) (a b : fact) : result Z :=
  match field_orders with
  | [] => Ok 0%Z
  | ford :: r =>
      value ← fob_compare ford a b;
      if decide (value = 0%Z) then mycmp r a b else Ok value
  end.

(** The order of the keys [functools.cmp_to_key(mycmp)] makes:
    [K(a) < K(b)] is [mycmp(a, b) < 0]. *)
Definition key_lt (field_orders : list FieldOrderBy) (a b : fact) : result bool :=
  value ← mycmp field_orders a b; Ok (bool_decide (value < 0)%Z).

(** [list.sort] is a builtin of the language, which guarantees that it is
    stable and compares by [<] only.  It is modelled by the insertion sort
    with these two properties: an element goes before the first one that is
    not smaller than it. *)
Fixpoint sort_insert {A} (lt : A → A → result bool) (x : A) (l : list A)
  : result (list A) :=
  match l with
  | [] => Ok [x]
  | y :: r =>
      b ← lt y x;
      if b : bool then r' ← sort_insert lt x r; Ok (y :: r')
      else Ok (x :: y :: r)
  end.

Fixpoint list_sort {A} (lt : A → A → result bool) (l : list A) : result (list A) :=
  match l with
  | [] => Ok []
  | x :: r => r' ← list_sort lt r; sort_insert lt x r'
  end.

(** *** [_Select]: a selection over a fact map *)

(** The fact map is an object the statement shares with its fact base: it is
    not copied into the statement but passed to each call, as it is then.
    The other attributes: [_index_priority], [_where], [_indexable], and the
    field orders that [_key] closes over. *)
Record Select := mkSelect {
  sel_index_priority : gmap path nat;
  sel_where : option Comparator;
  sel_indexable : option (path * compop * value_arg);
  sel_key : option (list FieldOrderBy)
}.

(** [{ f:p for (p,f) in enumerate(factmap.indexes) }]. *)
Definition index_priority (indexes : list path) : gmap path nat :=
  foldl (λ (d : gmap path nat) pf, <[pf.2 := pf.1]> d) ∅
        (imap (λ p f, (p, f)) indexes).

(** [_Select.__init__]. *)
Definition select_init (m : FactMap) : Select :=
  mkSelect (index_priority (factmap_indexes m)) None None None.

(** [self._index_priority[fp]]. *)
Definition priority_of (prio : gmap path nat) (p : path) : result nat :=
  match prio !! p with Some n => Ok n | None => Raise KeyError end.

(** The local function [validate_indexable] of [_primary_search]. *)
Definition validate_indexable (prio : gmap path nat)
    (indexable : option (path * compop * value_arg))
  : option (path * compop * value_arg) :=
  match indexable with
  | None => None
  | Some i => if decide (is_Some (prio !! i.1.1)) then Some i else None
  end.

(** [_Select._primary_search]. *)
Fixpoint primary_search (prio : gmap path nat) (cond : Comparator)
  : result (option (path * compop * value_arg)) :=
  match cond with
  | FieldQueryComparator op arg1 arg2 =>
      Ok (validate_indexable prio (fqc_indexable op arg1 arg2))
  | BoolComparator OpAnd args =>
      (fix loop (l : list Comparator) (indexable : option (path * compop * value_arg))
         : result (option (path * compop * value_arg)) :=
         match l with
         | [] => Ok indexable
         | arg :: r =>
             tmp ← primary_search prio arg;
             match tmp, indexable with
             | None, _ => loop r indexable
             | Some t, None => loop r (Some t)
             | Some t, Some i =>
                 pt ← priority_of prio t.1.1;
                 pi ← priority_of prio i.1.1;
                 if decide (pt < pi) then loop r (Some t) else loop r indexable
             end
         end) args None
  | _ => Ok None
  end.

(** [_Select.where]. *)
Definition select_where (expressions : list Comparator) (s : Select) : result Select :=
  match sel_where s with
  | Some _ => Raise (ValueError "cannot specify 'where' multiple times")
  | None =>
      cond ← match expressions with
              | [] => Raise (ValueError "empty 'where' expression")
              | [e] => Ok (simplify_fact_comparator e)
              | _ => c ← bool_comparator OpAnd expressions;
                     Ok (simplify_fact_comparator c)
              end;
      indexable ← primary_search (sel_index_priority s) cond;
      Ok (mkSelect (sel_index_priority s) (Some cond) indexable (sel_key s))
  end.

(** [_Select.has_where]. *)
Definition select_has_where (s : Select) : bool :=
  bool_decide (is_Some (sel_where s)).

(** What [order_by] accepts: a [FieldOrderBy], or a path builder, which
    stands for the ascending order of its path. *)
Inductive order_expr :=
| OrderField (o : FieldOrderBy)
| OrderPath (p : path).

(** [_Select.order_by]. *)
Definition select_order_by (expressions : list order_expr) (s : Select) : result Select :=
  match sel_key s with
  | Some _ => Raise (ValueError "cannot specify 'order_by' multiple times")
  | None =>
      match expressions with
      | [] => Raise (ValueError "empty 'order_by' expression")
      | _ =>
          let field_orders :=
            map (λ e, match e with
                      | OrderField o => o
                      | OrderPath p => mkFieldOrderBy p true
                      end) expressions in
          Ok (mkSelect (sel_index_priority s) (sel_where s) (sel_indexable s)
                       (Some field_orders))
      end
  end.

(** The loop of [_Select._resolve_arguments] over the placeholders. *)
Fixpoint resolve_loop (phs : list value_arg) (args : list K)
    (kwargs new_kwargs : gmap string K) : result (gmap string K) :=
  match phs with
  | [] => Ok new_kwargs
  | ArgPositional posn :: r =>
      if decide (posn < length args) then resolve_loop r args kwargs new_kwargs
      else Raise TypeError
  | ArgNamed name default :: r =>
      if decide (is_Some (kwargs !! name)) then resolve_loop r args kwargs new_kwargs
      else match default with
           | Some d => resolve_loop r args kwargs (<[name := d]> new_kwargs)
           | None => Raise TypeError
           end
  | ArgValue _ :: _ => Raise TypeError
  end.

(** [_Select._resolve_arguments]: [new_kwargs.update(kwargs)] lets the
    caller's values win. *)
Definition resolve_arguments (s : Select) (args : list K) (kwargs : gmap string K)
  : result (gmap string K) :=
  match sel_where s with
  | None => Ok kwargs
  | Some cond =>
      new_kwargs ← resolve_loop (placeholders cond) args kwargs ∅;
      if decide (new_kwargs = ∅) then Ok kwargs else Ok (kwargs ∪ new_kwargs)
  end.

(** [_Select.get] on the fact map as it is at the call.  A Python set is
    iterated in an order of its own: that of [elements]. *)
Definition select_get (s : Select) (m : FactMap) (args : list K)
    (kwargs : gmap string K) : result (list fact) :=
  nkwargs ← resolve_arguments s args kwargs;
  found ← match sel_indexable s with
          | None =>
              match sel_where s with
              | None => Ok (elements (fm_allfacts m))
              | Some cond =>
                  rfilterM (λ f, comparator_call cond f args nkwargs)
                           (elements (fm_allfacts m))
              end
          | Some (fp, op, a) =>
              findex ← factmap_get_factindex m fp;
              value ← get_value args nkwargs a;
              facts ← findex_find findex op value;
              match sel_where s with
              | None => match elements facts with
                        | [] => Ok []
                        | _ => Raise TypeError
                        end
              | Some cond =>
                  rfilterM (λ f, comparator_call cond f args nkwargs)
                           (elements facts)
              end
          end;
  match sel_key s with
  | None => Ok found
  | Some field_orders => list_sort (key_lt field_orders) found
  end.

(** [_Select.get_unique]. *)
Definition select_get_unique (s : Select) (m : FactMap) (args : list K)
    (kwargs : gmap string K) : result fact :=
  found ← select_get s m args kwargs;
  match found with
  | [] => Raise (ValueError "No facts found - exactly one expected")
  | [f] => Ok f
  | _ => Raise (ValueError "Multiple facts found - exactly one expected")
  end.

(** [_Select.count]. *)
Definition select_count (s : Select) (m : FactMap) (args : list K)
    (kwargs : gmap string K) : result nat :=
  found ← select_get s m args kwargs; Ok (length found).

(** *** [_Delete]: a deletion over a fact map *)

(** [_Delete.__init__] and [_Delete.where]: the statement is its select. *)
Record Delete := mkDelete { del_select : Select }.

Definition delete_init (m : FactMap) : Delete := mkDelete (select_init m).

Definition delete_where (expressions : list Comparator) (d : Delete) : result Delete :=
  s ← select_where expressions (del_select d); Ok (mkDelete s).

(** [for fact in to_delete: self._factmap.remove(fact)]. *)
Fixpoint remove_each (to_delete : list fact) (m : FactMap) : FactMap * result () :=
  match to_delete with
  | [] => (m, Ok ())
  | f :: r =>
      match factmap_remove f true m with
      | (m', Ok _) => remove_each r m'
      | (m', Raise e) => (m', Raise e)
      end
  end.

(** [_Delete.execute]: the fact map after the call and the number the call
    returns. *)
Definition delete_execute (d : Delete) (m : FactMap) (args : list K)
    (kwargs : gmap string K) : FactMap * result nat :=
  if select_has_where (del_select d) then
    match select_get (del_select d) m args kwargs with
    | Raise e => (m, Raise e)
    | Ok to_delete =>
        match remove_each to_delete m with
        | (m', Ok _) => (m', Ok (length to_delete))
        | (m', Raise e) => (m', Raise e)
        end
    end
  else (factmap_clear m, Ok (size (fm_allfacts m))).

(** ** Properties *)

(** What the engine asks of the order of the terms: [klt] is a strict total
    order. *)
Hypothesis klt_irrefl : ∀ a, klt a a = false.
Hypothesis klt_trans : ∀ a b c, klt a b = true → klt b c = true → klt a c = true.
Hypothesis klt_total : ∀ a b, klt a b = false → klt b a = false → a = b.

(** *** Bisection of a sorted list *)

(** Both loops are the bisection by a test [P] that holds on a prefix of
    the list. *)
Fixpoint bisect_loop (P : K → bool) (fuel : nat) (a : list K) (lo hi : nat) : nat :=
  match fuel with
  | O => lo
  | S n =>
      if decide (lo < hi) then
        let mid := (lo + hi) `div` 2 in
        match a !! mid with
        | Some am =>
            if P am then bisect_loop P n a (mid + 1) hi
            else bisect_loop P n a lo mid
        | None => lo
        end
      else lo
  end.

(** The number of leading elements that pass the test. *)
Fixpoint lead (P : K → bool) (l : list K) : nat :=
  match l with
  | [] => 0
  | a :: r => if P a then S (lead P r) else 0
  end.

(** The test holds on a prefix: once it fails, it fails for good. *)
Definition prefix_test (P : K → bool) (l : list K) : Prop :=
  ∀ i j a b, i < j → l !! i = Some a → l !! j = Some b → P b = true → P a = true.

(** Strictly ascending, as [_keylist] is kept. *)
Definition ksorted (l : list K) : Prop :=
  StronglySorted (λ a b, klt a b = true) l.

Lemma bisect_left_loop_eq fuel a x lo hi :
  bisect_left_loop fuel a x lo hi = bisect_loop (λ k, klt k x) fuel a lo hi.
Proof.
  revert lo hi. induction fuel as [|n IH]; intros lo hi; simpl; [done|].
  destruct (decide (lo < hi)); [|done].
  destruct (a !! _); [|done]. by rewrite !IH.
Qed.

Lemma bisect_right_loop_eq fuel a x lo hi :
  bisect_right_loop fuel a x lo hi = bisect_loop (λ k, negb (klt x k)) fuel a lo hi.
Proof.
  revert lo hi. induction fuel as [|n IH]; intros lo hi; simpl; [done|].
  destruct (decide (lo < hi)); [|done].
  destruct (a !! _) as [am|]; [|done]. rewrite !IH. by destruct (klt x am).
Qed.

Lemma prefix_test_tail P a l : prefix_test P (a :: l) → prefix_test P l.
Proof.
  intros Hp i j x y Hij Hi Hj. apply (Hp (S i) (S j) x y); [lia|done..].
Qed.

Lemma lead_le P l : lead P l ≤ length l.
Proof. induction l as [|a l IH]; simpl; [done|]. destruct (P a); lia. Qed.

Lemma lead_spec P l i a :
  prefix_test P l → l !! i = Some a → P a = true ↔ i < lead P l.
Proof.
  revert i. induction l as [|a0 l IH]; intros i Hp Hi; [done|].
  simpl. destruct (P a0) eqn:Ha0.
  - destruct i as [|i]; simpl in Hi.
    + simplify_eq. split; [lia|done].
    + rewrite (IH i (prefix_test_tail _ _ _ Hp) Hi). lia.
  - destruct i as [|i]; simpl in Hi.
    + simplify_eq. split; [congruence|lia].
    + split; [|lia]. intros Ha.
      pose proof (Hp 0 (S i) a0 a ltac:(lia) eq_refl Hi Ha). congruence.
Qed.

Lemma bisect_loop_lead P fuel l lo hi :
  prefix_test P l →
  lo ≤ lead P l → lead P l ≤ hi → hi ≤ length l → hi - lo ≤ fuel →
  bisect_loop P fuel l lo hi = lead P l.
Proof.
  intros Hp. revert lo hi.
  induction fuel as [|n IH]; intros lo hi Hlo Hhi Hlen Hfuel;
    cbn [bisect_loop]; [lia|]. cbv zeta.
  destruct (decide (lo < hi)) as [Hlt|]; [|lia].
  assert (lo ≤ (lo + hi) `div` 2 ∧ (lo + hi) `div` 2 < hi) as [Hm1 Hm2].
  { split.
    - apply Nat.div_le_lower_bound; lia.
    - apply Nat.Div0.div_lt_upper_bound; lia. }
  remember ((lo + hi) `div` 2) as mid eqn:Hmid_def. clear Hmid_def.
  destruct (l !! mid) as [am|] eqn:Hmid.
  - pose proof (lead_spec P l _ am Hp Hmid) as Hspec.
    destruct (P am) eqn:HP.
    + assert (mid < lead P l) by (by apply Hspec). apply IH; lia.
    + assert (¬ mid < lead P l) by (intros Hc; apply Hspec in Hc; congruence).
      apply IH; lia.
  - apply lookup_ge_None in Hmid. lia.
Qed.

Lemma elem_of_take_lead P l x :
  prefix_test P l → x ∈ take (lead P l) l ↔ x ∈ l ∧ P x = true.
Proof.
  intros Hp. rewrite elem_of_take. split.
  - intros (i & Hi & Hlt). split; [by eapply list_elem_of_lookup_2|].
    by apply (lead_spec P l i x Hp Hi).
  - intros [(i & Hi)%list_elem_of_lookup_1 HP]. exists i. split; [done|].
    by apply (lead_spec P l i x Hp Hi).
Qed.

Lemma elem_of_drop_lead P l x :
  prefix_test P l → x ∈ drop (lead P l) l ↔ x ∈ l ∧ P x = false.
Proof.
  intros Hp. rewrite list_elem_of_lookup. split.
  - intros (i & Hi). rewrite lookup_drop in Hi.
    split; [by eapply list_elem_of_lookup_2|].
    destruct (P x) eqn:HP; [|done].
    apply (lead_spec P l _ x Hp Hi) in HP. lia.
  - intros [(i & Hi)%list_elem_of_lookup_1 HP].
    assert (¬ i < lead P l) as Hge.
    { intros Hlt. apply (lead_spec P l i x Hp Hi) in Hlt. congruence. }
    exists (i - lead P l). rewrite lookup_drop.
    by replace (lead P l + (i - lead P l)) with i by lia.
Qed.

Lemma ksorted_lookup l i j a b :
  ksorted l → i < j → l !! i = Some a → l !! j = Some b → klt a b = true.
Proof.
  intros Hs. revert i j. induction Hs as [|x l Hs IH Hall]; intros i j Hij Hi Hj; [done|].
  destruct j as [|j]; [lia|]. simpl in Hj. destruct i as [|i]; simpl in Hi.
  - simplify_eq. rewrite Forall_forall in Hall. apply Hall.
    by eapply list_elem_of_lookup_2.
  - apply (IH i j); [lia|done..].
Qed.

Lemma ksorted_prefix_lt l x : ksorted l → prefix_test (λ k, klt k x) l.
Proof.
  intros Hs i j a b Hij Hi Hj Hb. simpl in *.
  eapply klt_trans; [|done]. by eapply ksorted_lookup.
Qed.

Lemma ksorted_prefix_le l x : ksorted l → prefix_test (λ k, negb (klt x k)) l.
Proof.
  intros Hs i j a b Hij Hi Hj Hb. simpl in *.
  destruct (klt x a) eqn:Hxa; [|done].
  rewrite (klt_trans x a b Hxa) in Hb; [done|]. by eapply ksorted_lookup.
Qed.

Lemma bisect_left_lead l x :
  ksorted l → bisect_left l x = lead (λ k, klt k x) l.
Proof.
  intros Hs. unfold bisect_left. rewrite bisect_left_loop_eq.
  apply bisect_loop_lead; [by apply ksorted_prefix_lt|lia|apply lead_le|lia..].
Qed.

Lemma bisect_right_lead l x :
  ksorted l → bisect_right l x = lead (λ k, negb (klt x k)) l.
Proof.
  intros Hs. unfold bisect_right. rewrite bisect_right_loop_eq.
  apply bisect_loop_lead; [by apply ksorted_prefix_le|lia|apply lead_le|lia..].
Qed.

(** *** The sorted list of keys *)

Lemma klt_asym a b : klt a b = true → klt b a = false.
Proof.
  intros Hab. destruct (klt b a) eqn:Hba; [|done].
  by rewrite <-(klt_irrefl a), (klt_trans a b a Hab Hba).
Qed.

Lemma ksorted_take n l : ksorted l → ksorted (take n l).
Proof.
  intros Hs. unfold ksorted in *. rewrite <-(take_drop n l) in Hs.
  by apply StronglySorted_app in Hs as (_ & ? & _).
Qed.

Lemma ksorted_drop n l : ksorted l → ksorted (drop n l).
Proof.
  intros Hs. unfold ksorted in *. rewrite <-(take_drop n l) in Hs.
  by apply StronglySorted_app in Hs as (_ & _ & ?).
Qed.

Lemma ksorted_take_drop n m l x1 x2 :
  ksorted l → n ≤ m → x1 ∈ take n l → x2 ∈ drop m l → klt x1 x2 = true.
Proof.
  intros Hs Hnm (i & Hi & Hlt)%elem_of_take (j & Hj)%list_elem_of_lookup_1.
  rewrite lookup_drop in Hj. apply (ksorted_lookup l i (m + j)); [done|lia|done..].
Qed.

(** The bisection finds a key of the list where it is. *)
Lemma bisect_left_found l x :
  ksorted l → x ∈ l → l !! bisect_left l x = Some x.
Proof.
  intros Hs (j & Hj)%list_elem_of_lookup_1. rewrite bisect_left_lead by done.
  pose proof (ksorted_prefix_lt l x Hs) as Hp.
  set (n := lead (λ k, klt k x) l).
  assert (¬ j < n) as Hge.
  { intros Hlt. apply (lead_spec _ l j x Hp Hj) in Hlt. simpl in Hlt.
    by rewrite klt_irrefl in Hlt. }
  destruct (decide (n < j)) as [Hlt|]; [|by replace n with j by lia].
  destruct (l !! n) as [y|] eqn:Hn.
  - pose proof (ksorted_lookup l n j y x Hs Hlt Hn Hj) as Hyx.
    apply (lead_spec _ l n y Hp Hn) in Hyx. unfold n in Hyx. lia.
  - apply lookup_ge_None in Hn. apply lookup_lt_Some in Hj. lia.
Qed.

Lemma bisect_left_test l x :
  ksorted l →
  (bisect_left l x < length l ∧ l !! bisect_left l x = Some x) ↔ x ∈ l.
Proof.
  intros Hs. split.
  - intros [_ Hx]. by eapply list_elem_of_lookup_2.
  - intros Hx. pose proof (bisect_left_found l x Hs Hx) as Hf.
    split; [by eapply lookup_lt_Some|done].
Qed.

Lemma insort_left_elem_of l x k :
  k ∈ insort_left l x ↔ k = x ∨ k ∈ l.
Proof.
  unfold insort_left. rewrite elem_of_app, elem_of_cons.
  rewrite <-(take_drop (bisect_left l x) l) at 5. rewrite elem_of_app. tauto.
Qed.

Lemma insort_left_sorted l x :
  ksorted l → x ∉ l → ksorted (insort_left l x).
Proof.
  intros Hs Hx. unfold insort_left. rewrite bisect_left_lead by done.
  pose proof (ksorted_prefix_lt l x Hs) as Hp.
  set (n := lead (λ k, klt k x) l).
  assert (∀ k, k ∈ drop n l → klt x k = true) as Hdrop.
  { intros k [Hk Hkx]%(elem_of_drop_lead _ l k Hp). simpl in Hkx.
    destruct (klt x k) eqn:Hxk; [done|].
    destruct Hx. by rewrite (klt_total x k Hxk Hkx). }
  apply StronglySorted_app. split_and!.
  - intros x1 x2 Hx1 [->|Hx2]%elem_of_cons.
    + by apply (elem_of_take_lead _ l x1 Hp) in Hx1 as [_ ?].
    + by apply (ksorted_take_drop n n l).
  - by apply ksorted_take.
  - apply StronglySorted_cons. split; [|by apply ksorted_drop].
    apply Forall_forall. intros k Hk. by apply Hdrop.
Qed.

Lemma delete_sorted i l : ksorted l → ksorted (delete i l).
Proof.
  intros Hs. rewrite delete_take_drop. apply StronglySorted_app. split_and!.
  - intros x1 x2 Hx1 Hx2. apply (ksorted_take_drop i (S i) l); [done|lia|done..].
  - by apply ksorted_take.
  - by apply ksorted_drop.
Qed.

Lemma delete_sorted_elem_of i l x k :
  ksorted l → l !! i = Some x → k ∈ delete i l ↔ k ∈ l ∧ k ≠ x.
Proof.
  intros Hs Hi. rewrite delete_take_drop, elem_of_app.
  rewrite <-(take_drop_middle l i x Hi) at 3. rewrite elem_of_app, elem_of_cons.
  assert (k ∈ take i l → k ≠ x) as Ht.
  { intros (j & Hj & Hlt)%elem_of_take ->.
    pose proof (ksorted_lookup l j i x x Hs Hlt Hj Hi) as Hxx.
    by rewrite klt_irrefl in Hxx. }
  assert (k ∈ drop (S i) l → k ≠ x) as Hd.
  { intros (j & Hj)%list_elem_of_lookup_1 ->. rewrite lookup_drop in Hj.
    pose proof (ksorted_lookup l i (S i + j) x x Hs ltac:(lia) Hi Hj) as Hxx.
    by rewrite klt_irrefl in Hxx. }
  tauto.
Qed.

(** *** The invariant of an index *)

(** A fact is present in an index when one of its buckets holds it. *)
Definition in_index (f : fact) (ix : FactIndex) : Prop :=
  ∃ k vs, fi_key2values ix !! k = Some vs ∧ f ∈ vs.

(** The index [ix] is in lock-step with the fact set [fs]: the key list is
    strictly ascending and lists the keys of the dictionary, no bucket is
    empty, a bucket holds facts of its key only, and the facts of the
    buckets are those of [fs]. *)
Record index_inv (fs : gset fact) (ix : FactIndex) : Prop := mk_index_inv {
  ii_sorted : ksorted (fi_keylist ix);
  ii_keys : ∀ k, k ∈ fi_keylist ix ↔ is_Some (fi_key2values ix !! k);
  ii_bucket : ∀ k vs, fi_key2values ix !! k = Some vs →
                vs ≠ ∅ ∧ ∀ f, f ∈ vs → path_get (fi_fpspec ix) f = k;
  ii_lockstep : ∀ f, in_index f ix ↔ f ∈ fs
}.

Lemma index_inv_init fpspec : index_inv ∅ (findex_init fpspec).
Proof.
  split; simpl.
  - constructor.
  - intros k. rewrite lookup_empty. split; [by intros ?%elem_of_nil|by intros []].
  - intros k vs. by rewrite lookup_empty.
  - intros f. split; [|set_solver]. intros (k & vs & Hk & _).
    simpl in Hk. by rewrite lookup_empty in Hk.
Qed.

Lemma index_inv_clear ix : index_inv ∅ (findex_clear ix).
Proof. apply index_inv_init. Qed.

Lemma index_inv_bucket fs ix k vs f :
  index_inv fs ix → fi_key2values ix !! k = Some vs →
  f ∈ vs ↔ f ∈ fs ∧ path_get (fi_fpspec ix) f = k.
Proof.
  intros Hinv Hk. split.
  - intros Hf. split.
    + apply (ii_lockstep _ _ Hinv). by exists k, vs.
    + by apply (ii_bucket _ _ Hinv k vs).
  - intros [(k' & vs' & Hk' & Hf)%(ii_lockstep _ _ Hinv) Hkey].
    pose proof (ii_bucket _ _ Hinv k' vs' Hk') as [_ Hb].
    rewrite (Hb f Hf) in Hkey. by simplify_eq.
Qed.

Lemma index_inv_lookup fs ix f :
  index_inv fs ix → f ∈ fs →
  ∃ vs, fi_key2values ix !! path_get (fi_fpspec ix) f = Some vs ∧ f ∈ vs.
Proof.
  intros Hinv (k & vs & Hk & Hf)%(ii_lockstep _ _ Hinv).
  pose proof (ii_bucket _ _ Hinv k vs Hk) as [_ Hb].
  rewrite (Hb f Hf). by exists vs.
Qed.

(** The dictionary after the two statements of [add] that update it. *)
Lemma add_bucket_lookup (m : gmap K (gset fact)) key f k :
  alter (λ vs, {[f]} ∪ vs) key
    (match m !! key with None => <[key := ∅]> m | Some _ => m end) !! k
  = if decide (key = k) then Some ({[f]} ∪ default ∅ (m !! key)) else m !! k.
Proof.
  destruct (decide (key = k)) as [->|Hne].
  - rewrite lookup_alter_eq. destruct (m !! k) as [vs|] eqn:Hk.
    + by rewrite Hk.
    + by rewrite lookup_insert_eq.
  - rewrite lookup_alter_ne by done. destruct (m !! key); [done|].
    by rewrite lookup_insert_ne.
Qed.

(** [add] keeps the index in lock-step with the fact set it grows. *)
Lemma findex_add_inv fs ix f :
  index_inv fs ix → fact_type f = path_pred (fi_fpspec ix) →
  ∃ ix', findex_add f ix = (ix', Ok ()) ∧ fi_fpspec ix' = fi_fpspec ix
         ∧ index_inv ({[f]} ∪ fs) ix'.
Proof.
  intros Hinv Hty. unfold findex_add. rewrite decide_True by done.
  remember (path_get (fi_fpspec ix) f) as key eqn:Hkey.
  set (m2 := alter _ key _).
  assert (∀ k, m2 !! k = if decide (key = k)
                         then Some ({[f]} ∪ default ∅ (fi_key2values ix !! key))
                         else fi_key2values ix !! k) as Hm2.
  { intros k. apply add_bucket_lookup. }
  assert (∀ kl, (∀ k, k ∈ kl ↔ k = key ∨ k ∈ fi_keylist ix) → ksorted kl →
                index_inv ({[f]} ∪ fs) (mkFactIndex (fi_fpspec ix) kl m2)) as Hgen.
  { intros kl Hkl Hs. split; simpl.
    - done.
    - intros k. rewrite Hkl, Hm2, (ii_keys _ _ Hinv).
      destruct (decide (key = k)) as [Heq|Hne].
      + split; [by eauto|by left].
      + split; [by intros [?|?]|by right].
    - intros k vs. rewrite Hm2. destruct (decide (key = k)) as [Heq|Hne].
      + intros [= <-]. split; [set_solver|].
        intros g [->%elem_of_singleton|Hg]%elem_of_union; [congruence|].
        destruct (fi_key2values ix !! key) as [vs0|] eqn:Hk; simpl in Hg; [|set_solver].
        rewrite <-Heq. by apply (ii_bucket _ _ Hinv key vs0 Hk).
      + apply (ii_bucket _ _ Hinv).
    - intros g. rewrite elem_of_union, elem_of_singleton. split.
      + intros (k & vs & Hk & Hg). simpl in Hk. rewrite Hm2 in Hk.
        destruct (decide (key = k)) as [Heq|Hne].
        * injection Hk as <-.
          apply elem_of_union in Hg as [->%elem_of_singleton|Hg]; [by left|].
          right. destruct (fi_key2values ix !! key) as [vs0|] eqn:Hk0; simpl in Hg; [|set_solver].
          apply (ii_lockstep _ _ Hinv). by exists key, vs0.
        * right. apply (ii_lockstep _ _ Hinv). by exists k, vs.
      + intros [->|Hg].
        * exists key, ({[f]} ∪ default ∅ (fi_key2values ix !! key)). simpl.
          rewrite Hm2, decide_True by done. split; [done|set_solver].
        * apply (ii_lockstep _ _ Hinv) in Hg as (k & vs & Hk & Hg).
          destruct (decide (key = k)) as [Heq|Hne].
          -- exists key, ({[f]} ∪ default ∅ (fi_key2values ix !! key)). simpl.
             rewrite Hm2, decide_True by done. split; [done|].
             rewrite Heq, Hk. set_solver.
          -- exists k, vs. simpl. by rewrite Hm2, decide_False. }
  pose proof (bisect_left_test (fi_keylist ix) key (ii_sorted _ _ Hinv)) as Htest.
  destruct (decide (_ ∧ _)) as [Hin|Hnin].
  - eexists. split; [done|]. split; [done|]. apply Hgen; [|by apply (ii_sorted _ _ Hinv)].
    apply Htest in Hin. naive_solver.
  - eexists. split; [done|]. split; [done|]. apply Hgen.
    + intros k. apply insort_left_elem_of.
    + apply insort_left_sorted; [by apply (ii_sorted _ _ Hinv)|]. by rewrite <-Htest.
Qed.

(** [remove] and [discard] of a fact of the set keep the index in
    lock-step with the fact set they shrink. *)
Lemma findex_remove_inv fs ix f b :
  index_inv fs ix → fact_type f = path_pred (fi_fpspec ix) → f ∈ fs →
  ∃ ix', findex_remove f b ix = (ix', Ok ()) ∧ fi_fpspec ix' = fi_fpspec ix
         ∧ index_inv (fs ∖ {[f]}) ix'.
Proof.
  intros Hinv Hty Hf. unfold findex_remove. rewrite decide_True by done.
  destruct (index_inv_lookup fs ix f Hinv Hf) as (vs & Hvs & Hfvs).
  remember (path_get (fi_fpspec ix) f) as key eqn:Hkey.
  rewrite Hvs. rewrite bool_decide_true by done. rewrite andb_false_r.
  pose proof (ii_bucket _ _ Hinv key vs Hvs) as [_ Hbk].
  assert (key ∈ fi_keylist ix) as Hin by (apply (ii_keys _ _ Hinv); eauto).
  pose proof (bisect_left_found _ key (ii_sorted _ _ Hinv) Hin) as Hposn.
  destruct (decide (vs ∖ {[f]} = ∅)) as [Hempty|Hnonempty].
  - rewrite decide_True by (by eapply lookup_lt_Some).
    eexists. split; [done|]. split; [done|]. split; simpl.
    + apply delete_sorted, (ii_sorted _ _ Hinv).
    + intros k.
      rewrite (delete_sorted_elem_of _ _ key k (ii_sorted _ _ Hinv) Hposn).
      rewrite (ii_keys _ _ Hinv), lookup_delete_is_Some, lookup_insert_is_Some.
      destruct (decide (key = k)); naive_solver.
    + intros k vs'. rewrite lookup_delete_Some, lookup_insert_Some.
      intros [Hne [[? _]|[_ Hk]]]; [done|]. by apply (ii_bucket _ _ Hinv).
    + intros g. rewrite elem_of_difference, elem_of_singleton. split.
      * intros (k & vs' & Hk & Hg). simpl in Hk.
        apply lookup_delete_Some in Hk as [Hne Hk].
        rewrite lookup_insert_ne in Hk by done.
        apply (index_inv_bucket fs ix k vs' g Hinv Hk) in Hg as [Hg Hgk].
        split; [done|]. intros ->. congruence.
      * intros [Hg Hgf].
        destruct (index_inv_lookup fs ix g Hinv Hg) as (vs' & Hvs' & Hgvs).
        exists (path_get (fi_fpspec ix) g), vs'. split; [|done]. simpl.
        rewrite lookup_delete_ne, lookup_insert_ne; [done|..];
          intros Heq; rewrite <-Heq, Hvs in Hvs'; simplify_eq; set_solver.
  - eexists. split; [done|]. split; [done|]. split; simpl.
    + apply (ii_sorted _ _ Hinv).
    + intros k. rewrite (ii_keys _ _ Hinv), lookup_insert_is_Some.
      destruct (decide (key = k)) as [<-|]; naive_solver.
    + intros k vs'. rewrite lookup_insert_Some.
      intros [[<- <-]|[_ Hk]]; [|by apply (ii_bucket _ _ Hinv)].
      split; [done|]. intros g Hg. apply Hbk. set_solver.
    + intros g. rewrite elem_of_difference, elem_of_singleton. split.
      * intros (k & vs' & Hk & Hg). simpl in Hk.
        apply lookup_insert_Some in Hk as [[<- <-]|[Hne Hk]].
        -- apply elem_of_difference in Hg as [Hg Hgf]. split; [|set_solver].
           apply (ii_lockstep _ _ Hinv). by exists key, vs.
        -- apply (index_inv_bucket fs ix k vs' g Hinv Hk) in Hg as [Hg Hgk].
           split; [done|]. intros ->. congruence.
      * intros [Hg Hgf].
        destruct (index_inv_lookup fs ix g Hinv Hg) as (vs' & Hvs' & Hgvs).
        destruct (decide (key = path_get (fi_fpspec ix) g)) as [Heq|Hne].
        -- exists key, (vs ∖ {[f]}). simpl. rewrite lookup_insert_eq. split; [done|].
           rewrite <-Heq, Hvs in Hvs'. simplify_eq. set_solver.
        -- exists (path_get (fi_fpspec ix) g), vs'. simpl.
           by rewrite lookup_insert_ne.
Qed.

(** [discard] of a fact the set does not hold leaves the index as it is. *)
Lemma findex_discard_absent fs ix f :
  index_inv fs ix → f ∉ fs →
  findex_remove f false ix
  = (ix, if decide (fact_type f = path_pred (fi_fpspec ix)) then Ok () else Raise TypeError).
Proof.
  intros Hinv Hf. unfold findex_remove.
  destruct (decide (fact_type f = _)) as [Hty|]; [|done].
  destruct (fi_key2values ix !! _) as [vs|] eqn:Hvs; [|done]. simpl.
  assert (f ∉ vs) as Hfvs.
  { intros Hin. apply Hf, (ii_lockstep _ _ Hinv). by eexists _, vs. }
  replace (vs ∖ {[f]}) with vs by set_solver.
  pose proof (ii_bucket _ _ Hinv _ vs Hvs) as [Hne _].
  rewrite decide_False by done. rewrite insert_id by done. by destruct ix.
Qed.

(** *** The invariant of a fact map *)

(** Every index of the fact map holds the facts of the fact set, no other. *)
Definition lockstep (m : FactMap) : Prop :=
  ∀ pi, pi ∈ fm_findexes m → ∀ f, in_index f pi.2 ↔ f ∈ fm_allfacts m.

(** What [_FactMap.__init__] sets up and the operations keep: the facts are
    of the predicate of the map, the indexes are on distinct paths of that
    predicate, each under its path, and each in lock-step with the facts. *)
Record factmap_inv (m : FactMap) : Prop := mk_factmap_inv {
  fmi_typed : ∀ f, f ∈ fm_allfacts m → fact_type f = fm_ptype m;
  fmi_paths : NoDup (factmap_indexes m);
  fmi_index : Forall (λ pi, fi_fpspec pi.2 = pi.1 ∧ path_pred pi.1 = fm_ptype m
                            ∧ index_inv (fm_allfacts m) pi.2) (fm_findexes m)
}.

Lemma factmap_inv_lockstep m : factmap_inv m → lockstep m.
Proof.
  intros Hinv pi Hpi f. pose proof (fmi_index _ Hinv) as Hall.
  rewrite Forall_forall in Hall. destruct (Hall pi Hpi) as (_ & _ & Hix).
  apply (ii_lockstep _ _ Hix).
Qed.

Lemma each_index_ok (step : FactIndex → FactIndex * result ())
    (P Q : path * FactIndex → Prop) d :
  (∀ p ix, P (p, ix) → ∃ ix', step ix = (ix', Ok ()) ∧ Q (p, ix')) →
  Forall P d →
  ∃ d', each_index step d = (d', Ok ()) ∧ fst <$> d' = fst <$> d ∧ Forall Q d'.
Proof.
  intros Hstep. induction 1 as [|[p ix] d HP Hd (d' & IH1 & IH2 & IH3)]; simpl.
  - by exists [].
  - destruct (Hstep p ix HP) as (ix' & -> & HQ). rewrite IH1.
    exists ((p, ix') :: d'). split; [done|]. split; [by rewrite fmap_cons, IH2|].
    by constructor.
Qed.


Lemma odict_set_keys {V} p (v : V) d :
  fst <$> odict_set p v d
  = if decide (p ∈ fst <$> d) then fst <$> d else (fst <$> d) ++ [p].
Proof.
  induction d as [|[q w] d IH]; cbn [odict_set].
  - done.
  - rewrite fmap_cons. cbn [fst].
    destruct (decide (p = q)) as [->|Hne].
    + rewrite decide_True; [done|by left].
    + rewrite fmap_cons, IH. cbn [fst].
      destruct (decide (p ∈ fst <$> d)) as [Hin|Hnin].
      * rewrite decide_True; [done|by right].
      * rewrite decide_False; [done|]. by intros [?|?]%elem_of_cons.
Qed.

Lemma odict_set_Forall {V} (P : path * V → Prop) p v d :
  P (p, v) → Forall P d → Forall P (odict_set p v d).
Proof.
  intros Hp. induction 1 as [|[q w] d Hq Hd IH]; simpl.
  - by constructor.
  - destruct (decide (p = q)) as [->|]; by constructor.
Qed.

Lemma odict_of_spec {V} (P : path * V → Prop) items :
  Forall P items →
  NoDup (fst <$> odict_of items) ∧ Forall P (odict_of items).
Proof.
  unfold odict_of. intros Hitems.
  assert (∀ d, NoDup (fst <$> d) → Forall P d →
            NoDup (fst <$> foldl (λ d pv, odict_set pv.1 pv.2 d) d items)
            ∧ Forall P (foldl (λ d pv, odict_set pv.1 pv.2 d) d items)) as Hfold.
  { induction Hitems as [|[p v] items Hp Hitems IH]; intros d Hnd Hd; simpl; [done|].
    apply IH.
    - rewrite odict_set_keys. destruct (decide (p ∈ fst <$> d)); [done|].
      apply NoDup_app. split_and!; [done| |apply NoDup_singleton].
      intros x Hx ->%list_elem_of_singleton. done.
    - by apply odict_set_Forall. }
  apply Hfold; constructor.
Qed.

Lemma factmap_inv_init pt index m :
  factmap_init pt index = Ok m → factmap_inv m.
Proof.
  unfold factmap_init. intros Hm. destruct index as [|p index].
  - simplify_eq. split; simpl; [set_solver|constructor|constructor].
  - destruct (forallb _ _) eqn:Hall; [|done]. simplify_eq.
    rewrite forallb_forall in Hall.
    destruct (odict_of_spec
                (λ pi, fi_fpspec pi.2 = pi.1 ∧ path_pred pi.1 = pt
                       ∧ index_inv ∅ pi.2)
                ((λ p, (p, findex_init p)) <$> (p :: index))) as [Hnd Hd].
    + apply Forall_fmap, Forall_forall. intros q Hq. simpl.
      split; [done|]. split; [|apply index_inv_init].
      eapply bool_decide_eq_true_1, Hall. by apply list_elem_of_In.
    + split; simpl; [set_solver|done|done].
Qed.

Lemma factmap_add_inv m f :
  factmap_inv m → fact_type f = fm_ptype m →
  ∃ m', factmap_add f m = (m', Ok ())
        ∧ fm_allfacts m' = {[f]} ∪ fm_allfacts m
        ∧ fm_ptype m' = fm_ptype m
        ∧ factmap_indexes m' = factmap_indexes m
        ∧ factmap_inv m'.
Proof.
  intros Hinv Hty. unfold factmap_add.
  destruct (each_index_ok (findex_add f)
              (λ pi, fi_fpspec pi.2 = pi.1 ∧ path_pred pi.1 = fm_ptype m
                     ∧ index_inv (fm_allfacts m) pi.2)
              (λ pi, fi_fpspec pi.2 = pi.1 ∧ path_pred pi.1 = fm_ptype m
                     ∧ index_inv ({[f]} ∪ fm_allfacts m) pi.2)
              (fm_findexes m)) as (d' & -> & Hkeys & Hd').
  - intros p ix (Hp & Hpred & Hix). simpl in *.
    destruct (findex_add_inv _ ix f Hix) as (ix' & -> & Hp' & Hix'); [congruence|].
    exists ix'. split; [done|]. simpl. split; [congruence|done].
  - apply (fmi_index _ Hinv).
  - eexists. split; [done|]. simpl. split; [done|]. split; [done|].
    split; [done|]. split; simpl.
    + intros g [->%elem_of_singleton|Hg]%elem_of_union; [done|].
      by apply (fmi_typed _ Hinv).
    + unfold factmap_indexes. simpl. rewrite Hkeys. apply (fmi_paths _ Hinv).
    + done.
Qed.

Lemma factmap_remove_inv m f b :
  factmap_inv m → f ∈ fm_allfacts m →
  ∃ m', factmap_remove f b m = (m', Ok ())
        ∧ fm_allfacts m' = fm_allfacts m ∖ {[f]}
        ∧ fm_ptype m' = fm_ptype m
        ∧ factmap_indexes m' = factmap_indexes m
        ∧ factmap_inv m'.
Proof.
  intros Hinv Hf. unfold factmap_remove.
  rewrite bool_decide_true by done. rewrite andb_false_r.
  destruct (each_index_ok (findex_remove f b)
              (λ pi, fi_fpspec pi.2 = pi.1 ∧ path_pred pi.1 = fm_ptype m
                     ∧ index_inv (fm_allfacts m) pi.2)
              (λ pi, fi_fpspec pi.2 = pi.1 ∧ path_pred pi.1 = fm_ptype m
                     ∧ index_inv (fm_allfacts m ∖ {[f]}) pi.2)
              (fm_findexes m)) as (d' & -> & Hkeys & Hd').
  - intros p ix (Hp & Hpred & Hix). simpl in *.
    destruct (findex_remove_inv _ ix f b Hix) as (ix' & -> & Hp' & Hix');
      [rewrite (fmi_typed _ Hinv f Hf); congruence|done|].
    exists ix'. split; [done|]. simpl. split; [congruence|done].
  - apply (fmi_index _ Hinv).
  - eexists. split; [done|]. simpl. split; [done|]. split; [done|].
    split; [done|]. split; simpl.
    + intros g [Hg _]%elem_of_difference. by apply (fmi_typed _ Hinv).
    + unfold factmap_indexes. simpl. rewrite Hkeys. apply (fmi_paths _ Hinv).
    + done.
Qed.



Lemma factmap_clear_inv m : factmap_inv m → factmap_inv (factmap_clear m).
Proof.
  intros Hinv. split; simpl.
  - set_solver.
  - unfold factmap_indexes. simpl. rewrite <-list_fmap_compose.
    apply (fmi_paths _ Hinv).
  - apply Forall_fmap. eapply Forall_impl; [apply (fmi_index _ Hinv)|].
    intros [p ix] (Hp & Hpred & _). simpl in *.
    split; [done|]. split; [done|]. apply index_inv_clear.
Qed.


(** *** What [find] returns *)

(** The three selections that test [if posn] before they slice from [posn]
    on return no key when [posn] is 0, that is, when every key is on the
    side asked for. *)
Definition find_misses (ix : FactIndex) (op : compop) (key : K) : bool :=
  match op with
  | OpNe | OpGt => bool_decide (bisect_right (fi_keylist ix) key = 0)
  | OpGe => bool_decide (bisect_left (fi_keylist ix) key = 0)
  | OpEq | OpLt | OpLe => false
  end.

(** The keys [find] looks up. *)
Definition find_keys (ix : FactIndex) (op : compop) (key : K) : list K :=
  match op with
  | OpEq => keys_eq ix key
  | OpNe => keys_ne ix key
  | OpLt => keys_lt ix key
  | OpLe => keys_le ix key
  | OpGt => keys_gt ix key
  | OpGe => keys_ge ix key
  end.

Lemma klt_le_iff k v :
  negb (klt v k) = true ↔ klt k v || bool_decide (k = v) = true.
Proof.
  rewrite negb_true_iff, orb_true_iff, bool_decide_eq_true. split.
  - intros Hvk. destruct (klt k v) eqn:Hkv; [by left|right].
    by apply klt_total.
  - intros [Hkv| ->]; [by apply klt_asym|apply klt_irrefl].
Qed.

Lemma klt_ge_iff k v :
  klt k v = false ↔ klt v k || bool_decide (k = v) = true.
Proof.
  rewrite orb_true_iff, bool_decide_eq_true. split.
  - intros Hkv. destruct (klt v k) eqn:Hvk; [by left|right].
    by apply klt_total.
  - intros [Hvk| ->]; [by apply klt_asym|apply klt_irrefl].
Qed.

Lemma klt_ne_iff k v :
  klt k v = true ∨ klt v k = true ↔ negb (bool_decide (k = v)) = true.
Proof.
  rewrite negb_true_iff, bool_decide_eq_false. split.
  - intros [Hlt|Hlt] ->; by rewrite klt_irrefl in Hlt.
  - intros Hne. destruct (klt k v) eqn:Hkv; [by left|right].
    destruct (klt v k) eqn:Hvk; [done|]. destruct Hne. by apply klt_total.
Qed.

Lemma guarded_take_elem_of n (l : list K) k :
  k ∈ (if decide (n = 0) then [] else take n l) ↔ k ∈ take n l.
Proof. destruct (decide (n = 0)) as [->|]; [by rewrite take_0|done]. Qed.

Lemma guarded_drop_elem_of n (l : list K) k :
  k ∈ (if decide (n = 0) then [] else drop n l) ↔ n ≠ 0 ∧ k ∈ drop n l.
Proof.
  destruct (decide (n = 0)) as [->|]; [|naive_solver].
  split; [by intros ?%elem_of_nil|by intros []].
Qed.

Lemma find_keys_spec fs ix op v k :
  index_inv fs ix →
  k ∈ find_keys ix op v ↔
    find_misses ix op v = false ∧ k ∈ fi_keylist ix ∧ apply_op op k v = true.
Proof.
  intros Hinv. pose proof (ii_sorted _ _ Hinv) as Hs.
  pose proof (ksorted_prefix_lt _ v Hs) as HpL.
  pose proof (ksorted_prefix_le _ v Hs) as HpR.
  pose proof (bisect_left_lead _ v Hs) as HL.
  pose proof (bisect_right_lead _ v Hs) as HR.
  destruct op; simpl.
  - unfold keys_eq. rewrite bool_decide_eq_true.
    destruct (decide (is_Some _)) as [Hk|Hk].
    + rewrite list_elem_of_singleton. split.
      * intros ->. split; [done|]. split; [|done]. by apply (ii_keys _ _ Hinv).
      * naive_solver.
    + split; [by intros ?%elem_of_nil|]. intros (_ & Hin & ->).
      destruct Hk. by apply (ii_keys _ _ Hinv).
  - unfold keys_ne. rewrite elem_of_app, guarded_take_elem_of, guarded_drop_elem_of.
    rewrite bool_decide_eq_false, <-klt_ne_iff, HL, HR.
    rewrite (elem_of_take_lead _ _ k HpL), (elem_of_drop_lead _ _ k HpR).
    rewrite negb_false_iff. split.
    + intros [[Hin Hkv]|(Hn & Hin & Hvk)]; [|tauto].
      split; [|tauto]. intros Hz.
      assert (k ∈ take (lead (λ k0, negb (klt v k0)) (fi_keylist ix)) (fi_keylist ix)) as Ht.
      { apply (elem_of_take_lead _ _ k HpR). split; [done|].
        by rewrite (klt_asym k v Hkv). }
      rewrite Hz, take_0 in Ht. by apply elem_of_nil in Ht.
    + tauto.
  - unfold keys_lt. rewrite guarded_take_elem_of, HL.
    rewrite (elem_of_take_lead _ _ k HpL). tauto.
  - unfold keys_le. rewrite guarded_take_elem_of, HR.
    rewrite (elem_of_take_lead _ _ k HpR), klt_le_iff. tauto.
  - unfold keys_gt. rewrite guarded_drop_elem_of, HR, bool_decide_eq_false.
    rewrite (elem_of_drop_lead _ _ k HpR), negb_false_iff. tauto.
  - unfold keys_ge. rewrite guarded_drop_elem_of, HL, bool_decide_eq_false.
    rewrite (elem_of_drop_lead _ _ k HpL), klt_ge_iff. tauto.
Qed.

Lemma rmapM_lookup_union (m : gmap K (gset fact)) ks :
  (∀ k, k ∈ ks → is_Some (m !! k)) →
  ∃ sets, rmapM (λ k, match m !! k with
                      | Some vs => Ok vs
                      | None => Raise KeyError
                      end) ks = Ok sets
          ∧ ∀ f, f ∈ ⋃ sets ↔ ∃ k vs, k ∈ ks ∧ m !! k = Some vs ∧ f ∈ vs.
Proof.
  induction ks as [|k ks IH]; intros Hks; simpl.
  - exists []. split; [done|]. intros f. simpl. split; [set_solver|].
    by intros (? & ? & ?%elem_of_nil & _).
  - destruct (Hks k) as [vs Hvs]; [by left|]. rewrite Hvs. simpl.
    destruct IH as (sets & -> & Hsets); [intros; apply Hks; by right|]. simpl.
    exists (vs :: sets). split; [done|]. intros f.
    rewrite union_list_cons, elem_of_union, Hsets. split.
    + intros [Hf|(k' & vs' & Hk' & Hvs' & Hf)].
      * exists k, vs. split; [by left|done].
      * exists k', vs'. split; [by right|done].
    + intros (k' & vs' & [->|Hk']%elem_of_cons & Hvs' & Hf).
      * left. by simplify_eq.
      * right. by exists k', vs'.
Qed.

(** [find] on an index in lock-step with [fs]: the facts of [fs] whose key
    passes the comparison, unless the selection misses, and then none. *)
Lemma findex_find_spec fs ix op v :
  index_inv fs ix →
  ∃ found, findex_find ix op v = Ok found
    ∧ ∀ f, f ∈ found ↔
        find_misses ix op v = false ∧ f ∈ fs
        ∧ apply_op op (path_get (fi_fpspec ix) f) v = true.
Proof.
  intros Hinv. unfold findex_find. fold (find_keys ix op v).
  destruct (rmapM_lookup_union (fi_key2values ix) (find_keys ix op v))
    as (sets & -> & Hsets).
  { intros k (_ & Hk & _)%(find_keys_spec fs ix op v k Hinv).
    by apply (ii_keys _ _ Hinv). }
  simpl. eexists. split; [done|]. intros f. rewrite Hsets. split.
  - intros (k & vs & (Hm & Hk & Hop)%(find_keys_spec fs ix op v k Hinv) & Hvs & Hf).
    apply (index_inv_bucket fs ix k vs f Hinv Hvs) in Hf as [Hf ->]. done.
  - intros (Hm & Hf & Hop).
    destruct (index_inv_lookup fs ix f Hinv Hf) as (vs & Hvs & Hfvs).
    exists (path_get (fi_fpspec ix) f), vs. split; [|done].
    apply (find_keys_spec fs ix op v _ Hinv). split; [done|]. split; [|done].
    apply (ii_keys _ _ Hinv). eauto.
Qed.

(** *** The priorities of the indexes and the primary search *)

(** Induction on a condition with the hypothesis for every argument of a
    boolean node. *)
Lemma Comparator_ind' (P : Comparator → Prop) :
  (∀ v, P (StaticComparator v)) →
  (∀ op arg1 arg2, P (FieldQueryComparator op arg1 arg2)) →
  (∀ bop args, Forall P args → P (BoolComparator bop args)) →
  ∀ c, P c.
Proof.
  intros Hs Hf Hb. fix IH 1. intros [v|op arg1 arg2|bop args].
  - apply Hs.
  - apply Hf.
  - apply Hb. induction args as [|a args IHargs]; constructor.
    + apply IH.
    + apply IHargs.
Qed.

Lemma index_priority_fold (l : list path) (n : nat) (d : gmap path nat) p :
  NoDup l →
  foldl (λ (d : gmap path nat) pf, <[pf.2 := pf.1]> d) d
        (imap (λ i f, (n + i, f)) l) !! p
  = match list_find (λ q, q = p) l with
    | Some (i, _) => Some (n + i)
    | None => d !! p
    end.
Proof.
  revert n d. induction l as [|q l IH]; intros n d Hnd; [done|].
  apply NoDup_cons in Hnd as [Hq Hnd].
  rewrite imap_cons. cbn [foldl list_find]. simpl.
  rewrite (imap_ext _ (λ i f, (S n + i, f))) by (intros; simpl; f_equal; lia).
  rewrite IH by done. destruct (decide (q = p)) as [->|Hne].
  - destruct (list_find _ l) as [[i x]|] eqn:Hfind.
    + apply list_find_Some in Hfind as (Hi & -> & _).
      destruct Hq. by eapply list_elem_of_lookup_2.
    + simpl. by rewrite lookup_insert_eq.
  - destruct (list_find _ l) as [[i x]|]; simpl.
    + f_equal. lia.
    + by rewrite lookup_insert_ne.
Qed.

(** The priority of a path is its position among the indexes. *)
Lemma index_priority_lookup (l : list path) p i :
  NoDup l → index_priority l !! p = Some i ↔ l !! i = Some p.
Proof.
  intros Hnd. unfold index_priority.
  rewrite (index_priority_fold l 0 ∅ p Hnd). simpl.
  destruct (list_find _ l) as [[j x]|] eqn:Hfind.
  - apply list_find_Some in Hfind as (Hj & -> & _). split.
    + by intros [= <-].
    + intros Hi. f_equal. by eapply NoDup_lookup.
  - rewrite lookup_empty. split; [done|]. intros Hi.
    eapply list_find_None in Hfind. rewrite Forall_forall in Hfind.
    destruct (Hfind p); [by eapply list_elem_of_lookup_2|done].
Qed.

Lemma index_priority_is_Some (l : list path) p :
  NoDup l → is_Some (index_priority l !! p) ↔ p ∈ l.
Proof.
  intros Hnd. rewrite list_elem_of_lookup. split.
  - intros [i Hi]. exists i. by apply index_priority_lookup.
  - intros [i Hi]. exists i. by apply index_priority_lookup.
Qed.

(** What the primary search returns has passed [validate_indexable]: its
    path has a priority. *)
Lemma primary_search_valid prio c p op a :
  primary_search prio c = Ok (Some (p, op, a)) → is_Some (prio !! p).
Proof.
  revert p op a. induction c as [v|cop arg1 arg2|bop args IH] using Comparator_ind';
    intros p op a; simpl.
  - done.
  - intros [= Hv]. unfold validate_indexable in Hv.
    destruct (fqc_indexable _ _ _) as [i|]; [|done].
    destruct (decide (is_Some (prio !! i.1.1))); by simplify_eq.
  - destruct bop; [done| |done].
    assert (∀ acc, (∀ p op a, acc = Some (p, op, a) → is_Some (prio !! p)) →
      ∀ p op a,
      (fix loop (l : list Comparator) (indexable : option (path * compop * value_arg))
         : result (option (path * compop * value_arg)) :=
         match l with
         | [] => Ok indexable
         | arg :: r =>
             tmp ← primary_search prio arg;
             match tmp, indexable with
             | None, _ => loop r indexable
             | Some t, None => loop r (Some t)
             | Some t, Some i =>
                 pt ← priority_of prio t.1.1;
                 pi ← priority_of prio i.1.1;
                 if decide (pt < pi) then loop r (Some t) else loop r indexable
             end
         end) args acc = Ok (Some (p, op, a)) → is_Some (prio !! p)) as Hloop.
    { induction IH as [|arg args Harg Hargs IHargs]; intros acc Hacc p' op' a'.
      - intros [= ->]. by eapply Hacc.
      - destruct (primary_search prio arg) as [[[[tp top] ta]|]|e] eqn:Htmp; simpl; [| |done].
        + pose proof (Harg tp top ta eq_refl) as Htp.
          destruct acc as [[[ip iop] ia]|].
          * simpl. destruct (priority_of prio tp); simpl; [|done].
            destruct (priority_of prio ip); simpl; [|done].
            destruct (decide (_ < _)); apply IHargs; try done.
            intros ??? [= -> -> ->]. done.
          * apply IHargs. intros ??? [= -> -> ->]. done.
        + by apply IHargs. }
    apply Hloop. done.
Qed.

(** *** Selection and deletion *)

Lemma index_inv_keylist fs ix k :
  index_inv fs ix →
  k ∈ fi_keylist ix ↔ ∃ f, f ∈ fs ∧ path_get (fi_fpspec ix) f = k.
Proof.
  intros Hinv. rewrite (ii_keys _ _ Hinv). split.
  - intros [vs Hvs]. destruct (ii_bucket _ _ Hinv k vs Hvs) as [Hne _].
    apply set_choose_L in Hne as [f Hf]. exists f.
    by apply (index_inv_bucket fs ix k vs f Hinv Hvs).
  - intros (f & Hf & <-).
    destruct (index_inv_lookup fs ix f Hinv Hf) as (vs & Hvs & _). eauto.
Qed.

Lemma lead_pos_iff P l :
  prefix_test P l → lead P l ≠ 0 ↔ ∃ k, k ∈ l ∧ P k = true.
Proof.
  intros Hp. split.
  - destruct l as [|a l]; simpl; [done|]. destruct (P a) eqn:Ha; [|done].
    intros _. exists a. split; [by left|done].
  - intros (k & Hk & HP) Hz.
    assert (k ∈ take (lead P l) l) as Ht by (by apply elem_of_take_lead).
    rewrite Hz, take_0 in Ht. by apply elem_of_nil in Ht.
Qed.

(** A selection that does not miss on the smaller of two fact sets does not
    miss on the larger. *)
Lemma find_misses_mono fs fs' ix ix' op v :
  index_inv fs ix → index_inv fs' ix' → fi_fpspec ix' = fi_fpspec ix →
  fs' ⊆ fs →
  find_misses ix' op v = false → find_misses ix op v = false.
Proof.
  intros Hinv Hinv' Hp Hsub.
  assert (∀ P, (∃ k, k ∈ fi_keylist ix' ∧ P k = true) →
               ∃ k, k ∈ fi_keylist ix ∧ P k = true) as Hkeys.
  { intros P (k & Hk & HP). exists k. split; [|done].
    apply (index_inv_keylist fs' ix' k Hinv') in Hk as (f & Hf & Hfk).
    apply (index_inv_keylist fs ix k Hinv). exists f. split; [set_solver|].
    by rewrite <-Hp. }
  pose proof (ii_sorted _ _ Hinv) as Hs. pose proof (ii_sorted _ _ Hinv') as Hs'.
  destruct op; simpl; try done; rewrite !bool_decide_eq_false.
  - rewrite !bisect_right_lead by done.
    rewrite !lead_pos_iff by (by apply ksorted_prefix_le). apply Hkeys.
  - rewrite !bisect_right_lead by done.
    rewrite !lead_pos_iff by (by apply ksorted_prefix_le). apply Hkeys.
  - rewrite !bisect_left_lead by done.
    rewrite !lead_pos_iff by (by apply ksorted_prefix_lt). apply Hkeys.
Qed.

Lemma rfilterM_spec {A} (g : A → result bool) l l' :
  rfilterM g l = Ok l' →
  (∀ x, x ∈ l → ∃ b, g x = Ok b)
  ∧ (∀ x, x ∈ l' ↔ x ∈ l ∧ g x = Ok true)
  ∧ (NoDup l → NoDup l').
Proof.
  revert l'. induction l as [|a l IH]; intros l'; simpl.
  - intros [= <-]. split; [by intros ? ?%elem_of_nil|].
    split; [|done]. intros x. split; [by intros ?%elem_of_nil|by intros [?%elem_of_nil _]].
  - destruct (g a) as [b|e] eqn:Ha; simpl; [|done].
    destruct (rfilterM g l) as [ys|e] eqn:Hl; simpl; [|done].
    intros [= <-]. destruct (IH ys eq_refl) as (IH1 & IH2 & IH3).
    split; [|split].
    + intros x [->|Hx]%elem_of_cons; [eauto|by apply IH1].
    + intros x. destruct b.
      * rewrite !elem_of_cons, IH2. split.
        -- intros [->|[? ?]]; [by split; [left|]|by split; [right|]].
        -- intros [[->|?] ?]; [by left|by right].
      * rewrite elem_of_cons, IH2. split.
        -- intros [? ?]. by split; [right|].
        -- intros [[->|?] ?]; [congruence|done].
    + intros [Ha' Hnd]%NoDup_cons. destruct b; [|by apply IH3].
      apply NoDup_cons. split; [|by apply IH3]. rewrite IH2. tauto.
Qed.

Lemma rfilterM_all_false {A} (g : A → result bool) l :
  (∀ x, x ∈ l → g x = Ok false) → rfilterM g l = Ok [].
Proof.
  induction l as [|a l IH]; intros Hl; simpl; [done|].
  rewrite (Hl a) by (by left). simpl. rewrite IH; [done|].
  intros x Hx. apply Hl. by right.
Qed.

Lemma odict_get_Some {V} p (d : list (path * V)) :
  p ∈ fst <$> d → ∃ v, odict_get p d = Some v ∧ (p, v) ∈ d.
Proof.
  induction d as [|[q w] d IH]; cbn [odict_get].
  - by intros ?%elem_of_nil.
  - rewrite fmap_cons. cbn [fst]. destruct (decide (p = q)) as [->|Hne].
    + intros _. exists w. split; [done|by left].
    + intros [?|Hin]%elem_of_cons; [done|].
      destruct (IH Hin) as (v & Hv & Hpv). exists v. split; [done|by right].
Qed.

(** An index the fact map has is found under its path, in lock-step. *)
Lemma factmap_get_factindex_inv m p :
  factmap_inv m → p ∈ factmap_indexes m →
  ∃ ix, factmap_get_factindex m p = Ok ix ∧ fi_fpspec ix = p
        ∧ index_inv (fm_allfacts m) ix.
Proof.
  intros Hinv Hp. unfold factmap_get_factindex.
  destruct (odict_get_Some p (fm_findexes m) Hp) as (ix & Hget & Hin).
  destruct (fm_findexes m) as [|pi d] eqn:Hd; [by apply elem_of_nil in Hin|].
  rewrite Hget.
  exists ix. split; [done|]. pose proof (fmi_index _ Hinv) as Hall. rewrite Hd in Hall.
  rewrite Forall_forall in Hall. by destruct (Hall _ Hin) as (? & _ & ?).
Qed.

(** The strict removal of distinct facts of the map, one after the other. *)
Lemma remove_each_inv l m :
  factmap_inv m → NoDup l → (∀ f, f ∈ l → f ∈ fm_allfacts m) →
  ∃ m', remove_each l m = (m', Ok ())
        ∧ fm_allfacts m' = fm_allfacts m ∖ list_to_set l
        ∧ fm_ptype m' = fm_ptype m
        ∧ factmap_indexes m' = factmap_indexes m
        ∧ factmap_inv m'.
Proof.
  revert m. induction l as [|f l IH]; intros m Hinv Hnd Hl; simpl.
  - exists m. split; [done|]. split; [set_solver|done].
  - apply NoDup_cons in Hnd as [Hf Hnd].
    destruct (factmap_remove_inv m f true Hinv) as (m1 & -> & Hfacts1 & Hpt1 & Hix1 & Hinv1);
      [apply Hl; by left|].
    destruct (IH m1 Hinv1 Hnd) as (m' & -> & Hfacts' & Hpt' & Hix' & Hinv').
    { intros g Hg. rewrite Hfacts1. apply elem_of_difference. split.
      - apply Hl. by right.
      - intros ->%elem_of_singleton. done. }
    exists m'. split; [done|]. split; [|split; [congruence|split; [congruence|done]]].
    rewrite Hfacts', Hfacts1. set_solver.
Qed.

(** The facts [get] tests against the condition: all of them, or those the
    index finds. *)
Definition select_candidates (s : Select) (m : FactMap) (args : list K)
    (nkwargs : gmap string K) : result (gset fact) :=
  match sel_indexable s with
  | None => Ok (fm_allfacts m)
  | Some (fp, op, a) =>
      findex ← factmap_get_factindex m fp;
      value ← get_value args nkwargs a;
      findex_find findex op value
  end.

Lemma select_get_unfold s m args kwargs w :
  sel_where s = Some w → sel_key s = None →
  select_get s m args kwargs
  = (nk ← resolve_arguments s args kwargs;
     c ← select_candidates s m args nk;
     rfilterM (λ f, comparator_call w f args nk) (elements c)).
Proof.
  intros Hw Hk. unfold select_get, select_candidates. rewrite Hw, Hk.
  destruct (resolve_arguments s args kwargs) as [nk|e]; simpl; [|done].
  destruct (sel_indexable s) as [[[fp op] a]|]; simpl.
  - destruct (factmap_get_factindex m fp) as [ix|e]; simpl; [|done].
    destruct (get_value args nk a) as [v|e]; simpl; [|done].
    destruct (findex_find ix op v) as [c|e]; simpl; [|done].
    by destruct (rfilterM _ _).
  - by destruct (rfilterM _ _).
Qed.

Lemma select_where_facts exprs m s :
  select_where exprs (select_init m) = Ok s →
  ∃ w, sel_where s = Some w ∧ sel_key s = None
       ∧ sel_index_priority s = index_priority (factmap_indexes m)
       ∧ primary_search (index_priority (factmap_indexes m)) w = Ok (sel_indexable s).
Proof.
  unfold select_where, select_init. simpl.
  set (cond := match exprs with [] => _ | _ => _ end).
  destruct cond as [w|e]; simpl; [|done].
  destruct (primary_search _ w) as [i|e] eqn:Hps; simpl; [|done].
  intros [= <-]. by exists w.
Qed.

Lemma select_candidates_mono s m m' args nk c :
  factmap_inv m → factmap_inv m' →
  factmap_indexes m' = factmap_indexes m →
  fm_allfacts m' ⊆ fm_allfacts m →
  (∀ p op a, sel_indexable s = Some (p, op, a) → p ∈ factmap_indexes m) →
  select_candidates s m args nk = Ok c →
  c ⊆ fm_allfacts m
  ∧ ∃ c', select_candidates s m' args nk = Ok c'
          ∧ c' ⊆ c ∧ c' ⊆ fm_allfacts m'.
Proof.
  intros Hinv Hinv' Hix Hsub Hvalid. unfold select_candidates.
  destruct (sel_indexable s) as [[[fp op] a]|] eqn:Hi.
  - pose proof (Hvalid fp op a eq_refl) as Hfp.
    destruct (factmap_get_factindex_inv m fp Hinv Hfp) as (ix & -> & Hp & Hixinv).
    destruct (factmap_get_factindex_inv m' fp Hinv') as (ix' & -> & Hp' & Hixinv');
      [by rewrite Hix|]. simpl.
    destruct (get_value args nk a) as [v|e]; simpl; [|done].
    destruct (findex_find_spec _ ix op v Hixinv) as (found & -> & Hfound).
    destruct (findex_find_spec _ ix' op v Hixinv') as (found' & -> & Hfound').
    intros [= <-]. split.
    + intros f Hf. by apply Hfound in Hf as (_ & ? & _).
    + exists found'. split; [done|]. split.
      * intros f (Hm & Hf & Hop)%Hfound'. apply Hfound. split_and!.
        -- eapply (find_misses_mono _ _ ix ix'); [done..|congruence|done|done].
        -- by apply Hsub.
        -- by rewrite Hp, <-Hp'.
      * intros f Hf. by apply Hfound' in Hf as (_ & ? & _).
  - intros [= <-]. split; [done|]. exists (fm_allfacts m'). done.
Qed.

(** C4: a delete statement with a [where] clause, executed with given
    arguments, removes from the fact map the facts that the select
    statement with the same clause returns for these arguments (each of them
    once, each of them a fact of the map) and no other, returns their
    number, and leaves a fact map on which the same select returns the empty
    list; when the select raises, so does the delete, and the fact map is
    as before. *)
Theorem delete_removes_what_select_gets (m : FactMap) (exprs : list Comparator)
    (d : Delete) (args : list K) (kwargs : gmap string K) :
  factmap_inv m →
  delete_where exprs (delete_init m) = Ok d →
  select_where exprs (select_init m) = Ok (del_select d)
  ∧ match select_get (del_select d) m args kwargs with
    | Ok found =>
        ∃ m', delete_execute d m args kwargs = (m', Ok (length found))
              ∧ NoDup found
              ∧ (∀ f, f ∈ found → f ∈ fm_allfacts m)
              ∧ fm_allfacts m' = fm_allfacts m ∖ list_to_set found
              ∧ size (fm_allfacts m') + length found = size (fm_allfacts m)
              ∧ factmap_inv m'
              ∧ select_get (del_select d) m' args kwargs = Ok []
    | Raise e => delete_execute d m args kwargs = (m, Raise e)
    end.
Proof.
  intros Hinv Hd. unfold delete_where, delete_init in Hd. simpl in Hd.
  destruct (select_where exprs (select_init m)) as [s|e] eqn:Hs; simpl in Hd; [|done].
  injection Hd as <-. simpl. split; [done|].
  destruct (select_where_facts exprs m s Hs) as (w & Hw & Hk & Hprio & Hps).
  assert (∀ p op a, sel_indexable s = Some (p, op, a) → p ∈ factmap_indexes m)
    as Hvalid.
  { intros p op a Hi. rewrite Hi in Hps.
    apply primary_search_valid in Hps.
    by apply index_priority_is_Some in Hps; [|apply (fmi_paths _ Hinv)]. }
  unfold delete_execute. simpl. unfold select_has_where. rewrite Hw.
  rewrite bool_decide_true by eauto.
  destruct (select_get s m args kwargs) as [found|e] eqn:Hget; [|done].
  rewrite (select_get_unfold s m args kwargs w Hw Hk) in Hget.
  destruct (resolve_arguments s args kwargs) as [nk|e] eqn:Hnk; simpl in Hget; [|done].
  destruct (select_candidates s m args nk) as [c|e] eqn:Hc; simpl in Hget; [|done].
  destruct (rfilterM_spec _ _ _ Hget) as (Hall & Hfound & Hnd).
  specialize (Hnd (NoDup_elements c)).
  destruct (select_candidates_mono s m m args nk c Hinv Hinv eq_refl ltac:(done) Hvalid Hc)
    as [Hcsub _].
  assert (∀ f, f ∈ found → f ∈ fm_allfacts m) as Hfsub.
  { intros f [Hf _]%Hfound. apply Hcsub. by apply elem_of_elements. }
  destruct (remove_each_inv found m Hinv Hnd Hfsub)
    as (m' & -> & Hfacts' & Hpt' & Hix' & Hinv').
  exists m'. split_and!; try done.
  - assert ((list_to_set found : gset fact) ⊆ fm_allfacts m) as Hsub.
    { intros f Hf%elem_of_list_to_set. by apply Hfsub. }
    rewrite Hfacts', size_difference by done.
    pose proof (subseteq_size _ _ Hsub) as Hsize.
    rewrite size_list_to_set in * by done. lia.
  - rewrite (select_get_unfold s m' args kwargs w Hw Hk), Hnk. simpl.
    destruct (select_candidates_mono s m m' args nk c Hinv Hinv' Hix') as (_ & c' & -> & Hc' & Hc'sub);
      [rewrite Hfacts'; set_solver|done..|].
    simpl. apply rfilterM_all_false. intros x Hx%elem_of_elements.
    destruct (Hall x) as [b Hb]; [by apply elem_of_elements, Hc'|].
    destruct b; [|done].
    assert (x ∈ found) as Hxf by (apply Hfound; split; [by apply elem_of_elements, Hc'|done]).
    apply Hc'sub in Hx. rewrite Hfacts' in Hx.
    apply elem_of_difference in Hx as [_ Hx]. destruct Hx.
    by apply elem_of_list_to_set.
Qed.

(** *** The primary search picks the index declared first *)

(** The leaves of a conjunction that an index could serve: the indexable
    comparisons reached through [and_] nodes only, in the order of the
    arguments. *)
Fixpoint and_leaves (c : Comparator) : list (path * compop * value_arg) :=
  match c with
  | FieldQueryComparator op arg1 arg2 =>
      match fqc_indexable op arg1 arg2 with Some i => [i] | None => [] end
  | BoolComparator OpAnd args => concat (map and_leaves args)
  | _ => []
  end.

(** Those of them whose path has an index. *)
Definition indexed_leaves (prio : gmap path nat) (c : Comparator)
  : list (path * compop * value_arg) :=
  filter (λ i, is_Some (prio !! i.1.1)) (and_leaves c).

(** The first of a list of leaves among those of least priority number. *)
Definition leaf_priority (prio : gmap path nat) (i : path * compop * value_arg) : nat :=
  default 0 (prio !! i.1.1).

Definition choose_leaf (prio : gmap path nat)
    (acc : option (path * compop * value_arg)) (t : path * compop * value_arg)
  : option (path * compop * value_arg) :=
  match acc with
  | None => Some t
  | Some i => if decide (leaf_priority prio t < leaf_priority prio i) then Some t else Some i
  end.

Definition first_least (prio : gmap path nat) (l : list (path * compop * value_arg))
  : option (path * compop * value_arg) :=
  foldl (choose_leaf prio) None l.

(** The update of [indexable] by [tmp] in the loop of [_primary_search]. *)
Definition merge_leaf (prio : gmap path nat)
    (acc tmp : option (path * compop * value_arg))
  : option (path * compop * value_arg) :=
  match tmp with
  | None => acc
  | Some t => choose_leaf prio acc t
  end.

Lemma merge_leaf_assoc prio acc x b :
  merge_leaf prio (choose_leaf prio acc x) b
  = merge_leaf prio acc (merge_leaf prio (Some x) b).
Proof.
  destruct b as [b|]; simpl; [|done].
  destruct acc as [i|]; simpl.
  - repeat case_decide; simpl; repeat case_decide; try done; lia.
  - by case_decide.
Qed.

Lemma foldl_choose_merge prio acc l :
  foldl (choose_leaf prio) acc l = merge_leaf prio acc (first_least prio l).
Proof.
  unfold first_least. revert acc. induction l as [|x l IH]; intros acc; simpl; [done|].
  rewrite IH, (IH (Some x)). apply merge_leaf_assoc.
Qed.

Lemma first_least_app prio l r :
  first_least prio (l ++ r) = merge_leaf prio (first_least prio l) (first_least prio r).
Proof. unfold first_least at 1. rewrite foldl_app. apply foldl_choose_merge. Qed.

Lemma first_least_spec prio l :
  match first_least prio l with
  | None => l = []
  | Some i =>
      ∃ l1 l2, l = l1 ++ i :: l2
        ∧ (∀ j, j ∈ l1 → leaf_priority prio i < leaf_priority prio j)
        ∧ (∀ j, j ∈ l2 → leaf_priority prio i ≤ leaf_priority prio j)
  end.
Proof.
  induction l as [|x l IH] using rev_ind; [done|].
  unfold first_least in *. rewrite foldl_app. simpl.
  destruct (foldl (choose_leaf prio) None l) as [i|]; simpl.
  - destruct IH as (l1 & l2 & -> & Hbefore & Hafter). case_decide as Hlt.
    + exists (l1 ++ i :: l2), []. split; [done|]. split; [|by intros ? ?%elem_of_nil].
      intros j [Hj|[->|Hj]%elem_of_cons]%elem_of_app.
      * specialize (Hbefore j Hj). lia.
      * done.
      * specialize (Hafter j Hj). lia.
    + exists l1, (l2 ++ [x]). split; [by rewrite <-app_assoc|]. split; [done|].
      intros j [Hj| ->%list_elem_of_singleton]%elem_of_app; [by apply Hafter|lia].
  - subst l. exists [], []. split; [done|]. split; by intros ? ?%elem_of_nil.
Qed.

Lemma indexed_leaves_and prio args :
  indexed_leaves prio (BoolComparator OpAnd args)
  = concat (map (indexed_leaves prio) args).
Proof.
  unfold indexed_leaves. simpl. induction args as [|a args IH]; simpl; [done|].
  by rewrite filter_app, IH.
Qed.

(** [_primary_search] returns the first indexed leaf of least priority
    number, and never raises. *)
Lemma primary_search_first_least prio c :
  primary_search prio c = Ok (first_least prio (indexed_leaves prio c)).
Proof.
  induction c as [v|cop arg1 arg2|bop args IH] using Comparator_ind'.
  - done.
  - simpl. unfold indexed_leaves, validate_indexable. simpl.
    destruct (fqc_indexable cop arg1 arg2) as [i|]; [|done].
    rewrite filter_cons. by destruct (decide (is_Some (prio !! i.1.1))).
  - destruct bop; [done| |done]. rewrite indexed_leaves_and. cbn [primary_search].
    assert (∀ acc, (∀ i, acc = Some i → is_Some (prio !! i.1.1)) →
      (fix loop (l : list Comparator) (indexable : option (path * compop * value_arg))
         : result (option (path * compop * value_arg)) :=
         match l with
         | [] => Ok indexable
         | arg :: r =>
             tmp ← primary_search prio arg;
             match tmp, indexable with
             | None, _ => loop r indexable
             | Some t, None => loop r (Some t)
             | Some t, Some i =>
                 pt ← priority_of prio t.1.1;
                 pi ← priority_of prio i.1.1;
                 if decide (pt < pi) then loop r (Some t) else loop r indexable
             end
         end) args acc
      = Ok (merge_leaf prio acc
              (first_least prio (concat (map (indexed_leaves prio) args))))) as Hloop.
    { induction IH as [|arg args Harg Hargs IHargs]; intros acc Hacc.
      - by destruct acc.
      - rewrite Harg. cbn [mbind result_bind map concat].
        rewrite first_least_app.
        assert (∀ t, first_least prio (indexed_leaves prio arg) = Some t →
                     is_Some (prio !! t.1.1)) as Hvalid.
        { intros t Ht. pose proof (first_least_spec prio (indexed_leaves prio arg)) as Hsp.
          rewrite Ht in Hsp. destruct Hsp as (l1 & l2 & Hl & _).
          assert (t ∈ indexed_leaves prio arg) as Hin
            by (rewrite Hl; apply elem_of_app; right; by left).
          by apply list_elem_of_filter in Hin as [? _]. }
        destruct (first_least prio (indexed_leaves prio arg)) as [t|] eqn:Ht.
        + destruct (Hvalid t eq_refl) as [pt Hpt].
          destruct acc as [i|].
          * destruct (Hacc i eq_refl) as [pi Hpi].
            unfold priority_of. rewrite Hpt, Hpi. cbn [mbind result_bind].
            rewrite IHargs, IHargs; first last.
            { intros ? [= <-]. eauto. }
            { intros ? [= <-]. eauto. }
            rewrite <-merge_leaf_assoc. simpl. unfold leaf_priority.
            rewrite Hpt, Hpi. simpl. by case_decide.
          * rewrite IHargs by (intros ? [= <-]; eauto).
            by rewrite <-merge_leaf_assoc.
        + rewrite IHargs by done.
          destruct (first_least prio (concat _)); by destruct acc. }
    rewrite Hloop by done.
    by destruct (first_least prio (concat _)).
Qed.


(** *** Ordering of the results *)

(** The comparison of two facts of the predicate of the path, where
    [_fpeval] cannot raise. *)
Definition pure_compare (o : FieldOrderBy) (a b : fact) : Z :=
  let va := path_get (fob_fp o) a in
  let vb := path_get (fob_fp o) b in
  if bool_decide (va = vb) then 0%Z
  else if fob_asc o && klt va vb then (-1)%Z
  else if negb (fob_asc o) && klt vb va then (-1)%Z
  else 1%Z.

Fixpoint pure_mycmp (field_orders : list FieldOrderBy) (a b : fact) : Z :=
  match field_orders with
  | [] => 0%Z
  | ford :: r =>
      if decide (pure_compare ford a b = 0%Z) then pure_mycmp r a b
      else pure_compare ford a b
  end.

Definition pure_lt (field_orders : list FieldOrderBy) (a b : fact) : bool :=
  bool_decide (pure_mycmp field_orders a b < 0)%Z.

(** The insertion sort of [list_sort] for a comparison that cannot raise. *)
Fixpoint isort_insert {A} (lt : A → A → bool) (x : A) (l : list A) : list A :=
  match l with
  | [] => [x]
  | y :: r => if lt y x then y :: isort_insert lt x r else x :: y :: r
  end.

Fixpoint isort {A} (lt : A → A → bool) (l : list A) : list A :=
  match l with
  | [] => []
  | x :: r => isort_insert lt x (isort lt r)
  end.

(** The facts are of the predicate of every path of the ordering. *)
Definition orders_typed (pt : ptype) (field_orders : list FieldOrderBy) : Prop :=
  ∀ o, o ∈ field_orders → path_pred (fob_fp o) = pt.

Lemma fob_compare_typed o a b :
  fact_type a = path_pred (fob_fp o) → fact_type b = path_pred (fob_fp o) →
  fob_compare o a b = Ok (pure_compare o a b).
Proof.
  intros Ha Hb. unfold fob_compare, fieldpath_eval.
  by rewrite !decide_True by done.
Qed.

Lemma mycmp_typed pt field_orders a b :
  orders_typed pt field_orders → fact_type a = pt → fact_type b = pt →
  mycmp field_orders a b = Ok (pure_mycmp field_orders a b).
Proof.
  intros Ho Ha Hb. induction field_orders as [|o r IH]; simpl; [done|].
  rewrite fob_compare_typed; [|rewrite (Ho o); [done|by left]..]. simpl.
  destruct (decide (pure_compare o a b = 0%Z)); [|done].
  apply IH. intros o' Ho'. apply Ho. by right.
Qed.

Lemma key_lt_typed pt field_orders a b :
  orders_typed pt field_orders → fact_type a = pt → fact_type b = pt →
  key_lt field_orders a b = Ok (pure_lt field_orders a b).
Proof.
  intros Ho Ha Hb. unfold key_lt. by rewrite (mycmp_typed pt).
Qed.

Lemma isort_insert_elem_of {A} (lt : A → A → bool) x l y :
  y ∈ isort_insert lt x l ↔ y = x ∨ y ∈ l.
Proof.
  induction l as [|z l IH]; simpl.
  - rewrite list_elem_of_singleton. split; [by left|]. by intros [?|?%elem_of_nil].
  - destruct (lt z x).
    + rewrite !elem_of_cons, IH. tauto.
    + rewrite !elem_of_cons. tauto.
Qed.

Lemma isort_elem_of {A} (lt : A → A → bool) l y : y ∈ isort lt l ↔ y ∈ l.
Proof.
  induction l as [|x l IH]; simpl; [done|].
  rewrite isort_insert_elem_of, elem_of_cons, IH. tauto.
Qed.

Lemma sort_insert_pure {A} (ltr : A → A → result bool) (lt : A → A → bool) x l :
  (∀ y, y ∈ l → ltr y x = Ok (lt y x)) →
  sort_insert ltr x l = Ok (isort_insert lt x l).
Proof.
  induction l as [|y l IH]; intros Hl; simpl; [done|].
  rewrite (Hl y) by (by left). simpl. destruct (lt y x); [|done].
  rewrite IH; [done|]. intros z Hz. apply Hl. by right.
Qed.

(** Where no comparison raises, [list_sort] is the insertion sort. *)
Lemma list_sort_pure {A} (ltr : A → A → result bool) (lt : A → A → bool) l :
  (∀ x y, x ∈ l → y ∈ l → ltr x y = Ok (lt x y)) →
  list_sort ltr l = Ok (isort lt l).
Proof.
  induction l as [|x l IH]; intros Hl; simpl; [done|].
  rewrite IH by (intros; apply Hl; by right). simpl.
  apply sort_insert_pure. intros y Hy%isort_elem_of.
  apply Hl; [by right|by left].
Qed.

Lemma pure_compare_cases o a b :
  (pure_compare o a b = 0 ∧ path_get (fob_fp o) a = path_get (fob_fp o) b)%Z
  ∨ (pure_compare o a b = -1 ∧ pure_compare o b a = 1
     ∧ path_get (fob_fp o) a ≠ path_get (fob_fp o) b
     ∧ (if fob_asc o then klt (path_get (fob_fp o) a) (path_get (fob_fp o) b)
        else klt (path_get (fob_fp o) b) (path_get (fob_fp o) a)) = true)%Z
  ∨ (pure_compare o a b = 1 ∧ pure_compare o b a = -1
     ∧ path_get (fob_fp o) a ≠ path_get (fob_fp o) b
     ∧ (if fob_asc o then klt (path_get (fob_fp o) b) (path_get (fob_fp o) a)
        else klt (path_get (fob_fp o) a) (path_get (fob_fp o) b)) = true)%Z.
Proof.
  unfold pure_compare.
  set (va := path_get (fob_fp o) a). set (vb := path_get (fob_fp o) b).
  destruct (decide (va = vb)) as [Heq|Hne].
  - left. by rewrite bool_decide_true.
  - right. rewrite !bool_decide_false by done.
    destruct (klt va vb) eqn:Hab.
    + pose proof (klt_asym va vb Hab) as Hba. rewrite Hba.
      destruct (fob_asc o); simpl; [left|right]; done.
    + assert (klt vb va = true) as Hba.
      { destruct (klt vb va) eqn:Hba; [done|]. destruct Hne. by apply klt_total. }
      rewrite Hba. destruct (fob_asc o); simpl; [right|left]; done.
Qed.

Lemma pure_compare_tie_l o a b c :
  pure_compare o a b = 0%Z → pure_compare o a c = pure_compare o b c.
Proof.
  intros Hab. destruct (pure_compare_cases o a b) as [[_ Heq]|[[? _]|[? _]]]; [|lia..].
  unfold pure_compare. by rewrite Heq.
Qed.

Lemma pure_compare_tie_r o a b c :
  pure_compare o a b = 0%Z → pure_compare o c a = pure_compare o c b.
Proof.
  intros Hab. destruct (pure_compare_cases o a b) as [[_ Heq]|[[? _]|[? _]]]; [|lia..].
  unfold pure_compare. by rewrite Heq.
Qed.

Lemma pure_compare_trans o a b c :
  pure_compare o a b = (-1)%Z → pure_compare o b c = (-1)%Z →
  pure_compare o a c = (-1)%Z.
Proof.
  intros Hab Hbc.
  destruct (pure_compare_cases o a b) as [[? _]|[(_ & _ & _ & Hkab)|[? _]]]; [lia| |lia].
  destruct (pure_compare_cases o b c) as [[? _]|[(_ & _ & _ & Hkbc)|[? _]]]; [lia| |lia].
  assert ((if fob_asc o then klt (path_get (fob_fp o) a) (path_get (fob_fp o) c)
           else klt (path_get (fob_fp o) c) (path_get (fob_fp o) a)) = true) as Hkac.
  { destruct (fob_asc o); eapply klt_trans; done. }
  destruct (pure_compare_cases o a c) as [[_ Heq]|[[? _]|(_ & _ & _ & Hkca)]]; [|done|].
  - rewrite Heq in Hkac. destruct (fob_asc o); by rewrite klt_irrefl in Hkac.
  - destruct (fob_asc o).
    + by rewrite (klt_asym _ _ Hkac) in Hkca.
    + by rewrite (klt_asym _ _ Hkac) in Hkca.
Qed.

Lemma pure_mycmp_antisym l a b : pure_mycmp l b a = (- pure_mycmp l a b)%Z.
Proof.
  induction l as [|o l IH]; simpl; [done|].
  destruct (pure_compare_cases o a b) as [[Hab Heq]|[(Hab & Hba & _)|(Hab & Hba & _)]].
  - assert (pure_compare o b a = 0%Z) as Hba by (unfold pure_compare in *; by rewrite Heq in *).
    by rewrite Hab, Hba, !decide_True.
  - rewrite Hab, Hba. by rewrite !decide_False by lia.
  - rewrite Hab, Hba. by rewrite !decide_False by lia.
Qed.

Lemma pure_mycmp_range l a b :
  (pure_mycmp l a b = -1 ∨ pure_mycmp l a b = 0 ∨ pure_mycmp l a b = 1)%Z.
Proof.
  induction l as [|o l IH]; simpl; [by right; left|].
  destruct (decide _); [done|].
  destruct (pure_compare_cases o a b) as [[? _]|[[? _]|[? _]]]; lia.
Qed.

Lemma pure_mycmp_tie_l l a b c :
  pure_mycmp l a b = 0%Z → pure_mycmp l a c = pure_mycmp l b c.
Proof.
  induction l as [|o l IH]; simpl; [done|].
  destruct (decide (pure_compare o a b = 0%Z)) as [Hab|]; [|done].
  intros Hl. rewrite (pure_compare_tie_l o a b c Hab).
  destruct (decide _); [by apply IH|done].
Qed.

Lemma pure_mycmp_trans l a b c :
  (pure_mycmp l a b ≤ 0 → pure_mycmp l b c ≤ 0 → pure_mycmp l a c ≤ 0)%Z.
Proof.
  induction l as [|o l IH]; simpl; [done|].
  destruct (decide (pure_compare o a b = 0%Z)) as [Hab|Hab].
  - rewrite (pure_compare_tie_l o a b c Hab).
    destruct (decide (pure_compare o b c = 0%Z)); [apply IH|done].
  - intros Hle.
    destruct (pure_compare_cases o a b) as [[? _]|[[Hx _]|[? _]]]; [lia| |lia].
    destruct (decide (pure_compare o b c = 0%Z)) as [Hbc|Hbc].
    + intros _. rewrite <-(pure_compare_tie_r o b c a Hbc), Hx.
      rewrite decide_False by lia. lia.
    + intros Hle'.
      destruct (pure_compare_cases o b c) as [[? _]|[[Hy _]|[? _]]]; [lia| |lia].
      rewrite (pure_compare_trans o a b c Hx Hy). rewrite decide_False by lia. lia.
Qed.

(** The order the sort establishes: [a] may stand before [b]. *)
Definition may_precede (field_orders : list FieldOrderBy) (a b : fact) : Prop :=
  (pure_mycmp field_orders a b ≤ 0)%Z.

Lemma isort_insert_sorted l x r :
  StronglySorted (may_precede l) r →
  StronglySorted (may_precede l) (isort_insert (pure_lt l) x r).
Proof.
  induction 1 as [|y r Hr IH Hy]; simpl.
  - repeat constructor.
  - unfold pure_lt at 1. destruct (decide (pure_mycmp l y x < 0)%Z) as [Hlt|Hge].
    + rewrite bool_decide_true by done. constructor; [done|].
      apply Forall_forall. intros z [->|Hz]%isort_insert_elem_of.
      * unfold may_precede. lia.
      * rewrite Forall_forall in Hy. by apply Hy.
    + rewrite bool_decide_false by done.
      assert (may_precede l x y) as Hxy.
      { unfold may_precede. rewrite (pure_mycmp_antisym l y x). lia. }
      constructor; [by constructor|]. constructor; [done|].
      eapply Forall_impl; [exact Hy|]. intros z Hz.
      by apply (pure_mycmp_trans l x y z).
Qed.

Lemma isort_sorted l r : StronglySorted (may_precede l) (isort (pure_lt l) r).
Proof.
  induction r as [|x r IH]; simpl; [constructor|]. by apply isort_insert_sorted.
Qed.

Lemma isort_insert_perm {A} (lt : A → A → bool) x l : isort_insert lt x l ≡ₚ x :: l.
Proof.
  induction l as [|y l IH]; simpl; [done|].
  destruct (lt y x); [|done]. rewrite IH. apply Permutation_swap.
Qed.

Lemma isort_perm {A} (lt : A → A → bool) l : isort lt l ≡ₚ l.
Proof.
  induction l as [|x l IH]; simpl; [done|]. by rewrite isort_insert_perm, IH.
Qed.

(** Stability: the facts that tie with a given fact stand in the sorted
    list in the order they had. *)
Lemma isort_insert_stable l z x r :
  filter (λ y, pure_mycmp l z y = 0%Z) (isort_insert (pure_lt l) x r)
  = filter (λ y, pure_mycmp l z y = 0%Z) (x :: r).
Proof.
  induction r as [|y r IH]; simpl; [done|].
  unfold pure_lt at 1. destruct (decide (pure_mycmp l y x < 0)%Z) as [Hlt|Hge].
  - rewrite bool_decide_true by done.
    rewrite (filter_cons _ y), IH, !(filter_cons _ x), (filter_cons _ y).
    destruct (decide (pure_mycmp l z y = 0%Z)) as [Hzy|]; [|done].
    destruct (decide (pure_mycmp l z x = 0%Z)) as [Hzx|]; [|done].
    assert (pure_mycmp l y z = 0%Z) as Hyz
      by (rewrite (pure_mycmp_antisym l z y); lia).
    rewrite (pure_mycmp_tie_l l y z x Hyz) in Hlt. lia.
  - by rewrite bool_decide_false by done.
Qed.

Lemma isort_stable l z r :
  filter (λ y, pure_mycmp l z y = 0%Z) (isort (pure_lt l) r)
  = filter (λ y, pure_mycmp l z y = 0%Z) r.
Proof.
  induction r as [|x r IH]; simpl; [done|].
  by rewrite isort_insert_stable, !filter_cons, IH.
Qed.

Lemma mycmp_first_difference pre ford rest a b v :
  (∀ o, o ∈ pre → fob_compare o a b = Ok 0%Z) →
  fob_compare ford a b = Ok v → v ≠ 0%Z →
  mycmp (pre ++ ford :: rest) a b = Ok v.
Proof.
  intros Hpre Hford Hv. induction pre as [|o pre IH]; simpl.
  - rewrite Hford. simpl. by rewrite decide_False.
  - rewrite (Hpre o) by (by left). simpl. apply IH. intros o' Ho'. apply Hpre. by right.
Qed.

Lemma mycmp_all_equal l a b :
  (∀ o, o ∈ l → fob_compare o a b = Ok 0%Z) → mycmp l a b = Ok 0%Z.
Proof.
  intros Hl. induction l as [|o l IH]; simpl; [done|].
  rewrite (Hl o) by (by left). simpl. apply IH. intros o' Ho'. apply Hl. by right.
Qed.

(** C7, as the code has it: for facts of the predicate of the ordering
    paths, [mycmp] is decided by the first field order that tells the two
    facts apart and is 0 when none does; the sort returns a permutation of
    its input in which no fact stands before one it should follow, and the
    facts that tie on all keys keep their relative order; and the sort of
    the reversed input is the sort of the input when no two different facts
    of the input tie on all keys. *)
Theorem order_by_sorts_stably (pt : ptype) (field_orders : list FieldOrderBy)
    (facts : list fact) :
  orders_typed pt field_orders →
  (∀ f, f ∈ facts → fact_type f = pt) →
  (∀ pre ford rest a b v,
     field_orders = pre ++ ford :: rest →
     (∀ o, o ∈ pre → fob_compare o a b = Ok 0%Z) →
     fob_compare ford a b = Ok v → v ≠ 0%Z →
     mycmp field_orders a b = Ok v)
  ∧ (∀ a b, (∀ o, o ∈ field_orders → fob_compare o a b = Ok 0%Z) →
            mycmp field_orders a b = Ok 0%Z)
  ∧ ∃ sorted,
      list_sort (key_lt field_orders) facts = Ok sorted
      ∧ sorted ≡ₚ facts
      ∧ (∀ i j a b, i < j → sorted !! i = Some a → sorted !! j = Some b →
                    key_lt field_orders b a = Ok false)
      ∧ (∀ z, fact_type z = pt →
              filter (λ y, mycmp field_orders z y = Ok 0%Z) sorted
              = filter (λ y, mycmp field_orders z y = Ok 0%Z) facts)
      ∧ ((∀ a b, a ∈ facts → b ∈ facts → mycmp field_orders a b = Ok 0%Z → a = b) →
         list_sort (key_lt field_orders) (reverse facts) = Ok sorted).
Proof.
  intros Ho Hf. split; [|split].
  - intros pre ford rest a b v -> Hpre Hford Hv. by apply mycmp_first_difference.
  - intros a b. apply mycmp_all_equal.
  - assert (∀ l, (∀ f, f ∈ l → fact_type f = pt) →
              list_sort (key_lt field_orders) l = Ok (isort (pure_lt field_orders) l))
      as Hsort.
    { intros l Hl. apply list_sort_pure. intros x y Hx Hy.
      apply (key_lt_typed pt); [done|by apply Hl..]. }
    exists (isort (pure_lt field_orders) facts). split_and!.
    + by apply Hsort.
    + apply isort_perm.
    + intros i j a b Hij Hi Hj.
      assert (fact_type a = pt ∧ fact_type b = pt) as [Ha Hb].
      { split; apply Hf; rewrite <-(isort_elem_of (pure_lt field_orders));
          by eapply list_elem_of_lookup_2. }
      rewrite (key_lt_typed pt) by done. f_equal. unfold pure_lt.
      apply bool_decide_eq_false.
      pose proof (isort_sorted field_orders facts) as Hs.
      assert (may_precede field_orders a b) as Hab.
      { clear -Hs Hij Hi Hj. revert i j Hij Hi Hj.
        induction Hs as [|x l Hs IH Hall]; intros i j Hij Hi Hj; [done|].
        destruct j as [|j]; [lia|]. simpl in Hj. destruct i as [|i]; simpl in Hi.
        - simplify_eq. rewrite Forall_forall in Hall. apply Hall.
          by eapply list_elem_of_lookup_2.
        - apply (IH i j); [lia|done..]. }
      unfold may_precede in Hab. rewrite (pure_mycmp_antisym field_orders a b). lia.
    + intros z Hz.
      assert (∀ l : list fact, (∀ f, f ∈ l → fact_type f = pt) →
                filter (λ y, mycmp field_orders z y = Ok 0%Z) l
                = filter (λ y, pure_mycmp field_orders z y = 0%Z) l) as Hfilter.
      { intros l Hl. induction l as [|y l IH]; [done|].
        rewrite !filter_cons, IH by (intros; apply Hl; by right).
        rewrite (mycmp_typed pt) by (try done; apply Hl; by left).
        destruct (decide (pure_mycmp field_orders z y = 0%Z)) as [Hzy|Hzy].
        - by rewrite decide_True by (by rewrite Hzy).
        - rewrite decide_False; [done|]. by intros [= ?]. }
      rewrite Hfilter by (intros f Hin%isort_elem_of; by apply Hf).
      rewrite Hfilter by done. apply isort_stable.
    + intros Hties. rewrite Hsort by (intros f Hin; apply Hf; by apply elem_of_reverse).
      f_equal.
      apply (StronglySorted_unique_strong (may_precede field_orders)).
      * intros a b Ha%isort_elem_of Hb%isort_elem_of Hab Hba.
        rewrite elem_of_reverse in Ha.
        apply Hties; [done..|]. rewrite (mycmp_typed pt) by (try done; by apply Hf).
        f_equal. unfold may_precede in *.
        rewrite (pure_mycmp_antisym field_orders a b) in Hba. lia.
      * apply isort_sorted.
      * apply isort_sorted.
      * by rewrite !isort_perm, reverse_Permutation.
Qed.

(** *** [add] of a fact of another predicate *)


(** *** Further properties of the index *)

(** The keys of an index are the values its field takes on the facts. *)
Lemma index_inv_keys fs ix k :
  index_inv fs ix →
  k ∈ fi_keylist ix ↔ ∃ g, g ∈ fs ∧ path_get (fi_fpspec ix) g = k.
Proof.
  intros Hinv. rewrite (ii_keys _ _ Hinv). split.
  - intros [vs Hvs]. destruct (ii_bucket _ _ Hinv k vs Hvs) as [Hne Hkey].
    apply set_choose_L in Hne as [g Hg]. exists g. split; [|by apply Hkey].
    apply (ii_lockstep _ _ Hinv). by exists k, vs.
  - intros (g & Hg & <-). apply (ii_lockstep _ _ Hinv) in Hg as (k' & vs & Hvs & Hgvs).
    destruct (ii_bucket _ _ Hinv k' vs Hvs) as [_ Hkey].
    rewrite (Hkey g Hgvs). by exists vs.
Qed.

Lemma findex_remove_absent fs ix f :
  index_inv fs ix → fact_type f = path_pred (fi_fpspec ix) → f ∉ fs →
  findex_remove f true ix = (ix, Raise KeyError).
Proof.
  intros Hinv Hty Hf. unfold findex_remove. rewrite decide_True by done.
  destruct (fi_key2values ix !! path_get (fi_fpspec ix) f) as [vs|] eqn:Hvs; [|done].
  rewrite bool_decide_false; [done|].
  intros Hfvs. apply Hf, (ii_lockstep _ _ Hinv). by eexists _, vs.
Qed.

(** [_FactIndex.add] of a fact of the predicate of the index returns; the
    key list stays strictly ascending and lists the values of the indexed
    field on the facts, the new one included; the fact is in the index,
    and no other fact comes in or goes out.  A fact of another predicate is
    refused with [TypeError], the index being left as it is. *)
Theorem findex_add_keeps_keys_sorted fs ix f :
  index_inv fs ix →
  (fact_type f = path_pred (fi_fpspec ix) →
   ∃ ix', findex_add f ix = (ix', Ok ())
          ∧ fi_fpspec ix' = fi_fpspec ix
          ∧ ksorted (fi_keylist ix')
          ∧ (∀ k, k ∈ fi_keylist ix'
                  ↔ k = path_get (fi_fpspec ix) f ∨ k ∈ fi_keylist ix)
          ∧ (∀ g, in_index g ix' ↔ g = f ∨ in_index g ix)
          ∧ index_inv ({[f]} ∪ fs) ix')
  ∧ (fact_type f ≠ path_pred (fi_fpspec ix) →
     findex_add f ix = (ix, Raise TypeError)).
Proof.
  intros Hinv. split.
  - intros Hty. destruct (findex_add_inv fs ix f Hinv Hty) as (ix' & Hadd & Hspec & Hinv').
    exists ix'. split; [done|]. split; [done|].
    split; [apply (ii_sorted _ _ Hinv')|]. split; [|split; [|done]].
    + intros k. rewrite (index_inv_keys _ _ k Hinv'), (index_inv_keys _ _ k Hinv), Hspec.
      split.
      * intros (g & [->%elem_of_singleton|Hg]%elem_of_union & Hk); [by left|].
        right. by exists g.
      * intros [->|(g & Hg & Hk)]; [exists f; set_solver|]. exists g. set_solver.
    + intros g. rewrite (ii_lockstep _ _ Hinv'), (ii_lockstep _ _ Hinv). set_solver.
  - intros Hty. unfold findex_add. by rewrite decide_False.
Qed.

(** [_FactIndex.remove] of a fact of the index returns, in both modes; the
    key list stays strictly ascending and loses the key of the fact when no
    other fact has it; the fact is out of the index and no other fact is.
    For a fact the index does not hold, of its predicate, the strict mode
    raises [KeyError] and the other returns, the index being left as it
    is in both. *)
Theorem findex_remove_keeps_keys_sorted fs ix f :
  index_inv fs ix →
  fact_type f = path_pred (fi_fpspec ix) →
  (f ∈ fs →
   ∀ raise_on_missing,
     ∃ ix', findex_remove f raise_on_missing ix = (ix', Ok ())
            ∧ fi_fpspec ix' = fi_fpspec ix
            ∧ ksorted (fi_keylist ix')
            ∧ (∀ k, k ∈ fi_keylist ix'
                    ↔ ∃ g, g ∈ fs ∧ g ≠ f ∧ path_get (fi_fpspec ix) g = k)
            ∧ (∀ g, in_index g ix' ↔ g ≠ f ∧ in_index g ix)
            ∧ index_inv (fs ∖ {[f]}) ix')
  ∧ (f ∉ fs →
     findex_remove f true ix = (ix, Raise KeyError)
     ∧ findex_remove f false ix = (ix, Ok ())).
Proof.
  intros Hinv Hty. split.
  - intros Hf b.
    destruct (findex_remove_inv fs ix f b Hinv Hty Hf) as (ix' & Hrm & Hspec & Hinv').
    exists ix'. split; [done|]. split; [done|].
    split; [apply (ii_sorted _ _ Hinv')|]. split; [|split; [|done]].
    + intros k. rewrite (index_inv_keys _ _ k Hinv'), Hspec. split.
      * intros (g & Hg & Hk). exists g. split; [set_solver|]. split; [set_solver|done].
      * intros (g & Hg & Hne & Hk). exists g. split; [set_solver|done].
    + intros g. rewrite (ii_lockstep _ _ Hinv'), (ii_lockstep _ _ Hinv). set_solver.
  - intros Hf. split; [by apply (findex_remove_absent fs)|].
    rewrite (findex_discard_absent fs) by done. by rewrite decide_True.
Qed.

(** [_FactIndex.find], whatever the operator and the key: the index returns
    no fact that the comparison does not hold of, and no fact it does not
    index; for [==], [<] and [<=] it returns every fact of which the
    comparison holds; for [>], [>=] and [!=] it returns them all when the
    bisection of the key list is past the first position, and none
    otherwise. *)
Theorem findex_find_is_sound fs ix op v :
  index_inv fs ix →
  ∃ found, findex_find ix op v = Ok found
    ∧ (∀ f, f ∈ found →
            f ∈ fs ∧ apply_op op (path_get (fi_fpspec ix) f) v = true)
    ∧ (find_misses ix op v = false →
       ∀ f, f ∈ fs → apply_op op (path_get (fi_fpspec ix) f) v = true → f ∈ found)
    ∧ (find_misses ix op v = true → found = ∅)
    ∧ (op ∈ [OpEq; OpLt; OpLe] → find_misses ix op v = false).
Proof.
  intros Hinv. destruct (findex_find_spec fs ix op v Hinv) as (found & Hfind & Hspec).
  exists found. split; [done|]. split_and!.
  - intros f Hf. apply Hspec in Hf. tauto.
  - intros Hmiss f Hf Hop. apply Hspec. tauto.
  - intros Hmiss. apply set_eq. intros f. rewrite Hspec, Hmiss.
    split; [by intros [? _]|by intros ?%elem_of_empty].
  - intros Hop. repeat (apply elem_of_cons in Hop as [->|Hop]; [done|]).
    by apply elem_of_nil in Hop.
Qed.

(** *** Adding a fact and removing it again *)

Lemma lead_insert P l k :
  P k = false → lead P (take (lead P l) l ++ k :: drop (lead P l) l) = lead P l.
Proof.
  intros Hk. induction l as [|a l IH]; simpl.
  - by rewrite Hk.
  - destruct (P a) eqn:Ha; simpl.
    + by rewrite Ha, IH.
    + by rewrite Hk.
Qed.

(** [del a[bisect_left(a, x)]] undoes [insort_left(a, x)] of a new key. *)
Lemma insort_left_delete l k :
  ksorted l → k ∉ l →
  bisect_left (insort_left l k) k < length (insort_left l k)
  ∧ delete (bisect_left (insort_left l k) k) (insort_left l k) = l.
Proof.
  intros Hs Hk. pose proof (insort_left_sorted l k Hs Hk) as Hs'.
  rewrite (bisect_left_lead (insort_left l k)) by done.
  unfold insort_left. rewrite (bisect_left_lead l) by done.
  rewrite lead_insert by apply klt_irrefl.
  pose proof (lead_le (λ a, klt a k) l) as Hle.
  split.
  - rewrite length_app, length_take_le by done. simpl. lia.
  - rewrite <-(length_take_le l (lead (λ a, klt a k) l)) at 1 by done.
    rewrite delete_middle. apply take_drop.
Qed.

(** [remove] undoes [add]: after a fact that the index does not hold is
    added, removing it, in either mode, gives back the index as it was, key
    list and dictionary. *)
Theorem findex_add_then_remove_restores fs ix f raise_on_missing :
  index_inv fs ix →
  fact_type f = path_pred (fi_fpspec ix) →
  f ∉ fs →
  ∃ ix', findex_add f ix = (ix', Ok ())
         ∧ findex_remove f raise_on_missing ix' = (ix, Ok ()).
Proof.
  intros Hinv Hty Hf.
  destruct (findex_add_inv fs ix f Hinv Hty) as (ix' & Hadd & Hspec & Hinv').
  exists ix'. split; [done|].
  revert Hadd. unfold findex_add. rewrite decide_True by done.
  remember (path_get (fi_fpspec ix) f) as key eqn:Hkey.
  set (m2 := alter _ key _).
  assert (∀ k, m2 !! k = if decide (key = k)
                         then Some ({[f]} ∪ default ∅ (fi_key2values ix !! key))
                         else fi_key2values ix !! k) as Hm2.
  { intros k. apply add_bucket_lookup. }
  pose proof (bisect_left_test (fi_keylist ix) key (ii_sorted _ _ Hinv)) as Htest.
  assert (f ∉ default ∅ (fi_key2values ix !! key)) as Hfvs.
  { destruct (fi_key2values ix !! key) as [vs|] eqn:Hvs; simpl; [|set_solver].
    intros Hfvs. apply Hf, (ii_lockstep _ _ Hinv). by exists key, vs. }
  assert (({[f]} ∪ default ∅ (fi_key2values ix !! key)) ∖ {[f]}
          = default ∅ (fi_key2values ix !! key)) as Hdiff by set_solver.
  intros Hadd. unfold findex_remove.
  destruct (decide (_ ∧ _)) as [Hin|Hnin]; injection Hadd as <-; cbn [fi_fpspec fi_keylist fi_key2values].
  - rewrite decide_True by done. rewrite <-Hkey, Hm2, decide_True by done.
    rewrite bool_decide_true by set_solver. rewrite andb_false_r, Hdiff.
    apply Htest, (ii_keys _ _ Hinv) in Hin as [vs Hvs]. rewrite Hvs. simpl.
    destruct (ii_bucket _ _ Hinv key vs Hvs) as [Hne _].
    rewrite decide_False by done. f_equal.
    replace (<[key := vs]> m2) with (fi_key2values ix); [by destruct ix|].
    apply map_eq. intros k. destruct (decide (key = k)) as [<-|Hk].
    + by rewrite lookup_insert_eq.
    + by rewrite lookup_insert_ne, Hm2, decide_False.
  - rewrite decide_True by done. rewrite <-Hkey, Hm2, decide_True by done.
    rewrite bool_decide_true by set_solver. rewrite andb_false_r, Hdiff.
    assert (key ∉ fi_keylist ix) as Hkl by (by rewrite <-Htest).
    assert (fi_key2values ix !! key = None) as Hnone.
    { apply eq_None_not_Some. by rewrite <-(ii_keys _ _ Hinv). }
    rewrite Hnone. simpl. rewrite decide_True by done.
    destruct (insort_left_delete (fi_keylist ix) key (ii_sorted _ _ Hinv) Hkl)
      as [Hlt Hdel].
    rewrite decide_True by done. rewrite Hdel. f_equal.
    replace (delete key (<[key := ∅]> m2)) with (fi_key2values ix); [by destruct ix|].
    apply map_eq. intros k. destruct (decide (key = k)) as [<-|Hk].
    + by rewrite lookup_delete_eq.
    + by rewrite lookup_delete_ne, lookup_insert_ne, Hm2, decide_False.
Qed.

(** *** The select through an index against the scan *)

Lemma elem_of_concat_map {A B} (g : A → list B) (l : list A) (x : B) :
  x ∈ concat (map g l) ↔ ∃ a, a ∈ l ∧ x ∈ g a.
Proof.
  induction l as [|a l IH]; simpl.
  - split; [by intros ?%elem_of_nil|by intros (? & ?%elem_of_nil & _)].
  - rewrite elem_of_app, IH. split.
    + intros [Hx|(b & Hb & Hx)]; [exists a; split; [left|done]|].
      exists b. split; [by right|done].
    + intros (b & [->|Hb]%elem_of_cons & Hx); [by left|]. right. by exists b.
Qed.

(** A true conjunction has true arguments. *)
Lemma and_call_true cs f args nk c :
  comparator_call (BoolComparator OpAnd cs) f args nk = Ok true →
  c ∈ cs → comparator_call c f args nk = Ok true.
Proof.
  cbn [comparator_call]. induction cs as [|a cs IH]; [by intros _ ?%elem_of_nil|].
  destruct (comparator_call a f args nk) as [[]|] eqn:Ha; simpl; [|done..].
  intros Hcs [->|Hc]%elem_of_cons; [done|]. by apply IH.
Qed.

(** The comparison of a leaf of a conjunction holds of the facts of which
    the conjunction holds. *)
Lemma and_leaf_holds w f args nk p op a :
  (p, op, a) ∈ and_leaves w →
  comparator_call w f args nk = Ok true →
  ∃ v, get_value args nk a = Ok v ∧ apply_op op (path_get p f) v = true.
Proof.
  induction w as [v|cop arg1 arg2|bop cs IH] using Comparator_ind'.
  - by intros ?%elem_of_nil.
  - cbn [and_leaves comparator_call]. unfold fqc_indexable.
    destruct (fqc_static cop arg1 arg2); [by intros ?%elem_of_nil|].
    destruct arg2 as [q|b]; [by intros ?%elem_of_nil|].
    intros [= -> -> ->]%list_elem_of_singleton. unfold fieldpath_eval.
    case_decide; [|done]. simpl.
    destruct (get_value args nk b) as [v|]; [|done]. simpl.
    intros [= Hop]. by exists v.
  - destruct bop; [by intros ?%elem_of_nil| |by intros ?%elem_of_nil].
    cbn [and_leaves]. intros (c & Hc & Hin)%elem_of_concat_map Hcall.
    rewrite Forall_forall in IH. apply (IH c Hc Hin).
    by apply (and_call_true cs).
Qed.

(** The argument of a leaf is a value or a placeholder of the condition. *)
Lemma and_leaf_placeholder w p op a :
  (p, op, a) ∈ and_leaves w →
  match a with ArgValue _ => True | _ => a ∈ placeholders w end.
Proof.
  induction w as [v|cop arg1 arg2|bop cs IH] using Comparator_ind'.
  - by intros ?%elem_of_nil.
  - cbn [and_leaves placeholders]. unfold fqc_indexable.
    destruct (fqc_static cop arg1 arg2); [by intros ?%elem_of_nil|].
    destruct arg2 as [q|b]; [by intros ?%elem_of_nil|].
    intros [= -> -> ->]%list_elem_of_singleton. destruct b; [done|left..].
  - destruct bop; [by intros ?%elem_of_nil| |by intros ?%elem_of_nil].
    cbn [and_leaves placeholders]. intros (c & Hc & Hin)%elem_of_concat_map.
    rewrite Forall_forall in IH. specialize (IH c Hc Hin).
    destruct a; [done| |]; apply elem_of_concat_map; by exists c.
Qed.

(** What [_resolve_arguments] has checked when its loop returns: every
    placeholder has a value, in the arguments or in the new ones. *)
Lemma resolve_loop_values phs args kwargs acc nk :
  resolve_loop phs args kwargs acc = Ok nk →
  (∀ name, is_Some (acc !! name) → is_Some (nk !! name))
  ∧ ∀ a, a ∈ phs →
      match a with
      | ArgValue _ => False
      | ArgPositional posn => posn < length args
      | ArgNamed name _ => is_Some (kwargs !! name) ∨ is_Some (nk !! name)
      end.
Proof.
  revert acc. induction phs as [|ph phs IH]; intros acc; cbn [resolve_loop].
  - intros [= <-]. split; [done|by intros ? ?%elem_of_nil].
  - destruct ph as [v|posn|name default]; [done| |].
    + case_decide as Hposn; [|done]. intros Hnk. destruct (IH acc Hnk) as [Hacc Ha].
      split; [done|]. intros a [->|Hin]%elem_of_cons; [done|by apply Ha].
    + case_decide as Hname.
      * intros Hnk. destruct (IH acc Hnk) as [Hacc Ha].
        split; [done|]. intros a [->|Hin]%elem_of_cons; [by left|by apply Ha].
      * destruct default as [d|]; [|done]. intros Hnk.
        destruct (IH _ Hnk) as [Hacc Ha]. split.
        -- intros n Hn. apply Hacc. destruct (decide (name = n)) as [->|Hne].
           ++ rewrite lookup_insert_eq. by eexists.
           ++ by rewrite lookup_insert_ne.
        -- intros a [->|Hin]%elem_of_cons; [|by apply Ha].
           right. apply Hacc. rewrite lookup_insert_eq. by eexists.
Qed.

Lemma resolve_arguments_values s w args kwargs nk a :
  sel_where s = Some w →
  resolve_arguments s args kwargs = Ok nk →
  match a with ArgValue _ => True | _ => a ∈ placeholders w end →
  ∃ v, get_value args nk a = Ok v.
Proof.
  intros Hw. unfold resolve_arguments. rewrite Hw.
  destruct (resolve_loop (placeholders w) args kwargs ∅) as [new|] eqn:Hloop; [|done].
  simpl. destruct (resolve_loop_values _ _ _ _ _ Hloop) as [_ Hvals].
  intros Hnk Ha. destruct a as [v|posn|name default]; [by exists v| |].
  - specialize (Hvals _ Ha). simpl in Hvals. simpl.
    destruct (args !! posn) as [v|] eqn:Hv; [by exists v|].
    apply lookup_ge_None in Hv. lia.
  - specialize (Hvals _ Ha). simpl in Hvals. simpl.
    assert (is_Some (nk !! name)) as [v Hv]; [|rewrite Hv; by exists v].
    case_decide as Hnew; injection Hnk as <-.
    + destruct Hvals as [?|Hn]; [done|]. rewrite Hnew, lookup_empty in Hn.
      by destruct Hn.
    + rewrite lookup_union. destruct Hvals as [[v ->]|[v ->]].
      * destruct (new !! name); by eexists.
      * destruct (kwargs !! name); by eexists.
Qed.

Lemma rfilterM_ok {A} (g : A → result bool) (l : list A) :
  (∀ x, x ∈ l → ∃ b, g x = Ok b) → ∃ r, rfilterM g l = Ok r.
Proof.
  induction l as [|a l IH]; intros Hl; simpl; [by eexists|].
  destruct (Hl a) as [b ->]; [left|]. simpl.
  destruct IH as [r ->]; [intros x Hx; apply Hl; by right|]. simpl. by eexists.
Qed.

(** Whether the lookup of a select in its index returns no key on account
    of the test of the bisection position. *)
Definition select_misses (s : Select) (m : FactMap) (args : list K)
    (nkwargs : gmap string K) : bool :=
  match sel_indexable s with
  | None => false
  | Some (p, op, a) =>
      match factmap_get_factindex m p, get_value args nkwargs a with
      | Ok ix, Ok v => find_misses ix op v
      | _, _ => false
      end
  end.

(** A select with a [where] clause against the same select made to scan
    (its [_indexable] taken away): when the scan returns, the select
    returns too, each fact once and only facts that the scan returns; it
    returns all of them, unless the lookup in the index comes back empty
    because the bisection position is 0, in which case it returns none. *)
Theorem select_through_index_agrees_with_scan (m : FactMap)
    (exprs : list Comparator) (s : Select) (args : list K)
    (kwargs : gmap string K) (scanned : list fact) :
  factmap_inv m →
  select_where exprs (select_init m) = Ok s →
  select_get (mkSelect (sel_index_priority s) (sel_where s) None (sel_key s))
             m args kwargs = Ok scanned →
  ∃ nk found,
    resolve_arguments s args kwargs = Ok nk
    ∧ select_get s m args kwargs = Ok found
    ∧ NoDup found
    ∧ (∀ f, f ∈ found → f ∈ scanned)
    ∧ (select_misses s m args nk = false → ∀ f, f ∈ scanned → f ∈ found)
    ∧ (select_misses s m args nk = true → found = []).
Proof.
  intros Hinv Hs Hscan.
  destruct (select_where_facts exprs m s Hs) as (w & Hw & Hk & Hprio & Hps).
  rewrite Hw, Hk in Hscan.
  rewrite (select_get_unfold (mkSelect (sel_index_priority s) (Some w) None None)
             m args kwargs w eq_refl eq_refl) in Hscan.
  assert (resolve_arguments (mkSelect (sel_index_priority s) (Some w) None None)
            args kwargs = resolve_arguments s args kwargs) as Hres.
  { unfold resolve_arguments. simpl. by rewrite Hw. }
  rewrite Hres in Hscan.
  destruct (resolve_arguments s args kwargs) as [nk|e] eqn:Hnk; simpl in Hscan; [|done].
  unfold select_candidates in Hscan. simpl in Hscan.
  destruct (rfilterM_spec _ _ _ Hscan) as (Hall & Hscanned & _).
  exists nk. rewrite (select_get_unfold s m args kwargs w Hw Hk), Hnk. simpl.
  unfold select_candidates, select_misses.
  destruct (sel_indexable s) as [[[p op] a]|] eqn:Hix; simpl.
  - rewrite primary_search_first_least in Hps. injection Hps as Hps.
    pose proof (first_least_spec (index_priority (factmap_indexes m))
                  (indexed_leaves (index_priority (factmap_indexes m)) w)) as Hfl.
    rewrite Hps in Hfl. destruct Hfl as (l1 & l2 & Hl & _).
    assert ((p, op, a) ∈ indexed_leaves (index_priority (factmap_indexes m)) w) as Hleaf.
    { rewrite Hl. apply elem_of_app. right. left. }
    apply list_elem_of_filter in Hleaf as [Hsome Hleaf]. simpl in Hsome.
    apply index_priority_is_Some in Hsome; [|apply (fmi_paths _ Hinv)].
    destruct (factmap_get_factindex_inv m p Hinv Hsome) as (ix & -> & Hp & Hixinv).
    destruct (resolve_arguments_values s w args kwargs nk a Hw Hnk
                (and_leaf_placeholder w p op a Hleaf)) as [v Hv].
    rewrite Hv. simpl.
    destruct (findex_find_spec (fm_allfacts m) ix op v Hixinv) as (c & -> & Hc).
    simpl.
    destruct (rfilterM_ok (λ f, comparator_call w f args nk) (elements c))
      as [found Hfound].
    { intros x Hx%elem_of_elements. apply Hall, elem_of_elements.
      apply Hc in Hx. tauto. }
    exists found. split; [done|]. split; [done|].
    destruct (rfilterM_spec _ _ _ Hfound) as (_ & Hin & Hnd).
    split; [apply Hnd, NoDup_elements|]. split; [|split].
    + intros f [Hf Hcall]%Hin. apply Hscanned. split; [|done].
      apply elem_of_elements. apply elem_of_elements, Hc in Hf. tauto.
    + intros Hmiss f [Hf Hcall]%Hscanned. apply Hin. split; [|done].
      apply elem_of_elements, Hc. split; [done|].
      split; [by apply elem_of_elements|].
      destruct (and_leaf_holds w f args nk p op a Hleaf Hcall) as (v' & Hv' & Hop).
      rewrite Hv in Hv'. injection Hv' as <-. by rewrite Hp.
    + intros Hmiss. destruct found as [|f found]; [done|].
      assert (f ∈ f :: found) as Hf by left.
      apply Hin in Hf as [Hf%elem_of_elements%Hc _]. rewrite Hmiss in Hf.
      by destruct Hf.
  - exists scanned. split; [done|]. split; [done|].
    destruct (rfilterM_spec _ _ _ Hscan) as (_ & _ & Hnd).
    split; [apply Hnd, NoDup_elements|]. done.
Qed.

(** *** Round trips and clearing of the fact map *)

Lemma each_index_round_trip (step1 step2 : FactIndex → FactIndex * result ())
    (P : path * FactIndex → Prop) d :
  (∀ p ix, P (p, ix) → ∃ ix', step1 ix = (ix', Ok ()) ∧ step2 ix' = (ix, Ok ())) →
  Forall P d →
  ∃ d', each_index step1 d = (d', Ok ()) ∧ each_index step2 d' = (d, Ok ()).
Proof.
  intros Hstep. induction 1 as [|[p ix] d Hp Hd (d' & Hd1 & Hd2)]; cbn [each_index].
  - by exists [].
  - destruct (Hstep p ix Hp) as (ix' & -> & Hback). rewrite Hd1.
    exists ((p, ix') :: d'). split; [done|]. cbn [each_index]. by rewrite Hback, Hd2.
Qed.

(** [remove] undoes [add] on a fact map: after a fact of the predicate of
    the map that the map does not hold is added, removing it, in either
    mode, gives back the fact map as it was, fact set and indexes. *)
Theorem factmap_add_then_remove_restores (m : FactMap) (f : fact)
    (raise_on_missing : bool) :
  factmap_inv m →
  fact_type f = fm_ptype m →
  f ∉ fm_allfacts m →
  ∃ m', factmap_add f m = (m', Ok ())
        ∧ f ∈ fm_allfacts m'
        ∧ factmap_remove f raise_on_missing m' = (m, Ok ()).
Proof.
  intros Hinv Hty Hf. unfold factmap_add.
  destruct (each_index_round_trip (findex_add f) (findex_remove f raise_on_missing)
              (λ pi, fi_fpspec pi.2 = pi.1 ∧ path_pred pi.1 = fm_ptype m
                     ∧ index_inv (fm_allfacts m) pi.2) (fm_findexes m))
    as (d' & -> & Hback).
  { intros p ix (Hp & Hpred & Hix). simpl in *.
    apply (findex_add_then_remove_restores (fm_allfacts m)); [done| |done].
    by rewrite Hp, Hpred. }
  { apply (fmi_index _ Hinv). }
  eexists. split; [done|]. split; [simpl; set_solver|].
  unfold factmap_remove. cbn [fm_allfacts fm_findexes fm_ptype].
  rewrite bool_decide_true by set_solver. rewrite andb_false_r, Hback.
  replace (({[f]} ∪ fm_allfacts m) ∖ {[f]}) with (fm_allfacts m) by set_solver.
  by destruct m.
Qed.

(** A delete statement without a [where] clause removes every fact of the
    fact map and returns how many there were; the fact map keeps its
    indexes, emptied and in lock-step, and a select on it gets nothing. *)
Theorem delete_without_where_clears (m : FactMap) (args : list K)
    (kwargs : gmap string K) :
  factmap_inv m →
  delete_execute (delete_init m) m args kwargs
  = (factmap_clear m, Ok (size (fm_allfacts m)))
  ∧ fm_allfacts (factmap_clear m) = ∅
  ∧ factmap_indexes (factmap_clear m) = factmap_indexes m
  ∧ factmap_inv (factmap_clear m)
  ∧ lockstep (factmap_clear m)
  ∧ select_get (select_init (factmap_clear m)) (factmap_clear m) args kwargs = Ok [].
Proof.
  intros Hinv. pose proof (factmap_clear_inv m Hinv) as Hinv'.
  split; [done|]. split; [done|]. split.
  { unfold factmap_indexes, factmap_clear. simpl. by rewrite <-list_fmap_compose. }
  split; [done|]. split; [by apply factmap_inv_lockstep|].
  unfold select_get, select_init, resolve_arguments. simpl.
  by rewrite elements_empty.
Qed.

(** *** The arguments of a query *)

Lemma resolve_loop_raises phs args kwargs acc a :
  a ∈ phs →
  match a with
  | ArgValue _ => True
  | ArgPositional posn => length args ≤ posn
  | ArgNamed name default => kwargs !! name = None ∧ default = None
  end →
  resolve_loop phs args kwargs acc = Raise TypeError.
Proof.
  revert acc. induction phs as [|ph phs IH]; intros acc Ha Hbad; [by apply elem_of_nil in Ha|].
  cbn [resolve_loop]. apply elem_of_cons in Ha as [Heq|Ha]; [subst ph|].
  - destruct a as [v|posn|name default]; [done| |].
    + rewrite decide_False; [done|lia].
    + destruct Hbad as [Hnone ->]. rewrite decide_False; [done|].
      rewrite Hnone. by intros [? ?].
  - destruct ph as [v|posn|name default]; [done| |].
    + case_decide; [by apply IH|done].
    + case_decide; [by apply IH|]. destruct default; [by apply IH|done].
Qed.

(** [_resolve_arguments] of a select with a [where] clause: when it
    returns, every placeholder of the condition has its value in the
    arguments it returns, and the named arguments of the caller are kept as
    they are, a default never replacing one; it raises [TypeError] when a
    positional placeholder is past the arguments given, and when a named
    placeholder has no argument and no default. *)
Theorem resolve_arguments_gives_placeholders_values (s : Select) (w : Comparator)
    (args : list K) (kwargs : gmap string K) :
  sel_where s = Some w →
  (∀ nk, resolve_arguments s args kwargs = Ok nk →
         (∀ a, a ∈ placeholders w → ∃ v, get_value args nk a = Ok v)
         ∧ (∀ name v, kwargs !! name = Some v → nk !! name = Some v))
  ∧ (∀ posn, ArgPositional posn ∈ placeholders w → length args ≤ posn →
             resolve_arguments s args kwargs = Raise TypeError)
  ∧ (∀ name, ArgNamed name None ∈ placeholders w → kwargs !! name = None →
             resolve_arguments s args kwargs = Raise TypeError).
Proof.
  intros Hw. split; [|split].
  - intros nk Hnk. split.
    + intros a Ha. apply (resolve_arguments_values s w args kwargs nk a Hw Hnk).
      destruct a as [v|posn|name default]; [done|done..].
    + revert Hnk. unfold resolve_arguments. rewrite Hw.
      destruct (resolve_loop _ _ _ _) as [new|]; [|done]. simpl.
      case_decide; intros [= <-] name v Hv; [done|].
      by rewrite lookup_union, Hv; destruct (new !! name).
  - intros posn Ha Hlen. unfold resolve_arguments. rewrite Hw.
    by rewrite (resolve_loop_raises _ _ _ _ _ Ha).
  - intros name Ha Hnone. unfold resolve_arguments. rewrite Hw.
    by rewrite (resolve_loop_raises _ _ _ _ _ Ha).
Qed.

(** *** Simplification of a condition without static comparison *)

(** No comparison of the condition is static, and no constant is in it. *)
Fixpoint no_static (c : Comparator) : Prop :=
  match c with
  | StaticComparator _ => False
  | FieldQueryComparator op arg1 arg2 => fqc_static op arg1 arg2 = None
  | BoolComparator _ args =>
      (fix all (l : list Comparator) : Prop :=
         match l with [] => True | a :: r => no_static a ∧ all r end) args
  end.

Lemma well_formed_args bop args :
  well_formed (BoolComparator bop args) → Forall well_formed args.
Proof.
  intros [_ Hall]. induction args as [|a args IH]; constructor; [apply Hall|].
  apply IH, Hall.
Qed.

Lemma no_static_args bop args :
  no_static (BoolComparator bop args) → Forall no_static args.
Proof.
  cbn [no_static]. induction args as [|a args IH]; intros Hall; constructor;
    [apply Hall|]. apply IH, Hall.
Qed.

Lemma simplified_loop_keeps bop sargs newargs :
  Forall no_static sargs →
  simplified_loop bop sargs newargs = inr (newargs ++ sargs).
Proof.
  intros Hall. revert newargs.
  induction Hall as [|a sargs Ha Hall IH]; intros newargs; cbn [simplified_loop].
  - by rewrite app_nil_r.
  - destruct a as [v|op arg1 arg2|bop' args]; [done| |];
      by rewrite IH, <-app_assoc.
Qed.

(** [simplified] returns a condition as it is when there is nothing static
    in it; so do the conditions a [where] clause keeps, and their
    placeholders. *)
Theorem simplified_without_static_is_identity (c : Comparator) :
  well_formed c →
  no_static c →
  simplified c = Ok c
  ∧ simplify_fact_comparator c = c
  ∧ placeholders (simplify_fact_comparator c) = placeholders c.
Proof.
  intros Hwf Hns.
  assert (simplified c = Ok c) as Hsimp.
  { induction c as [v|op arg1 arg2|bop args IH] using Comparator_ind'.
    - done.
    - cbn [simplified]. cbn [no_static] in Hns. by rewrite Hns.
    - pose proof (well_formed_args bop args Hwf) as Hwfs.
      pose proof (no_static_args bop args Hns) as Hnss.
      cbn [simplified].
      assert (map (λ a, match simplified a with Ok s => s | Raise _ => a end) args
              = args) as ->.
      { clear Hwf Hns. induction IH as [|a args Ha IH IHargs]; [done|].
        apply Forall_cons in Hwfs as [Hwa Hwfs]. apply Forall_cons in Hnss as [Hna Hnss].
        cbn [map]. rewrite (Ha Hwa Hna). f_equal. by apply IHargs. }
      rewrite simplified_loop_keeps by done. cbn [app].
      destruct Hwf as [Hlen _]. unfold simplified_combine, bool_comparator.
      destruct bop.
      + destruct args as [|a [|b args]]; try done.
      + destruct args as [|a [|b args]]; simpl in Hlen; try lia.
        rewrite decide_False; [done|simpl; lia].
      + destruct args as [|a [|b args]]; simpl in Hlen; try lia.
        rewrite decide_False; [done|simpl; lia]. }
  split; [done|]. unfold simplify_fact_comparator. rewrite Hsimp. done.
Qed.

End Engine.

(** ** The engine on integer terms *)

(** A schema to run the engine on: the terms are integers, a fact is the
    name of its predicate and the tuple of its fields, a path is the name of
    a predicate and the position of a field. *)
Definition int_fact : Type := string * list Z.
Definition int_path : Type := string * nat.

Definition int_fact_type (f : int_fact) : string := f.1.
Definition int_path_pred (p : int_path) : string := p.1.
Definition int_path_get (p : int_path) (f : int_fact) : Z := nth p.2 f.2 0%Z.

Lemma zlt_irrefl (a : Z) : (a <? a)%Z = false.
Proof. apply Z.ltb_irrefl. Qed.

Lemma zlt_trans (a b c : Z) : (a <? b)%Z = true → (b <? c)%Z = true → (a <? c)%Z = true.
Proof. rewrite !Z.ltb_lt. lia. Qed.

Lemma zlt_total (a b : Z) : (a <? b)%Z = false → (b <? a)%Z = false → a = b.
Proof. rewrite !Z.ltb_ge. lia. Qed.

(** The predicate [F] with two fields, and a fact map of it indexed on the
    first field with the facts [F(3,1)] and [F(5,2)]. *)
Definition F_0 : int_path := ("F"%string, 0).
Definition F_1 : int_path := ("F"%string, 1).
Definition F (a b : Z) : int_fact := ("F"%string, [a; b]).

Definition demo_empty : FactMap (K := Z) (fact := int_fact) (path := int_path) :=
  mkFactMap "F"%string ∅ [(F_0, findex_init F_0)].

Definition demo_map : FactMap (K := Z) (fact := int_fact) (path := int_path) :=
  (factmap_add Z.ltb int_fact_type int_path_pred int_path_get (F 5 2)
     (factmap_add Z.ltb int_fact_type int_path_pred int_path_get (F 3 1)
        demo_empty).1).1.

(** The same facts without an index. *)
Definition demo_plain : FactMap (K := Z) (fact := int_fact) (path := int_path) :=
  mkFactMap "F"%string {[F 3 1; F 5 2]} [].

Lemma demo_empty_init :
  factmap_init int_path_pred "F"%string [F_0] = Ok demo_empty.
Proof. reflexivity. Qed.

Lemma demo_map_inv :
  factmap_inv Z.ltb int_fact_type int_path_pred int_path_get demo_map.
Proof.
  assert (factmap_inv Z.ltb int_fact_type int_path_pred int_path_get demo_empty)
    as H0 by (eapply factmap_inv_init;
              first [exact zlt_irrefl|exact zlt_trans|exact zlt_total
                    |exact demo_empty_init]).
  destruct (factmap_add_inv Z.ltb int_fact_type int_path_pred int_path_get
              zlt_irrefl zlt_trans zlt_total demo_empty (F 3 1) H0 eq_refl)
    as (m1 & Hm1 & _ & Hpt1 & _ & H1).
  destruct (factmap_add_inv Z.ltb int_fact_type int_path_pred int_path_get
              zlt_irrefl zlt_trans zlt_total m1 (F 5 2) H1)
    as (m2 & Hm2 & _ & _ & _ & H2); [by rewrite Hpt1|].
  unfold demo_map. rewrite Hm1. cbn [fst]. by rewrite Hm2.
Qed.

(** *** The index against the scan (C1) *)

(** The condition [F[0] > ph1_] and its select statement on a fact map. *)
Definition gt_ph1 : Comparator (K := Z) (path := int_path) :=
  FieldQueryComparator OpGt F_0 (ArgOther (ArgPositional 0)).

Definition demo_select
    (m : FactMap (K := Z) (fact := int_fact) (path := int_path) (ptype := string))
  : Select (K := Z) (path := int_path) :=
  match select_where [gt_ph1] (select_init m) with
  | Ok s => s
  | Raise _ => select_init m
  end.

(** C1, at a key below every key of the index: with the keys 3 and 5 and
    the comparison [F[0] > 0], [_keys_gt] finds position 0, takes it for
    "no key" and [find] returns the empty set, so that the select that goes
    through the index returns no fact, while the select that scans the same
    facts returns both.  Above the least key the two agree. *)
Theorem index_find_misses_below_least_key :
  fi_keylist <$> (snd <$> fm_findexes demo_map) = [[3; 5]%Z]
  ∧ sel_indexable (demo_select demo_map) = Some (F_0, OpGt, ArgPositional 0)
  ∧ sel_indexable (demo_select demo_plain) = None
  ∧ (ix ← factmap_get_factindex demo_map F_0; findex_find Z.ltb ix OpGt 0%Z) = Ok ∅
  ∧ select_get Z.ltb int_fact_type int_path_pred int_path_get
      (demo_select demo_map) demo_map [0%Z] ∅ = Ok []
  ∧ select_get Z.ltb int_fact_type int_path_pred int_path_get
      (demo_select demo_plain) demo_plain [0%Z] ∅ = Ok [F 3 1; F 5 2]
  ∧ select_get Z.ltb int_fact_type int_path_pred int_path_get
      (demo_select demo_map) demo_map [4%Z] ∅ = Ok [F 5 2]
  ∧ select_get Z.ltb int_fact_type int_path_pred int_path_get
      (demo_select demo_plain) demo_plain [4%Z] ∅ = Ok [F 5 2].
Proof.
  split_and!; vm_compute; reflexivity.
Qed.

(** The same loss for [>=] and [!=], and none for [==], [<] and [<=]. *)
Lemma index_find_by_operator :
  (ix ← factmap_get_factindex demo_map F_0; findex_find Z.ltb ix OpGe 3%Z) = Ok ∅
  ∧ (ix ← factmap_get_factindex demo_map F_0; findex_find Z.ltb ix OpNe 0%Z) = Ok ∅
  ∧ (ix ← factmap_get_factindex demo_map F_0; findex_find Z.ltb ix OpEq 3%Z)
    = Ok {[F 3 1]}
  ∧ (ix ← factmap_get_factindex demo_map F_0; findex_find Z.ltb ix OpLt 4%Z)
    = Ok {[F 3 1]}
  ∧ (ix ← factmap_get_factindex demo_map F_0; findex_find Z.ltb ix OpLe 5%Z)
    = Ok {[F 3 1; F 5 2]}
  ∧ (ix ← factmap_get_factindex demo_map F_0; findex_find Z.ltb ix OpGe 4%Z)
    = Ok {[F 5 2]}
  ∧ (ix ← factmap_get_factindex demo_map F_0; findex_find Z.ltb ix OpNe 3%Z)
    = Ok {[F 5 2]}.
Proof. split_and!; apply (bool_decide_unpack _); vm_compute; exact I. Qed.

(** *** The invariant of the fact map (C2) *)


(** *** Deletion (C4) *)

Definition demo_delete : Delete (K := Z) (path := int_path) :=
  mkDelete (demo_select demo_map).

Lemma delete_removes_what_select_gets_witness :
  factmap_inv Z.ltb int_fact_type int_path_pred int_path_get demo_map
  ∧ delete_where [gt_ph1] (delete_init demo_map) = Ok demo_delete
  ∧ select_get Z.ltb int_fact_type int_path_pred int_path_get
      (del_select demo_delete) demo_map [4%Z] ∅ = Ok [F 5 2]
  ∧ ∃ m', delete_execute Z.ltb int_fact_type int_path_pred int_path_get
            demo_delete demo_map [4%Z] ∅ = (m', Ok 1)
          ∧ fm_allfacts m' = fm_allfacts demo_map ∖ {[F 5 2]}
          ∧ select_get Z.ltb int_fact_type int_path_pred int_path_get
              (del_select demo_delete) m' [4%Z] ∅ = Ok [].
Proof.
  assert (delete_where [gt_ph1] (delete_init demo_map) = Ok demo_delete) as Hd
    by (vm_compute; reflexivity).
  assert (select_get Z.ltb int_fact_type int_path_pred int_path_get
            (del_select demo_delete) demo_map [4%Z] ∅ = Ok [F 5 2]) as Hget
    by (vm_compute; reflexivity).
  destruct (delete_removes_what_select_gets Z.ltb int_fact_type int_path_pred
              int_path_get zlt_irrefl zlt_trans zlt_total demo_map [gt_ph1]
              demo_delete [4%Z] ∅ demo_map_inv Hd) as [_ Hex].
  rewrite Hget in Hex. destruct Hex as (m' & Hexec & _ & _ & Hfacts & _ & _ & Hagain).
  split; [exact demo_map_inv|]. split; [exact Hd|]. split; [exact Hget|].
  exists m'. split; [exact Hexec|]. split; [|exact Hagain].
  rewrite Hfacts. f_equal.
Defined.

(** *** The primary search (C8) *)


(** *** Ordering (C7) *)

(** Facts of three fields ordered by the first field descending, then the
    second ascending; [G(1,1,5)] and [G(1,1,6)] tie on both keys. *)
Definition G (a b c : Z) : int_fact := ("G"%string, [a; b; c]).
Definition demo_orders : list (FieldOrderBy (path := int_path)) :=
  [mkFieldOrderBy ("G"%string, 0) false; mkFieldOrderBy ("G"%string, 1) true].
Definition demo_facts : list int_fact := [G 1 1 5; G 2 0 0; G 1 1 6; G 1 0 9].

Lemma order_by_sorts_stably_witness :
  orders_typed int_path_pred "G"%string demo_orders
  ∧ (∀ f, f ∈ demo_facts → int_fact_type f = "G"%string)
  ∧ ∃ sorted,
      list_sort (key_lt Z.ltb int_fact_type int_path_pred int_path_get demo_orders)
                demo_facts = Ok sorted
      ∧ sorted = [G 2 0 0; G 1 0 9; G 1 1 5; G 1 1 6]
      ∧ sorted ≡ₚ demo_facts.
Proof.
  assert (orders_typed int_path_pred "G"%string demo_orders) as Ho.
  { intros o Ho. unfold demo_orders in Ho.
    repeat (apply elem_of_cons in Ho as [->|Ho]; [reflexivity|]).
    by apply elem_of_nil in Ho. }
  assert (∀ f, f ∈ demo_facts → int_fact_type f = "G"%string) as Hf.
  { intros f Hf. unfold demo_facts in Hf.
    repeat (apply elem_of_cons in Hf as [->|Hf]; [reflexivity|]).
    by apply elem_of_nil in Hf. }
  split; [exact Ho|]. split; [exact Hf|].
  destruct (order_by_sorts_stably Z.ltb int_fact_type int_path_pred int_path_get
              zlt_irrefl zlt_trans zlt_total "G"%string demo_orders demo_facts Ho Hf)
    as (_ & _ & sorted & Hsort & Hperm & _).
  exists sorted. split; [exact Hsort|]. split; [|exact Hperm].
  revert Hsort. vm_compute. by intros [= <-].
Defined.

(** C7 as the claim has it fails where two facts tie on every key: the
    sort of the reversed input keeps the tied facts in their reversed
    order. *)
Lemma sort_of_reversed_input_differs :
  list_sort (key_lt Z.ltb int_fact_type int_path_pred int_path_get demo_orders)
            (reverse [G 1 1 5; G 1 1 6])
  ≠ list_sort (key_lt Z.ltb int_fact_type int_path_pred int_path_get demo_orders)
              [G 1 1 5; G 1 1 6].
Proof. vm_compute. discriminate. Qed.

(** *** A fact of another predicate (C2) *)


(** *** Simplification (C3) *)

(** The conditions [and_(F[0] != F[0], F[0] == 1)] and
    [or_(F[0] == F[0], F[0] == 1)]. *)
Definition eq_1 : Comparator (K := Z) (path := int_path) :=
  FieldQueryComparator OpEq F_0 (ArgOther (ArgValue 1%Z)).
Definition and_false_eq_1 : Comparator (K := Z) (path := int_path) :=
  BoolComparator OpAnd [FieldQueryComparator OpNe F_0 (ArgPath F_0); eq_1].
Definition or_true_eq_1 : Comparator (K := Z) (path := int_path) :=
  BoolComparator OpOr [FieldQueryComparator OpEq F_0 (ArgPath F_0); eq_1].

(** C3, at a conjunction with a comparison that is statically false: the
    loop of [BoolComparator.simplified] meets the static argument, executes
    the expression statement [sarg] and goes on without it, so that
    [and_(F[0] != F[0], F[0] == 1)] is simplified to [F[0] == 1].  The
    original is false of every fact, the simplified condition is true of
    [F(1,1)], and a select with this condition returns it.  In the same way
    [or_(F[0] == F[0], F[0] == 1)], true of every fact, becomes
    [F[0] == 1], false of [F(2,2)]. *)
Theorem simplified_drops_deciding_static_argument :
  bool_comparator OpAnd [FieldQueryComparator OpNe F_0 (ArgPath F_0); eq_1]
    = Ok and_false_eq_1
  ∧ simplified and_false_eq_1 = Ok eq_1
  ∧ comparator_call Z.ltb int_fact_type int_path_pred int_path_get
      and_false_eq_1 (F 1 1) [] ∅ = Ok false
  ∧ comparator_call Z.ltb int_fact_type int_path_pred int_path_get
      (simplify_fact_comparator and_false_eq_1) (F 1 1) [] ∅ = Ok true
  ∧ (s ← select_where [and_false_eq_1]
           (select_init (mkFactMap "F"%string {[F 1 1]} []));
     select_get Z.ltb int_fact_type int_path_pred int_path_get s
       (mkFactMap "F"%string {[F 1 1]} []) [] ∅) = Ok [F 1 1]
  ∧ simplified or_true_eq_1 = Ok eq_1
  ∧ comparator_call Z.ltb int_fact_type int_path_pred int_path_get
      or_true_eq_1 (F 2 2) [] ∅ = Ok true
  ∧ comparator_call Z.ltb int_fact_type int_path_pred int_path_get
      (simplify_fact_comparator or_true_eq_1) (F 2 2) [] ∅ = Ok false.
Proof. split_and!; vm_compute; reflexivity. Qed.

(** ** [factbase.py]: the end points of a query *)

(** [SelectImpl.get_unique] and [QueryImpl.singleton] run one loop over the
    outputs of the query executor, [qe.all()], which is given here as the
    list of the outputs it yields.  An output is a fact, a tuple or a
    projected value: [truthy] is its truth value, which [if found:] tests. *)
Section QueryEndPoints.

Context {out : Type} (truthy : out → bool).

(** [bool(found)], [found] being [None] or an output. *)
Definition found_truthy (found : option out) : bool :=
  match found with
  | None => false
  | Some o => truthy o
  end.

(** [for out in qe.all(): if found: raise ValueError(...); found = out],
    then [return found]: [None] of the result is Python's [None]. *)
Fixpoint singleton_loop (found : option out) (outs : list out) : result (option out) :=
  match outs with
  | [] => Ok found
  | o :: r =>
      if found_truthy found
      then Raise (ValueError "Query returned more than a single element")
      else singleton_loop (Some o) r
  end.

(** [QueryImpl.singleton]. *)
Definition singleton (outs : list out) : result (option out) :=
  singleton_loop None outs.

(** [SelectImpl.get_unique]: [given] tells whether the call has
    arguments, [has_where] whether the query has a where clause, and
    [outs] are the outputs of the query, bound to the arguments if any. *)
Definition get_unique (given has_where : bool) (outs : list out) : result (option out) :=
  if given && negb has_where then Raise (ValueError "No where clause to ground")
  else singleton_loop None outs.

Lemma singleton_loop_spec (found : option out) (outs : list out) :
  singleton_loop found outs =
    if found_truthy found && bool_decide (outs ≠ []) || existsb truthy (removelast outs)
    then Raise (ValueError "Query returned more than a single element")
    else Ok (match last outs with Some o => Some o | None => found end).
Proof.
  revert found. induction outs as [|o r IH]; intros found.
  - cbn. by rewrite andb_false_r.
  - cbn [singleton_loop]. rewrite IH. clear IH.
    rewrite (bool_decide_true (o :: r ≠ [])) by done. rewrite andb_true_r.
    destruct (found_truthy found); [done|]. cbn [orb found_truthy].
    destruct r as [|o' r].
    { rewrite (bool_decide_false ([] ≠ [])) by (intros H; by apply H).
      rewrite andb_false_r. cbn. reflexivity. }

    rewrite (bool_decide_true (o' :: r ≠ [])) by (intros ?; discriminate). rewrite andb_true_r.
    change (removelast (o :: o' :: r)) with (o :: removelast (o' :: r)).
    cbn [existsb]. rewrite last_cons_cons.
    destruct (truthy o || existsb truthy (removelast (o' :: r))); [done|].
    destruct (last (o' :: r)) eqn:E; [done|]. by apply last_None in E.
Qed.

End QueryEndPoints.

(** C5, at a query without outputs: the loop of [singleton] and of
    [get_unique] is not entered and [found], which is [None], is returned:
    no error is raised.  Nor is one raised when the outputs before the last
    are false as Python values, as the integer 0 is. *)
Theorem singleton_returns_none_without_outputs :
  (∀ (out : Type) (truthy : out → bool),
     singleton truthy [] = Ok None
     ∧ get_unique truthy false true [] = Ok None
     ∧ get_unique truthy true true [] = Ok None)
  ∧ singleton (λ z : Z, negb (z =? 0)%Z) [0%Z; 7%Z] = Ok (Some 7%Z).
Proof. split; [intros out truthy; split_and!|]; reflexivity. Qed.

(** ** [orm.py]: the fact base *)

Section FactBase.

Context {K : Type} `{Countable K}.
Context {fact : Type} `{Countable fact}.
Context {path : Type} `{Countable path}.
Context {ptype : Type} `{EqDecision ptype}.
Variable klt : K → K → bool.
Variable fact_type : fact → ptype.
Variable path_pred : path → ptype.
Variable path_get : path → fact → K.

(** The attribute [_factmaps]: a dictionary from the predicate types to
    their fact maps, which keeps the order of insertion.  A fact base is
    taken after its initialisation, delayed or not: [_delayed_init] is
    [None]. *)
Local Abbreviation FactMap :=
  (FactMap (K := K) (fact := fact) (path := path) (ptype := ptype)).
Local Abbreviation Select := (Select (K := K) (path := path)).
Local Abbreviation Delete := (Delete (K := K) (path := path)).

Record FactBase := mkFactBase {
  fb_factmaps : list (ptype * FactMap)
}.

(** [self._factmaps[ptype]], [None] standing for the missing key. *)
Fixpoint factmaps_get (pt : ptype) (d : list (ptype * FactMap)) : option FactMap :=
  match d with
  | [] => None
  | (q, m) :: r => if decide (pt = q) then Some m else factmaps_get pt r
  end.

(** [self._factmaps[ptype] = m]. *)
Fixpoint factmaps_set (pt : ptype) (m : FactMap) (d : list (ptype * FactMap))
  : list (ptype * FactMap) :=
  match d with
  | [] => [(pt, m)]
  | (q, w) :: r =>
      if decide (pt = q) then (q, m) :: r else (q, w) :: factmaps_set pt m r
  end.

(** [grouped[fp.predicate].append(fp)], the key being created at need. *)
Fixpoint grouped_append (pt : ptype) (fp : path) (g : list (ptype * list path))
  : list (ptype * list path) :=
  match g with
  | [] => [(pt, [fp])]
  | (q, fps) :: r =>
      if decide (pt = q) then (q, fps ++ [fp]) :: r
      else (q, fps) :: grouped_append pt fp r
  end.

(** [FactBase._add_fact]: the fact map of the type of the fact is made at
    need, and the fact added to it. *)
Definition factbase_add_fact (f : fact) (fb : FactBase) : FactBase * result () :=
  let pt := fact_type f in
  let m := match factmaps_get pt (fb_factmaps fb) with
           | Some m => m
           | None => mkFactMap pt ∅ []
           end in
  let '(m', res) := factmap_add klt fact_type path_pred path_get f m in
  (mkFactBase (factmaps_set pt m' (fb_factmaps fb)), res).

(** [FactBase._add] of a collection: [for f in arg: self._add_fact(f)]. *)
Fixpoint factbase_add_facts (facts : list fact) (fb : FactBase) : FactBase * result () :=
  match facts with
  | [] => (fb, Ok ())
  | f :: r =>
      match factbase_add_fact f fb with
      | (fb', Ok _) => factbase_add_facts r fb'
      | (fb', Raise e) => (fb', Raise e)
      end
  end.

(** [FactBase._init], the facts being given as a list ([None] for none). *)
Definition factbase_init (facts : option (list fact)) (indexes : list path)
  : result FactBase :=
  let grouped := foldl (λ g fp, grouped_append (path_pred fp) fp g) [] indexes in
  factmaps ← rmapM (λ pf : ptype * list path,
                      m ← factmap_init path_pred pf.1 pf.2; Ok (pf.1, m)) grouped;
  match facts with
  | None => Ok (mkFactBase factmaps)
  | Some l =>
      match factbase_add_facts l (mkFactBase factmaps) with
      | (fb, Ok _) => Ok fb
      | (_, Raise e) => Raise e
      end
  end.

(** The objects the names of [_remove] stand for. *)
Inductive pyobj :=
| ObjSelf
| ObjFact (f : fact)
| ObjBool (b : bool)
| ObjType (pt : ptype).

(** The value of a name in the body of a function: that of the parameter or
    the local variable of this name; the modules define no global [arg], so
    that any other name is undefined here. *)
Fixpoint lookup_name (locals : list (string * pyobj)) (name : string) : result pyobj :=
  match locals with
  | [] => Raise NameError
  | (n, o) :: r => if decide (n = name) then Ok o else lookup_name r name
  end.

(** [isinstance(o, Predicate)]. *)
Definition is_predicate (o : pyobj) : bool :=
  match o with ObjFact _ => true | _ => false end.

(** [FactBase._remove(fact, raise_on_missing)]: the body refers to [arg],
    which is no parameter of it; were the test passed, the function would
    return a delete statement of the fact map, [self._factmaps[ptype].delete()],
    and remove nothing.  The text is the same in [orm.py] and in
    [orm/factbase.py]. *)
Definition factbase_remove_ (f : fact) (raise_on_missing : bool) (fb : FactBase)
  : FactBase * result Delete :=
  let pt := fact_type f in
  let locals := [("self"%string, ObjSelf); ("fact"%string, ObjFact f);
                 ("raise_on_missing"%string, ObjBool raise_on_missing);
                 ("ptype"%string, ObjType pt)] in
  match lookup_name locals "arg" with
  | Raise e => (fb, Raise e)
  | Ok arg =>
      match factmaps_get pt (fb_factmaps fb) with
      | Some m => if is_predicate arg then (fb, Ok (delete_init m))
                  else (fb, Raise KeyError)
      | None => (fb, Raise KeyError)
      end
  end.

(** [FactBase.remove] and [FactBase.discard]. *)
Definition factbase_remove (f : fact) (fb : FactBase) : FactBase * result Delete :=
  factbase_remove_ f true fb.

Definition factbase_discard (f : fact) (fb : FactBase) : FactBase * result Delete :=
  factbase_remove_ f false fb.

(** [FactBase.clear]. *)
Definition factbase_clear (fb : FactBase) : FactBase :=
  mkFactBase ((λ pm, (pm.1, factmap_clear pm.2)) <$> fb_factmaps fb).

(** [FactBase.__contains__]. *)
Definition factbase_contains (f : fact) (fb : FactBase) : bool :=
  match factmaps_get (fact_type f) (fb_factmaps fb) with
  | None => false
  | Some m => bool_decide (f ∈ fm_allfacts m)
  end.

(** [FactBase.__bool__]. *)
Definition factbase_bool (fb : FactBase) : bool :=
  existsb (λ pm, negb (bool_decide (fm_allfacts pm.2 = ∅))) (fb_factmaps fb).

(** [FactBase.__len__]. *)
Definition factbase_len (fb : FactBase) : nat :=
  sum_list ((λ pm, size (fm_allfacts pm.2)) <$> fb_factmaps fb).

(** [FactBase.facts], and [FactBase.__iter__]: the facts map by map, each
    set in its order of iteration. *)
Definition factbase_facts (fb : FactBase) : list fact :=
  concat ((λ pm, elements (fm_allfacts pm.2)) <$> fb_factmaps fb).

(** [FactBase.predicates]. *)
Definition factbase_predicates (fb : FactBase) : list ptype :=
  fst <$> filter (λ pm, fm_allfacts pm.2 ≠ ∅) (fb_factmaps fb).

(** [FactBase.indexes]. *)
Definition factbase_indexes (fb : FactBase) : list path :=
  concat ((λ pm, factmap_indexes pm.2) <$> fb_factmaps fb).

(** [FactBase.__eq__] of two fact bases. *)
Definition factbase_eq (a b : FactBase) : bool :=
  if decide (factbase_len a ≠ factbase_len b) then false
  else forallb (λ f, factbase_contains f b) (factbase_facts a).

(** [FactBase.select(ptype)]: the fact map of the type is made at need; the
    statement is on this fact map. *)
Definition factbase_select (pt : ptype) (fb : FactBase) : FactBase * (FactMap * Select) :=
  match factmaps_get pt (fb_factmaps fb) with
  | Some m => (fb, (m, select_init m))
  | None =>
      let m := mkFactMap pt ∅ [] in
      (mkFactBase (factmaps_set pt m (fb_factmaps fb)), (m, select_init m))
  end.

(** [FactBase.delete(ptype)]. *)
Definition factbase_delete (pt : ptype) (fb : FactBase) : FactBase * (FactMap * Delete) :=
  match factmaps_get pt (fb_factmaps fb) with
  | Some m => (fb, (m, delete_init m))
  | None =>
      let m := mkFactMap pt ∅ [] in
      (mkFactBase (factmaps_set pt m (fb_factmaps fb)), (m, delete_init m))
  end.

(** *** Properties of the fact base *)

Hypothesis klt_irrefl : ∀ a, klt a a = false.
Hypothesis klt_trans : ∀ a b c, klt a b = true → klt b c = true → klt a c = true.
Hypothesis klt_total : ∀ a b, klt a b = false → klt b a = false → a = b.

Local Abbreviation factmap_inv := (factmap_inv klt fact_type path_pred path_get).

(** What [_init] sets up and the operations keep: each fact map is under
    the key of its predicate, and is a fact map as its class keeps it. *)
Record factbase_inv (fb : FactBase) : Prop := mk_factbase_inv {
  fbi_keys : NoDup (fst <$> fb_factmaps fb);
  fbi_maps : Forall (λ pm, fm_ptype pm.2 = pm.1 ∧ factmap_inv pm.2) (fb_factmaps fb)
}.

(** The facts of a fact base, as a set. *)
Definition factbase_set (fb : FactBase) : gset fact :=
  ⋃ ((λ pm, fm_allfacts pm.2) <$> fb_factmaps fb).

Lemma factmaps_get_set pt q m d :
  factmaps_get pt (factmaps_set q m d) =
    if decide (pt = q) then Some m else factmaps_get pt d.
Proof.
  induction d as [|[q' w] d IH]; simpl.
  - by destruct (decide (pt = q)).
  - destruct (decide (q = q')) as [->|Hq]; simpl.
    + destruct (decide (pt = q')); [done|]. done.
    + destruct (decide (pt = q')) as [->|Hp].
      * by rewrite decide_False by done.
      * apply IH.
Qed.

Lemma factmaps_get_elem_of pt m d :
  factmaps_get pt d = Some m → (pt, m) ∈ d.
Proof.
  induction d as [|[q w] d IH]; simpl; [done|].
  destruct (decide (pt = q)) as [->|Hp].
  - intros [= ->]. left.
  - intros Hm. right. by apply IH.
Qed.

Lemma factmaps_get_None pt d :
  factmaps_get pt d = None ↔ pt ∉ fst <$> d.
Proof.
  induction d as [|[q w] d IH]; simpl.
  - split; [intros _; apply not_elem_of_nil|done].
  - rewrite not_elem_of_cons. destruct (decide (pt = q)) as [->|Hp].
    + split; [done|]. by intros [? _].
    + rewrite IH. tauto.
Qed.

Lemma elem_of_factmaps_get pt m d :
  NoDup (fst <$> d) → (pt, m) ∈ d → factmaps_get pt d = Some m.
Proof.
  induction d as [|[q w] d IH]; simpl; [by intros _ ?%elem_of_nil|].
  intros [Hq Hnd]%NoDup_cons [Heq|Hin]%elem_of_cons.
  - simplify_eq. by rewrite decide_True.
  - destruct (decide (pt = q)) as [->|Hp]; [|by apply IH].
    destruct Hq. apply list_elem_of_fmap. by exists (q, m).
Qed.

(** Assignment to a key keeps the place of a key the dictionary has, and
    puts a new key last. *)
Lemma factmaps_set_keys pt m d :
  fst <$> factmaps_set pt m d =
    if decide (pt ∈ fst <$> d) then fst <$> d else (fst <$> d) ++ [pt].
Proof.
  induction d as [|[q w] d IH]; cbn [factmaps_set].
  - done.
  - rewrite fmap_cons. cbn [fst].
    destruct (decide (pt = q)) as [->|Hne].
    + rewrite decide_True; [done|by left].
    + rewrite fmap_cons, IH. cbn [fst].
      destruct (decide (pt ∈ fst <$> d)) as [Hin|Hnin].
      * rewrite decide_True; [done|by right].
      * rewrite decide_False; [done|]. by intros [?|?]%elem_of_cons.
Qed.

Lemma factmaps_set_NoDup pt m d :
  NoDup (fst <$> d) → NoDup (fst <$> factmaps_set pt m d).
Proof.
  intros Hnd. rewrite factmaps_set_keys. case_decide; [done|].
  apply NoDup_app. split; [done|]. split; [|apply NoDup_singleton].
  intros q Hq ->%list_elem_of_singleton. done.
Qed.

Lemma factmaps_set_Forall (P : ptype * FactMap → Prop) pt m d :
  Forall P d → P (pt, m) → Forall P (factmaps_set pt m d).
Proof.
  intros Hd Hm. induction Hd as [|[q w] d Hq Hd IH]; simpl.
  - by constructor.
  - destruct (decide (pt = q)) as [->|Hp]; constructor; done.
Qed.

Lemma factbase_inv_get fb pt m :
  factbase_inv fb → factmaps_get pt (fb_factmaps fb) = Some m →
  fm_ptype m = pt ∧ factmap_inv m.
Proof.
  intros Hinv Hm%factmaps_get_elem_of.
  pose proof (fbi_maps _ Hinv) as Hall. rewrite Forall_forall in Hall.
  apply (Hall _ Hm).
Qed.

(** A fact is in the fact base when the fact map of its type holds it. *)
Lemma elem_of_factbase_set fb g :
  factbase_inv fb →
  g ∈ factbase_set fb
  ↔ ∃ m, factmaps_get (fact_type g) (fb_factmaps fb) = Some m ∧ g ∈ fm_allfacts m.
Proof.
  intros Hinv. unfold factbase_set. rewrite elem_of_union_list. split.
  - intros (X & HX & Hg). apply list_elem_of_fmap in HX as ([q m] & -> & Hqm).
    simpl in Hg. exists m. split; [|done].
    apply elem_of_factmaps_get; [apply (fbi_keys _ Hinv)|].
    pose proof (fbi_maps _ Hinv) as Hall. rewrite Forall_forall in Hall.
    destruct (Hall _ Hqm) as [Hpt Hm]. simpl in *.
    by rewrite (fmi_typed _ _ _ _ _ Hm g Hg), Hpt.
  - intros (m & Hm%factmaps_get_elem_of & Hg).
    exists (fm_allfacts m). split; [|done].
    apply list_elem_of_fmap. by exists (fact_type g, m).
Qed.

Lemma factbase_contains_spec fb g :
  factbase_inv fb → factbase_contains g fb = true ↔ g ∈ factbase_set fb.
Proof.
  intros Hinv. rewrite elem_of_factbase_set by done. unfold factbase_contains.
  destruct (factmaps_get _ _) as [m|].
  - rewrite bool_decide_eq_true. split; [by exists m|]. by intros (? & [= <-] & ?).
  - split; [done|]. by intros (? & ? & ?).
Qed.

Lemma elem_of_factbase_facts fb g :
  g ∈ factbase_facts fb ↔ g ∈ factbase_set fb.
Proof.
  unfold factbase_facts, factbase_set.
  induction (fb_factmaps fb) as [|[q m] d IH]; simpl.
  - split; [by intros ?%elem_of_nil|by intros ?%elem_of_empty].
  - rewrite elem_of_app, elem_of_union, elem_of_elements, IH. done.
Qed.

Lemma factmaps_disjoint q (m : FactMap) (d : list (ptype * FactMap)) :
  q ∉ fst <$> d →
  (∀ f, f ∈ fm_allfacts m → fact_type f = q) →
  Forall (λ pm, ∀ f, f ∈ fm_allfacts pm.2 → fact_type f = pm.1) d →
  fm_allfacts m ## ⋃ ((λ pm, fm_allfacts pm.2) <$> d).
Proof.
  intros Hq Hm Hd f Hf (X & HX & HfX)%elem_of_union_list.
  apply list_elem_of_fmap in HX as ([q' m'] & -> & Hin). simpl in *.
  rewrite Forall_forall in Hd. pose proof (Hd _ Hin f HfX) as Hty. simpl in Hty.
  apply Hq. apply list_elem_of_fmap. exists (q', m'). split; [|done].
  simpl. by rewrite <-Hty, (Hm f Hf).
Qed.

Lemma factbase_inv_typed fb :
  factbase_inv fb →
  Forall (λ pm, ∀ f, f ∈ fm_allfacts pm.2 → fact_type f = pm.1) (fb_factmaps fb).
Proof.
  intros Hinv. eapply Forall_impl; [apply (fbi_maps _ Hinv)|].
  intros [q m] [Hpt Hm] f Hf. simpl in *.
  by rewrite (fmi_typed _ _ _ _ _ Hm f Hf).
Qed.

(** [len(fb)] is the number of the facts of the fact base. *)
Lemma factbase_len_size fb :
  factbase_inv fb → factbase_len fb = size (factbase_set fb).
Proof.
  intros Hinv. pose proof (fbi_keys _ Hinv) as Hnd.
  pose proof (factbase_inv_typed _ Hinv) as Hty.
  unfold factbase_len, factbase_set.
  induction (fb_factmaps fb) as [|[q m] d IH].
  - symmetry. apply (size_empty (C := gset fact)).
  - apply NoDup_cons in Hnd as [Hq Hnd]. apply Forall_cons in Hty as [Hm Hty].
    rewrite !fmap_cons. cbn [sum_list sum_list_with union_list foldr snd].
    rewrite size_union by (by apply (factmaps_disjoint q)).
    by rewrite IH.
Qed.

Lemma factbase_facts_NoDup fb :
  factbase_inv fb → NoDup (factbase_facts fb).
Proof.
  intros Hinv. pose proof (fbi_keys _ Hinv) as Hnd.
  pose proof (factbase_inv_typed _ Hinv) as Hty.
  unfold factbase_facts.
  induction (fb_factmaps fb) as [|[q m] d IH]; simpl.
  - constructor.
  - apply NoDup_cons in Hnd as [Hq Hnd]. apply Forall_cons in Hty as [Hm Hty].
    apply NoDup_app. split; [apply NoDup_elements|]. split; [|by apply IH].
    intros f Hf%elem_of_elements Hf'.
    apply (factmaps_disjoint q m d Hq Hm Hty f Hf).
    change (f ∈ factbase_set (mkFactBase d)).
    by apply elem_of_factbase_facts.
Qed.

Lemma factmap_inv_empty pt : factmap_inv (mkFactMap pt ∅ []).
Proof.
  by apply (factmap_inv_init klt fact_type path_pred path_get
              klt_irrefl klt_trans klt_total pt []).
Qed.

Lemma factmaps_set_indexes pt (m' : FactMap) d :
  factmap_indexes m'
  = factmap_indexes (match factmaps_get pt d with
                     | Some m => m
                     | None => mkFactMap pt ∅ []
                     end) →
  concat ((λ pm, factmap_indexes pm.2) <$> factmaps_set pt m' d)
  = concat ((λ pm, factmap_indexes pm.2) <$> d).
Proof.
  induction d as [|[q w] d IH]; cbn [factmaps_set factmaps_get].
  - intros Hm. rewrite fmap_cons. cbn [concat snd]. rewrite Hm. done.
  - destruct (decide (pt = q)) as [->|Hne]; intros Hm.
    + rewrite !fmap_cons. cbn [concat snd]. by rewrite Hm.
    + rewrite !fmap_cons. cbn [concat snd]. by rewrite IH.
Qed.

(** [_add_fact] returns, keeps the fact base well formed and its indexes,
    and adds the fact to the facts. *)
Lemma factbase_add_fact_inv f fb :
  factbase_inv fb →
  ∃ fb', factbase_add_fact f fb = (fb', Ok ())
         ∧ factbase_inv fb'
         ∧ factbase_set fb' = {[f]} ∪ factbase_set fb
         ∧ factbase_indexes fb' = factbase_indexes fb.
Proof.
  intros Hinv. unfold factbase_add_fact.
  set (m := match factmaps_get (fact_type f) (fb_factmaps fb) with
            | Some m => m
            | None => mkFactMap (fact_type f) ∅ []
            end).
  assert (fm_ptype m = fact_type f ∧ factmap_inv m) as [Hpt Hm].
  { unfold m. destruct (factmaps_get _ _) eqn:Hget.
    - by apply (factbase_inv_get fb).
    - split; [done|apply factmap_inv_empty]. }
  destruct (factmap_add_inv klt fact_type path_pred path_get
              klt_irrefl klt_trans klt_total m f Hm (eq_sym Hpt))
    as (m' & -> & Hfacts & Hpt' & Hidx & Hm').
  eexists. split; [done|].
  assert (factbase_inv (mkFactBase (factmaps_set (fact_type f) m' (fb_factmaps fb))))
    as Hinv'.
  { split; simpl.
    - apply factmaps_set_NoDup, (fbi_keys _ Hinv).
    - apply factmaps_set_Forall; [apply (fbi_maps _ Hinv)|].
      simpl. split; [congruence|done]. }
  split; [done|]. split; [|by apply factmaps_set_indexes].
  apply set_eq. intros g. rewrite elem_of_union, elem_of_singleton.
  rewrite !elem_of_factbase_set by done. simpl.
  rewrite factmaps_get_set. destruct (decide (fact_type g = fact_type f)) as [Heq|Hne].
  - rewrite Heq. split.
    + intros (? & [= <-] & Hg). rewrite Hfacts in Hg.
      apply elem_of_union in Hg as [->%elem_of_singleton|Hg]; [by left|].
      right. unfold m in Hg. destruct (factmaps_get _ _) as [m0|]; [by exists m0|].
      by apply elem_of_empty in Hg.
    + intros Hg. exists m'. split; [done|]. rewrite Hfacts.
      destruct Hg as [->|(m0 & Hm0 & Hg)]; [set_solver|].
      unfold m. rewrite Hm0. set_solver.
  - split; [by right|]. intros [->|Hg]; done.
Qed.

Lemma factbase_add_facts_inv l fb :
  factbase_inv fb →
  ∃ fb', factbase_add_facts l fb = (fb', Ok ())
         ∧ factbase_inv fb'
         ∧ factbase_set fb' = list_to_set l ∪ factbase_set fb
         ∧ factbase_indexes fb' = factbase_indexes fb.
Proof.
  revert fb. induction l as [|f l IH]; intros fb Hinv; simpl.
  - exists fb. split; [done|]. split; [done|]. split; [set_solver|done].
  - destruct (factbase_add_fact_inv f fb Hinv) as (fb1 & -> & Hinv1 & Hset1 & Hidx1).
    destruct (IH fb1 Hinv1) as (fb' & -> & Hinv' & Hset' & Hidx').
    exists fb'. split; [done|]. split; [done|].
    split; [rewrite Hset', Hset1; set_solver|congruence].
Qed.

(** [_remove] never gets past the undefined name: [remove] and [discard]
    raise [NameError] whatever the fact and the fact base, which they leave
    as they are. *)
Lemma factbase_remove__name_error f b fb :
  factbase_remove_ f b fb = (fb, Raise NameError).
Proof. reflexivity. Qed.

(** The dictionary [grouped] of [_init]. *)
Definition grouped_inv (g : list (ptype * list path)) : Prop :=
  NoDup (fst <$> g)
  ∧ Forall (λ pf, pf.2 ≠ [] ∧ Forall (λ fp, path_pred fp = pf.1) pf.2) g.

Lemma grouped_append_keys pt fp g :
  fst <$> grouped_append pt fp g =
    if decide (pt ∈ fst <$> g) then fst <$> g else (fst <$> g) ++ [pt].
Proof.
  induction g as [|[q fps] g IH]; cbn [grouped_append].
  - done.
  - rewrite fmap_cons. cbn [fst].
    destruct (decide (pt = q)) as [->|Hne].
    + rewrite fmap_cons. cbn [fst]. rewrite decide_True; [done|by left].
    + rewrite fmap_cons, IH. cbn [fst].
      destruct (decide (pt ∈ fst <$> g)) as [Hin|Hnin].
      * rewrite decide_True; [done|by right].
      * rewrite decide_False; [done|]. by intros [?|?]%elem_of_cons.
Qed.

Lemma grouped_append_inv fp g :
  grouped_inv g → grouped_inv (grouped_append (path_pred fp) fp g).
Proof.
  intros [Hnd Hall]. split.
  - rewrite grouped_append_keys. case_decide; [done|].
    apply NoDup_app. split; [done|]. split; [|apply NoDup_singleton].
    by intros q Hq ->%list_elem_of_singleton.
  - clear Hnd. induction Hall as [|[q fps] g [Hne Hq] Hall IH]; cbn [grouped_append].
    + constructor; [|constructor]. simpl. split; [done|]. by constructor.
    + destruct (decide (path_pred fp = q)) as [<-|Hp].
      * constructor; [|done]. simpl in *. split.
        -- by destruct fps.
        -- apply Forall_app. split; [done|]. by constructor.
      * by constructor.
Qed.

Lemma grouped_append_paths pt fp g p :
  p ∈ concat (snd <$> grouped_append pt fp g) ↔ p = fp ∨ p ∈ concat (snd <$> g).
Proof.
  induction g as [|[q fps] g IH]; cbn [grouped_append].
  - simpl. rewrite list_elem_of_singleton.
    split; [by left|]. intros [?|?%elem_of_nil]; done.
  - destruct (decide (pt = q)) as [->|Hne]; rewrite !fmap_cons; simpl.
    + rewrite !elem_of_app, list_elem_of_singleton. tauto.
    + rewrite !elem_of_app, IH. tauto.
Qed.

Lemma grouped_fold indexes :
  let grouped := foldl (λ g fp, grouped_append (path_pred fp) fp g) [] indexes in
  grouped_inv grouped ∧ ∀ p, p ∈ concat (snd <$> grouped) ↔ p ∈ indexes.
Proof.
  simpl.
  assert (∀ g, grouped_inv g →
            grouped_inv (foldl (λ g fp, grouped_append (path_pred fp) fp g) g indexes)
            ∧ ∀ p, p ∈ concat (snd <$> foldl (λ g fp, grouped_append (path_pred fp) fp g)
                                              g indexes)
                   ↔ p ∈ concat (snd <$> g) ∨ p ∈ indexes) as Hfold.
  { induction indexes as [|fp indexes IH]; intros g Hg; simpl.
    - split; [done|]. intros p. split; [by left|]. by intros [?|?%elem_of_nil].
    - destruct (IH _ (grouped_append_inv fp g Hg)) as [Hinv Hp].
      split; [done|]. intros p. rewrite Hp, grouped_append_paths, elem_of_cons. tauto. }
  destruct (Hfold []) as [Hinv Hp].
  { split; [constructor|constructor]. }
  split; [done|]. intros p. rewrite Hp. simpl.
  split; [by intros [?%elem_of_nil|?]|by right].
Qed.

Lemma rmapM_ok {A B} (f : A → result B) (P : A → B → Prop) (l : list A) :
  Forall (λ x, ∃ y, f x = Ok y ∧ P x y) l →
  ∃ l', rmapM f l = Ok l' ∧ Forall2 P l l'.
Proof.
  induction 1 as [|x l (y & Hy & HP) Hl (l' & Hl' & Hall)]; simpl.
  - exists []. split; [done|constructor].
  - rewrite Hy. simpl. rewrite Hl'. simpl. exists (y :: l'). split; [done|by constructor].
Qed.

(** The keys of an ordered dictionary made of a list of items. *)
Lemma odict_of_keys {V} (items : list (path * V)) p :
  p ∈ fst <$> odict_of items ↔ p ∈ fst <$> items.
Proof.
  unfold odict_of.
  assert (∀ d : list (path * V),
            p ∈ fst <$> foldl (λ d pv, odict_set pv.1 pv.2 d) d items
            ↔ p ∈ fst <$> d ∨ p ∈ fst <$> items) as Hfold.
  { induction items as [|[q v] items IH]; intros d; simpl.
    - split; [by left|]. by intros [?|?%elem_of_nil].
    - rewrite IH, odict_set_keys, elem_of_cons. case_decide as Hq.
      + split; [tauto|]. intros [?|[->|?]]; tauto.
      + rewrite elem_of_app, list_elem_of_singleton. tauto. }
  rewrite Hfold. simpl. split; [by intros [?%elem_of_nil|?]|by right].
Qed.

Lemma factmap_init_indexes pt index (m : FactMap) :
  factmap_init path_pred pt index = Ok m →
  fm_ptype m = pt ∧ fm_allfacts m = ∅ ∧ ∀ p, p ∈ factmap_indexes m ↔ p ∈ index.
Proof.
  unfold factmap_init. destruct index as [|q index].
  - intros [= <-]. simpl. done.
  - destruct (forallb _ _); [|done]. intros [= <-]. simpl.
    split; [done|]. split; [done|]. intros p.
    change (p ∈ fst <$> odict_of ((λ p, (p, findex_init (K := K) (fact := fact) p))
                                   <$> q :: index)
            ↔ p ∈ q :: index).
    rewrite odict_of_keys.
    by rewrite <-list_fmap_compose, list_fmap_id.
Qed.

Lemma factmap_init_ok pt index :
  Forall (λ fp, path_pred fp = pt) index →
  ∃ m : FactMap, factmap_init path_pred pt index = Ok m.
Proof.
  intros Hall. unfold factmap_init. destruct index as [|q index]; [by eexists|].
  rewrite (proj2 (forallb_forall _ _)); [by eexists|].
  intros p Hp. apply bool_decide_eq_true. rewrite Forall_forall in Hall.
  apply Hall. by apply list_elem_of_In.
Qed.

Lemma elem_of_concat {A} (x : A) (ls : list (list A)) :
  x ∈ concat ls ↔ ∃ l, l ∈ ls ∧ x ∈ l.
Proof.
  induction ls as [|l ls IH]; simpl.
  - split; [by intros ?%elem_of_nil|by intros (? & ?%elem_of_nil & _)].
  - rewrite elem_of_app, IH. split.
    + intros [Hx|(l' & Hl' & Hx)]; [exists l; split; [left|done]|].
      exists l'. split; [by right|done].
    + intros (l' & [->|Hl']%elem_of_cons & Hx); [by left|]. right. by exists l'.
Qed.

(** The indexes of a fact base are on distinct paths. *)
Lemma factbase_indexes_NoDup fb :
  factbase_inv fb → NoDup (factbase_indexes fb).
Proof.
  intros Hinv. pose proof (fbi_keys _ Hinv) as Hnd.
  pose proof (fbi_maps _ Hinv) as Hall. unfold factbase_indexes.
  induction (fb_factmaps fb) as [|[q m] d IH]; [constructor|].
  apply NoDup_cons in Hnd as [Hq Hnd]. apply Forall_cons in Hall as [[Hpt Hm] Hall].
  rewrite fmap_cons. cbn [concat snd]. apply NoDup_app.
  split; [apply (fmi_paths _ _ _ _ _ Hm)|]. split; [|by apply IH].
  intros p Hp (ps & Hps & Hin)%elem_of_concat.
  apply list_elem_of_fmap in Hps as ([q' m'] & -> & Hqm). simpl in *.
  rewrite Forall_forall in Hall. destruct (Hall _ Hqm) as [Hpt' Hm']. simpl in *.
  assert (∀ (m0 : FactMap) p0, factmap_inv m0 → p0 ∈ factmap_indexes m0 →
            path_pred p0 = fm_ptype m0) as Hpred.
  { intros m0 p0 Hm0 (pi & -> & Hpi)%list_elem_of_fmap.
    pose proof (fmi_index _ _ _ _ _ Hm0) as Hix. rewrite Forall_forall in Hix.
    by destruct (Hix _ Hpi) as (_ & ? & _). }
  apply Hq. apply list_elem_of_fmap. exists (q', m'). split; [|done]. simpl.
  rewrite <-Hpt, <-Hpt'. rewrite <-(Hpred m p Hm Hp). by rewrite <-(Hpred m' p Hm' Hin).
Qed.

Lemma factbase_init_inv facts indexes :
  ∃ fb, factbase_init facts indexes = Ok fb
        ∧ factbase_inv fb
        ∧ factbase_set fb = list_to_set (default [] facts)
        ∧ ∀ p, p ∈ factbase_indexes fb ↔ p ∈ indexes.
Proof.
  unfold factbase_init.
  destruct (grouped_fold indexes) as [[Hnd Hall] Hpaths]. simpl in Hnd, Hall, Hpaths.
  set (grouped := foldl (λ g fp, grouped_append (path_pred fp) fp g) [] indexes) in *.
  destruct (rmapM_ok
              (λ pf : ptype * list path,
                 m ← factmap_init path_pred pf.1 pf.2; Ok (pf.1, m))
              (λ pf (pm : ptype * FactMap),
                 pm.1 = pf.1 ∧ fm_ptype pm.2 = pf.1 ∧ factmap_inv pm.2
                 ∧ fm_allfacts pm.2 = ∅
                 ∧ ∀ p, p ∈ factmap_indexes pm.2 ↔ p ∈ pf.2) grouped)
    as (factmaps & -> & Hmaps).
  { eapply Forall_impl; [apply Hall|]. intros [pt fps] [_ Hfps]. simpl in *.
    destruct (factmap_init_ok pt fps Hfps) as [m Hm]. exists (pt, m).
    rewrite Hm. split; [done|]. simpl. split; [done|].
    pose proof (factmap_inv_init klt fact_type path_pred path_get
                  klt_irrefl klt_trans klt_total pt fps m Hm) as Hinv.
    destruct (factmap_init_indexes pt fps m Hm) as (Hpt & Hfacts & Hix).
    done. }
  simpl.
  assert (fst <$> factmaps = fst <$> grouped
          ∧ Forall (λ pm, fm_ptype pm.2 = pm.1 ∧ factmap_inv pm.2) factmaps
          ∧ factbase_set (mkFactBase factmaps) = ∅
          ∧ ∀ p, p ∈ factbase_indexes (mkFactBase factmaps)
                 ↔ p ∈ concat (snd <$> grouped)) as (Hkeys & Hinvs & Hempty & Hidx).
  { unfold factbase_set, factbase_indexes. cbn [fb_factmaps]. clear Hnd Hall Hpaths.
    induction Hmaps as [|[pt fps] [q m] g d (Hq & Hpt & Hm & Hfacts & Hix) Hmaps IH];
      [by split_and!; try constructor|].
    destruct IH as (IH1 & IH2 & IH3 & IH4). cbn [fst snd] in *. subst q.
    split; [by rewrite !fmap_cons, IH1|]. split; [by constructor|].
    split.
    - rewrite fmap_cons. cbn [union_list foldr snd]. rewrite Hfacts, IH3. set_solver.
    - intros p. rewrite !fmap_cons. cbn [concat snd]. rewrite !elem_of_app, Hix, IH4. done. }
  assert (factbase_inv (mkFactBase factmaps)) as Hinv0.
  { split; simpl; [by rewrite Hkeys|done]. }
  destruct facts as [l|]; simpl.
  - destruct (factbase_add_facts_inv l _ Hinv0) as (fb & -> & Hinv & Hset & Hidx').
    exists fb. split; [done|]. split; [done|].
    split; [rewrite Hset, Hempty; set_solver|].
    intros p. by rewrite Hidx', Hidx, Hpaths.
  - eexists. split; [done|]. split; [done|]. split; [by rewrite Hempty|].
    intros p. by rewrite Hidx, Hpaths.
Qed.

Lemma factbase_clear_inv fb :
  factbase_inv fb →
  factbase_inv (factbase_clear fb)
  ∧ factbase_set (factbase_clear fb) = ∅
  ∧ factbase_indexes (factbase_clear fb) = factbase_indexes fb.
Proof.
  intros [Hnd Hall]. split; [split|split]; unfold factbase_clear; simpl.
  - by rewrite <-list_fmap_compose.
  - apply Forall_fmap. eapply Forall_impl; [apply Hall|].
    intros [q m] [Hpt Hm]. simpl in *. split; [done|].
    by apply (factmap_clear_inv klt fact_type path_pred path_get).
  - unfold factbase_set. simpl. rewrite <-list_fmap_compose.
    clear. induction (fb_factmaps fb) as [|[q m] d IH]; [done|].
    rewrite fmap_cons. cbn [union_list foldr]. rewrite IH. simpl. set_solver.
  - unfold factbase_indexes. simpl. rewrite <-list_fmap_compose. f_equal.
    apply list_fmap_ext. intros i [q m] _. simpl.
    unfold factmap_indexes, factmap_clear. simpl. by rewrite <-list_fmap_compose.
Qed.

(** C6: [remove] and [discard] raise [NameError] for every fact and every
    fact base, whether the fact is present or not, and remove nothing. *)
Theorem factbase_remove_raises_name_error f fb :
  factbase_remove f fb = (fb, Raise NameError)
  ∧ factbase_discard f fb = (fb, Raise NameError).
Proof. split; reflexivity. Qed.

(** The initialiser returns for every list of facts and every list of index
    paths: the fact base holds the facts given and no others, its length is
    the number of distinct facts, and its indexes are the paths given, each
    once. *)
Theorem factbase_init_holds_facts_and_indexes facts indexes :
  ∃ fb, factbase_init facts indexes = Ok fb
        ∧ (∀ f, factbase_contains f fb = true ↔ f ∈ default [] facts)
        ∧ factbase_len fb = size (list_to_set (default [] facts) : gset fact)
        ∧ (∀ p, p ∈ factbase_indexes fb ↔ p ∈ indexes)
        ∧ NoDup (factbase_indexes fb).
Proof.
  destruct (factbase_init_inv facts indexes) as (fb & Hfb & Hinv & Hset & Hidx).
  exists fb. split; [done|]. split; [|split; [|split]].
  - intros f. rewrite factbase_contains_spec, Hset by done. apply elem_of_list_to_set.
  - by rewrite factbase_len_size, Hset.
  - done.
  - by apply factbase_indexes_NoDup.
Qed.

(** Adding a fact to a fact base returns, makes the fact a member and
    changes the membership of no other fact; the length grows by one when
    the fact is new and not at all when it is there already, and the indexes
    stay the same. *)
Theorem factbase_add_fact_makes_member f fb :
  factbase_inv fb →
  ∃ fb', factbase_add_fact f fb = (fb', Ok ())
         ∧ factbase_inv fb'
         ∧ (∀ g, factbase_contains g fb' = true
                 ↔ g = f ∨ factbase_contains g fb = true)
         ∧ factbase_len fb'
           = (if factbase_contains f fb then factbase_len fb
              else S (factbase_len fb))
         ∧ factbase_indexes fb' = factbase_indexes fb.
Proof.
  intros Hinv.
  destruct (factbase_add_fact_inv f fb Hinv) as (fb' & Hfb' & Hinv' & Hset & Hidx).
  exists fb'. split; [done|]. split; [done|]. split; [|split; [|done]].
  - intros g. rewrite !factbase_contains_spec, Hset by done. set_solver.
  - rewrite !factbase_len_size, Hset by done.
    destruct (factbase_contains f fb) eqn:Hf.
    + apply factbase_contains_spec in Hf; [|done]. f_equal. set_solver.
    + rewrite size_union, size_singleton; [done|].
      intros g ->%elem_of_singleton Hg.
      apply factbase_contains_spec in Hg; [|done]. congruence.
Qed.

(** [facts()] lists each fact of the fact base once, [len] is the length of
    this list, and the fact base is true when it has a fact. *)
Theorem factbase_facts_lists_each_fact_once fb :
  factbase_inv fb →
  NoDup (factbase_facts fb)
  ∧ length (factbase_facts fb) = factbase_len fb
  ∧ (∀ g, g ∈ factbase_facts fb ↔ factbase_contains g fb = true)
  ∧ (factbase_bool fb = true ↔ factbase_facts fb ≠ []).
Proof.
  intros Hinv. pose proof (factbase_facts_NoDup fb Hinv) as Hnd.
  assert (length (factbase_facts fb) = factbase_len fb) as Hlen.
  { unfold factbase_facts, factbase_len.
    induction (fb_factmaps fb) as [|[q m] d IH]; [done|].
    rewrite !fmap_cons. cbn [concat sum_list sum_list_with snd].
    rewrite length_app, IH. done. }
  split; [done|]. split; [done|]. split.
  - intros g. by rewrite elem_of_factbase_facts, factbase_contains_spec.
  - unfold factbase_bool, factbase_facts. clear.
    induction (fb_factmaps fb) as [|[q m] d IH]; [done|].
    rewrite fmap_cons. cbn [existsb concat snd].
    rewrite orb_true_iff, IH, negb_true_iff, bool_decide_eq_false.
    destruct (elements (fm_allfacts m)) as [|g l] eqn:Hl; simpl.
    + apply elements_empty_iff, leibniz_equiv in Hl. rewrite Hl.
      split; [intros [?|?]; done|by right].
    + split; [done|]. intros _. left. intros Hm.
      by rewrite Hm, elements_empty in Hl.
Qed.

(** [==] of two fact bases is the equality of their facts: it is true when
    the two hold the same facts and only then, however the facts came in
    and whatever the indexes. *)
Theorem factbase_eq_is_extensional a b :
  factbase_inv a → factbase_inv b →
  factbase_eq a b = true ↔ ∀ f, factbase_contains f a = factbase_contains f b.
Proof.
  intros Ha Hb. unfold factbase_eq. rewrite !factbase_len_size by done.
  assert ((∀ f, factbase_contains f a = factbase_contains f b)
          ↔ factbase_set a = factbase_set b) as ->.
  { split.
    - intros Hf. apply set_eq. intros f.
      by rewrite <-!factbase_contains_spec, Hf by done.
    - intros Hset f. apply eq_true_iff_eq.
      by rewrite !factbase_contains_spec, Hset by done. }
  case_decide as Hsize.
  - split; [done|]. intros Hset. by rewrite Hset in Hsize.
  - rewrite forallb_forall. split.
    + intros Hall. apply set_subseteq_size_eq; [|lia].
      intros f Hf. apply factbase_contains_spec; [done|].
      apply Hall, list_elem_of_In. by apply elem_of_factbase_facts.
    + intros Hset f Hf%list_elem_of_In%elem_of_factbase_facts.
      apply factbase_contains_spec; [done|]. by rewrite <-Hset.
Qed.

(** [clear] empties every fact map and keeps the predicates and the indexes
    of the fact base. *)
Theorem factbase_clear_empties fb :
  factbase_inv fb →
  factbase_inv (factbase_clear fb)
  ∧ factbase_len (factbase_clear fb) = 0
  ∧ (∀ g, factbase_contains g (factbase_clear fb) = false)
  ∧ factbase_facts (factbase_clear fb) = []
  ∧ factbase_indexes (factbase_clear fb) = factbase_indexes fb
  ∧ fst <$> fb_factmaps (factbase_clear fb) = fst <$> fb_factmaps fb.
Proof.
  intros Hinv. destruct (factbase_clear_inv fb Hinv) as (Hinv' & Hset & Hidx).
  split; [done|]. split; [|split; [|split; [|split; [done|]]]].
  - rewrite factbase_len_size, Hset by done. apply size_empty.
  - intros g. apply not_true_is_false. rewrite factbase_contains_spec, Hset by done.
    apply not_elem_of_empty.
  - destruct (factbase_facts (factbase_clear fb)) as [|g l] eqn:Hl; [done|].
    assert (g ∈ factbase_set (factbase_clear fb)) as Hg.
    { apply elem_of_factbase_facts. rewrite Hl. left. }
    rewrite Hset in Hg. by apply elem_of_empty in Hg.
  - unfold factbase_clear. simpl. by rewrite <-list_fmap_compose.
Qed.

(** A select statement made by the fact base for a predicate type, with no
    condition, gets the facts of this type that the fact base holds; making
    the statement changes no fact of the fact base. *)
Theorem factbase_select_gets_facts_of_type pt fb args kwargs :
  factbase_inv fb →
  ∃ fb' m l,
    factbase_select pt fb = (fb', (m, select_init m))
    ∧ factbase_inv fb'
    ∧ (∀ f, factbase_contains f fb' = factbase_contains f fb)
    ∧ select_get klt fact_type path_pred path_get (select_init m) m args kwargs = Ok l
    ∧ ∀ f, f ∈ l ↔ factbase_contains f fb = true ∧ fact_type f = pt.
Proof.
  intros Hinv. unfold factbase_select.
  destruct (factmaps_get pt (fb_factmaps fb)) as [m|] eqn:Hget.
  - exists fb, m, (elements (fm_allfacts m)). split; [done|]. split; [done|].
    split; [done|]. split; [done|]. intros f. rewrite elem_of_elements.
    destruct (factbase_inv_get fb pt m Hinv Hget) as [Hpt Hm].
    unfold factbase_contains. split.
    + intros Hf. pose proof (fmi_typed _ _ _ _ _ Hm f Hf) as Hty.
      rewrite Hty, Hpt, Hget. split; [by apply bool_decide_eq_true|done].
    + intros [Hf <-]. rewrite Hget in Hf. by apply bool_decide_eq_true in Hf.
  - exists (mkFactBase (factmaps_set pt (mkFactMap pt ∅ []) (fb_factmaps fb))),
      (mkFactMap pt ∅ []), []. split; [done|].
    split; [|split; [|split; [done|]]].
    + split; simpl.
      * apply factmaps_set_NoDup, (fbi_keys _ Hinv).
      * apply factmaps_set_Forall; [apply (fbi_maps _ Hinv)|].
        split; [done|apply factmap_inv_empty].
    + intros f. unfold factbase_contains. simpl. rewrite factmaps_get_set.
      destruct (decide (fact_type f = pt)) as [->|]; [|done].
      rewrite Hget. apply bool_decide_eq_false, not_elem_of_empty.
    + intros f. split; [by intros ?%elem_of_nil|]. intros [Hf <-].
      unfold factbase_contains in Hf. by rewrite Hget in Hf.
Qed.

End FactBase.

(** *** The fact base on integer terms *)

(** The fact base [FactBase([F(3,1), F(5,2), G(1,1,5)], indexes=[F[0]])]. *)
Definition demo_base_facts : list int_fact := [F 3 1; F 5 2; G 1 1 5].

Definition demo_base :=
  match factbase_init Z.ltb int_fact_type int_path_pred int_path_get
          (Some demo_base_facts) [F_0] with
  | Ok fb => fb
  | Raise _ => mkFactBase []
  end.

Lemma demo_base_init :
  factbase_init Z.ltb int_fact_type int_path_pred int_path_get
    (Some demo_base_facts) [F_0] = Ok demo_base.
Proof.
  destruct (factbase_init_inv Z.ltb int_fact_type int_path_pred int_path_get
              zlt_irrefl zlt_trans zlt_total (Some demo_base_facts) [F_0])
    as (fb & Hfb & _).
  unfold demo_base. by rewrite Hfb.
Qed.

Lemma demo_base_inv :
  factbase_inv Z.ltb int_fact_type int_path_pred int_path_get demo_base.
Proof.
  destruct (factbase_init_inv Z.ltb int_fact_type int_path_pred int_path_get
              zlt_irrefl zlt_trans zlt_total (Some demo_base_facts) [F_0])
    as (fb & Hfb & Hinv & _).
  unfold demo_base. by rewrite Hfb.
Qed.

Lemma factbase_init_holds_facts_and_indexes_witness :
  ∃ fb, factbase_init Z.ltb int_fact_type int_path_pred int_path_get
          (Some [F 3 1; F 3 1; G 1 1 5]) [F_0; F_1; F_0] = Ok fb
        ∧ factbase_len fb = 2
        ∧ factbase_contains int_fact_type (F 3 1) fb = true
        ∧ NoDup (factbase_indexes fb).
Proof.
  destruct (factbase_init_holds_facts_and_indexes Z.ltb int_fact_type int_path_pred
              int_path_get zlt_irrefl zlt_trans zlt_total
              (Some [F 3 1; F 3 1; G 1 1 5]) [F_0; F_1; F_0])
    as (fb & Hfb & Hmem & Hlen & _ & Hnd).
  exists fb. split; [exact Hfb|]. split; [|split; [|exact Hnd]].
  - rewrite Hlen. vm_compute. reflexivity.
  - apply Hmem. left.
Defined.

Lemma factbase_add_fact_makes_member_witness :
  factbase_inv Z.ltb int_fact_type int_path_pred int_path_get demo_base
  ∧ ∃ fb', factbase_add_fact Z.ltb int_fact_type int_path_pred int_path_get
             (F 4 7) demo_base = (fb', Ok ())
           ∧ factbase_contains int_fact_type (F 4 7) fb' = true
           ∧ factbase_len fb' = 4.
Proof.
  split; [exact demo_base_inv|].
  destruct (factbase_add_fact_makes_member Z.ltb int_fact_type int_path_pred
              int_path_get zlt_irrefl zlt_trans zlt_total (F 4 7) demo_base
              demo_base_inv) as (fb' & Hfb' & _ & Hmem & Hlen & _).
  exists fb'. split; [exact Hfb'|]. split.
  - apply Hmem. by left.
  - rewrite Hlen. vm_compute. reflexivity.
Defined.

Lemma factbase_facts_lists_each_fact_once_witness :
  factbase_inv Z.ltb int_fact_type int_path_pred int_path_get demo_base
  ∧ NoDup (factbase_facts demo_base)
  ∧ length (factbase_facts demo_base) = 3.
Proof.
  split; [exact demo_base_inv|].
  destruct (factbase_facts_lists_each_fact_once Z.ltb int_fact_type int_path_pred
              int_path_get demo_base demo_base_inv) as (Hnd & Hlen & _).
  split; [exact Hnd|]. rewrite Hlen. vm_compute. reflexivity.
Defined.

(** The same facts given in another order and without an index. *)
Definition demo_base_plain :=
  match factbase_init Z.ltb int_fact_type int_path_pred int_path_get
          (Some [G 1 1 5; F 5 2; F 3 1]) [] with
  | Ok fb => fb
  | Raise _ => mkFactBase []
  end.

Lemma demo_base_plain_inv :
  factbase_inv Z.ltb int_fact_type int_path_pred int_path_get demo_base_plain.
Proof.
  destruct (factbase_init_inv Z.ltb int_fact_type int_path_pred int_path_get
              zlt_irrefl zlt_trans zlt_total (Some [G 1 1 5; F 5 2; F 3 1]) [])
    as (fb & Hfb & Hinv & _).
  unfold demo_base_plain. by rewrite Hfb.
Qed.

Lemma factbase_eq_is_extensional_witness :
  factbase_inv Z.ltb int_fact_type int_path_pred int_path_get demo_base
  ∧ factbase_inv Z.ltb int_fact_type int_path_pred int_path_get demo_base_plain
  ∧ factbase_eq int_fact_type demo_base demo_base_plain = true
  ∧ ∀ f, factbase_contains int_fact_type f demo_base
         = factbase_contains int_fact_type f demo_base_plain.
Proof.
  split; [exact demo_base_inv|]. split; [exact demo_base_plain_inv|].
  assert (factbase_eq int_fact_type demo_base demo_base_plain = true) as Heq
    by (vm_compute; reflexivity).
  split; [exact Heq|].
  apply (factbase_eq_is_extensional Z.ltb int_fact_type int_path_pred int_path_get
           demo_base demo_base_plain demo_base_inv demo_base_plain_inv).
  exact Heq.
Defined.

Lemma factbase_clear_empties_witness :
  factbase_inv Z.ltb int_fact_type int_path_pred int_path_get demo_base
  ∧ factbase_len (factbase_clear demo_base) = 0
  ∧ factbase_indexes (factbase_clear demo_base) = [F_0].
Proof.
  split; [exact demo_base_inv|].
  destruct (factbase_clear_empties Z.ltb int_fact_type int_path_pred int_path_get
              zlt_irrefl zlt_trans zlt_total demo_base demo_base_inv)
    as (_ & Hlen & _ & _ & Hidx & _).
  split; [exact Hlen|]. rewrite Hidx. vm_compute. reflexivity.
Defined.

Lemma factbase_select_gets_facts_of_type_witness :
  factbase_inv Z.ltb int_fact_type int_path_pred int_path_get demo_base
  ∧ ∃ fb' m l,
      factbase_select "F"%string demo_base = (fb', (m, select_init m))
      ∧ select_get Z.ltb int_fact_type int_path_pred int_path_get
          (select_init m) m [] ∅ = Ok l
      ∧ F 3 1 ∈ l ∧ G 1 1 5 ∉ l.
Proof.
  split; [exact demo_base_inv|].
  destruct (factbase_select_gets_facts_of_type Z.ltb int_fact_type int_path_pred
              int_path_get zlt_irrefl zlt_trans zlt_total "F"%string demo_base [] ∅
              demo_base_inv) as (fb' & m & l & Hsel & _ & _ & Hget & Hl).
  exists fb', m, l. split; [exact Hsel|]. split; [exact Hget|]. split.
  - apply Hl. split; [vm_compute; reflexivity|reflexivity].
  - intros [_ Hty]%Hl. discriminate Hty.
Defined.

(** ** [factbase.py]: the symmetric difference of two fact bases *)

(** The fact base of [orm/factbase.py] keeps its fact maps in the dictionary
    [_factmaps]; the fact maps are objects of the class [FactMap] of
    [factcontainers], used here through the three methods the two functions
    call. *)
Section SymmetricDifference.

Context {ptype : Type} `{Countable ptype} {FactMap : Type}.
Variable fm_symmetric_difference : FactMap → FactMap → FactMap.
Variable fm_symmetric_difference_update : FactMap → FactMap → FactMap.
Variable fm_copy : FactMap → FactMap.

(** The body of the loop of [FactBase.symmetric_difference] for a predicate
    [p], on the dictionary of the new fact base.  When [p] is a key of
    [self] only, the copy of the fact map of [self] is stored, and the next
    statement, which is not under an [else], looks [p] up in [other]. *)
Definition symmetric_difference_step (self other fb : gmap ptype FactMap) (p : ptype)
  : result (gmap ptype FactMap) :=
  match self !! p, other !! p with
  | Some a, Some b => Ok (<[p := fm_symmetric_difference a b]> fb)
  | Some a, None => Raise KeyError
  | None, Some b => Ok (<[p := fm_copy b]> fb)
  | None, None => Raise KeyError
  end.

Fixpoint symmetric_difference_loop (self other : gmap ptype FactMap)
    (predicates : list ptype) (fb : gmap ptype FactMap)
  : result (gmap ptype FactMap) :=
  match predicates with
  | [] => Ok fb
  | p :: r =>
      fb' ← symmetric_difference_step self other fb p;
      symmetric_difference_loop self other r fb'
  end.

(** [FactBase.symmetric_difference(other)], and [FactBase.__xor__], of two
    fact bases given by their dictionaries: the dictionary of the fact base
    returned. *)
Definition symmetric_difference (self other : gmap ptype FactMap)
  : result (gmap ptype FactMap) :=
  symmetric_difference_loop self other (elements (dom self ∪ dom other)) ∅.

Definition xor (self other : gmap ptype FactMap) : result (gmap ptype FactMap) :=
  symmetric_difference self other.

(** The body of the loop of [FactBase.symmetric_difference_update], on the
    dictionary of [self]. *)
Definition symmetric_difference_update_step (other self : gmap ptype FactMap)
    (p : ptype) : gmap ptype FactMap :=
  match self !! p, other !! p with
  | Some a, Some b => <[p := fm_symmetric_difference_update a b]> self
  | _, Some b => <[p := fm_copy b]> self
  | _, None => self
  end.

(** [FactBase.symmetric_difference_update(other)]: the dictionary of [self]
    after the call. *)
Definition symmetric_difference_update (self other : gmap ptype FactMap)
  : gmap ptype FactMap :=
  foldl (symmetric_difference_update_step other) self
        (elements (dom self ∪ dom other)).

(** *** Properties *)

Lemma symmetric_difference_loop_ok self other predicates fb :
  (∀ p, p ∈ predicates → is_Some (other !! p)) →
  ∃ fb', symmetric_difference_loop self other predicates fb = Ok fb'
         ∧ ∀ q, fb' !! q =
                if decide (q ∈ predicates)
                then b ← other !! q;
                     Some (match self !! q with
                           | Some a => fm_symmetric_difference a b
                           | None => fm_copy b
                           end)
                else fb !! q.
Proof.
  revert fb. induction predicates as [|p r IH]; intros fb Hall;
    cbn [symmetric_difference_loop].
  - exists fb. split; [done|]. intros q. rewrite decide_False; [done|apply not_elem_of_nil].
  - destruct (Hall p) as [b Hb]; [left|].
    assert (∃ fb1, symmetric_difference_step self other fb p = Ok fb1
                   ∧ fb1 = <[p := match self !! p with
                                  | Some a => fm_symmetric_difference a b
                                  | None => fm_copy b
                                  end]> fb) as (fb1 & -> & ->).
    { unfold symmetric_difference_step. rewrite Hb.
      destruct (self !! p); by eexists. }
    simpl. destruct (IH (<[p := match self !! p with
                                 | Some a => fm_symmetric_difference a b
                                 | None => fm_copy b
                                 end]> fb)) as (fb' & -> & Hfb').
    { intros q Hq. apply Hall. by right. }
    exists fb'. split; [done|]. intros q. rewrite Hfb'.
    destruct (decide (q ∈ r)) as [Hr|Hr].
    + rewrite decide_True; [done|by right].
    + destruct (decide (q = p)) as [->|Hqp].
      * rewrite decide_True by left. rewrite lookup_insert_eq, Hb. done.
      * rewrite decide_False by (by intros [?|?]%elem_of_cons).
        by rewrite lookup_insert_ne.
Qed.

Lemma symmetric_difference_loop_raises self other predicates fb p :
  p ∈ predicates → other !! p = None →
  symmetric_difference_loop self other predicates fb = Raise KeyError.
Proof.
  revert fb. induction predicates as [|q r IH]; intros fb Hp Hnone;
    cbn [symmetric_difference_loop].
  - by apply elem_of_nil in Hp.
  - unfold symmetric_difference_step at 1.
    destruct (decide (q = p)) as [->|Hqp].
    + rewrite Hnone. by destruct (self !! p).
    + apply elem_of_cons in Hp as [->|Hp]; [done|].
      destruct (self !! q), (other !! q); simpl; try done; by apply IH.
Qed.

Lemma symmetric_difference_update_fold other predicates self q :
  NoDup predicates →
  foldl (symmetric_difference_update_step other) self predicates !! q =
    if decide (q ∈ predicates)
    then match self !! q, other !! q with
         | Some a, Some b => Some (fm_symmetric_difference_update a b)
         | _, Some b => Some (fm_copy b)
         | oa, None => oa
         end
    else self !! q.
Proof.
  revert self. induction predicates as [|p r IH]; intros self Hnd; cbn [foldl].
  - rewrite decide_False; [done|apply not_elem_of_nil].
  - apply NoDup_cons in Hnd as [Hp Hnd]. rewrite IH by done.
    assert (∀ q', q' ≠ p → symmetric_difference_update_step other self p !! q'
                             = self !! q') as Hother.
    { intros q' Hq'. unfold symmetric_difference_update_step.
      destruct (self !! p), (other !! p); by rewrite ?lookup_insert_ne. }
    destruct (decide (q ∈ r)) as [Hr|Hr].
    + rewrite decide_True by (by right).
      rewrite Hother; [done|]. by intros ->.
    + destruct (decide (q = p)) as [->|Hqp].
      * rewrite decide_True by left. unfold symmetric_difference_update_step.
        destruct (self !! p) eqn:Hs, (other !! p) eqn:Ho;
          by rewrite ?lookup_insert_eq.
      * rewrite decide_False by (by intros [?|?]%elem_of_cons). by apply Hother.
Qed.

(** [symmetric_difference] returns when every predicate of [self] is a
    predicate of [other], and raises [KeyError] otherwise.  When it returns,
    the fact base has the predicates of [other]: the symmetric difference of
    the two fact maps for a predicate of both, the copy of the fact map of
    [other] for a predicate of [other] only. *)
Theorem symmetric_difference_returns_iff_keys_included self other :
  symmetric_difference self other =
    if decide (dom self ⊆ dom other)
    then Ok (merge (λ oa ob,
                      b ← ob;
                      Some (match oa with
                            | Some a => fm_symmetric_difference a b
                            | None => fm_copy b
                            end)) self other)
    else Raise KeyError.
Proof.
  unfold symmetric_difference. case_decide as Hdom.
  - destruct (symmetric_difference_loop_ok self other
                (elements (dom self ∪ dom other)) ∅) as (fb & -> & Hfb).
    { intros p Hp%elem_of_elements. apply elem_of_dom. set_solver. }
    f_equal. apply map_eq. intros q. rewrite Hfb, lookup_merge, lookup_empty.
    case_decide as Hq.
    + by destruct (self !! q), (other !! q).
    + rewrite elem_of_elements, elem_of_union, !elem_of_dom in Hq.
      destruct (self !! q) eqn:Hs, (other !! q) eqn:Ho; try done;
        destruct Hq; eauto.
  - destruct (set_choose_L (dom self ∖ dom other)) as (p & Hp).
    { intros Hempty. apply Hdom. set_solver. }
    apply elem_of_difference in Hp as [Hp Hnp].
    apply (symmetric_difference_loop_raises self other _ ∅ p).
    + apply elem_of_elements. set_solver.
    + by apply not_elem_of_dom.
Qed.

(** [symmetric_difference_update] never raises, and handles the predicates
    of one fact base only: a predicate of [self] only keeps its fact map, a
    predicate of [other] only gets the copy of the fact map of [other], and a
    predicate of both has its fact map updated. *)
Theorem symmetric_difference_update_merges self other :
  symmetric_difference_update self other =
    merge (λ oa ob,
             match oa, ob with
             | Some a, Some b => Some (fm_symmetric_difference_update a b)
             | _, Some b => Some (fm_copy b)
             | oa, None => oa
             end) self other.
Proof.
  apply map_eq. intros q. unfold symmetric_difference_update.
  rewrite symmetric_difference_update_fold by apply NoDup_elements.
  rewrite lookup_merge. case_decide as Hq.
  - by destruct (self !! q), (other !! q).
  - rewrite elem_of_elements, elem_of_union, !elem_of_dom in Hq.
    destruct (self !! q) eqn:Hs, (other !! q) eqn:Ho; try done;
      destruct Hq; eauto.
Qed.

End SymmetricDifference.

(** The facts of a fact map as a set.  Modelled from the spec: the set
    operations of a fact base are defined per type over the underlying fact
    sets, so that the symmetric difference of two fact maps is that of their
    fact sets and the copy of a fact map has its facts. *)
Definition factset_symmetric_difference (a b : gset int_fact) : gset int_fact :=
  (a ∖ b) ∪ (b ∖ a).

Definition factset_copy (a : gset int_fact) : gset int_fact := a.

(** C9, at a predicate that only the left fact base has: for
    [a = FactBase([F(3,1)])] and the empty fact base [b], [a ^ b] raises
    [KeyError], and so it does when [b] has facts of another predicate only.
    The other way round the call returns, and the update in place returns in
    both cases. *)
Theorem symmetric_difference_raises_on_left_only_predicate :
  symmetric_difference factset_symmetric_difference factset_copy
    {["F"%string := {[F 3 1]}]} ∅ = Raise KeyError
  ∧ xor factset_symmetric_difference factset_copy
      {["F"%string := {[F 3 1]}]} {["G"%string := {[G 1 1 5]}]} = Raise KeyError
  ∧ symmetric_difference factset_symmetric_difference factset_copy
      ∅ {["F"%string := {[F 3 1]}]} = Ok {["F"%string := {[F 3 1]}]}
  ∧ symmetric_difference factset_symmetric_difference factset_copy
      {["F"%string := {[F 3 1; F 5 2]}]} {["F"%string := {[F 5 2]}]}
    = Ok {["F"%string := {[F 3 1]}]}
  ∧ symmetric_difference_update factset_symmetric_difference factset_copy
      {["F"%string := {[F 3 1]}]} {["G"%string := {[G 1 1 5]}]}
    = {["F"%string := {[F 3 1]}; "G"%string := {[G 1 1 5]}]}.
Proof. split_and!; apply (bool_decide_unpack _); vm_compute; exact I. Qed.

(** ** Complex terms and tuples in a comparison *)

(** A class of complex terms (a subclass of [NonLogicalSymbol]): the class,
    the name of its predicate ([meta.name]) and the number of its fields
    ([len(meta)]).  The fields have no default value and none of them is
    itself complex, so that [_preprocess_field_input] returns its input. *)
Record nls_class := mkNlsClass {
  nls_class_name : string;
  nls_meta_name : string;
  nls_arity : nat
}.

Global Instance nls_class_eq_dec : EqDecision nls_class.
Proof. solve_decision. Defined.

(** The values a comparison meets: integers, strings, tuples and complex
    terms, which hold the values of their fields. *)
#[warnings="-register-all"]
Inductive pyval :=
| PyInt (z : Z)
| PyStr (s : string)
| PyTuple (items : list pyval)
| PyTerm (cls : nls_class) (fields : list pyval).

(** [type(v)]. *)
Inductive pytype :=
| TypeInt
| TypeStr
| TypeTuple
| TypeClass (cls : nls_class).

Global Instance pytype_eq_dec : EqDecision pytype.
Proof. solve_decision. Defined.

Definition type_of (v : pyval) : pytype :=
  match v with
  | PyInt _ => TypeInt
  | PyStr _ => TypeStr
  | PyTuple _ => TypeTuple
  | PyTerm cls _ => TypeClass cls
  end.

(** The values [*v] unpacks: an integer is not iterable; a string gives its
    characters; a complex term, which has [__getitem__] and [__len__], gives
    the values of its fields. *)
Fixpoint characters (s : string) : list pyval :=
  match s with
  | EmptyString => []
  | String c r => PyStr (String c EmptyString) :: characters r
  end.

Definition unpack (v : pyval) : result (list pyval) :=
  match v with
  | PyInt _ => Raise TypeError
  | PyStr s => Ok (characters s)
  | PyTuple items => Ok items
  | PyTerm _ fields => Ok fields
  end.

Section ComplexTerms.

(** [_generate_raw], which builds the symbol of the solver from the values
    of the fields and raises when the library refuses one of them; and the
    comparison of two Python values by one of the six operators. *)
Variable generate_raw : nls_class → list pyval → result ().
Variable py_compop : compop → pyval → pyval → result bool.

(** [_nls_constructor(self, *args)] without keyword arguments: by position
    when there are arguments, else by keyword, where each field needs a
    default value. *)
Definition nls_constructor (cls : nls_class) (args : list pyval) : result pyval :=
  if decide (0 < length args) then
    if decide (length args ≠ nls_arity cls)
    then Raise (ValueError "Expected {} arguments but {} given")
    else _ ← generate_raw cls args; Ok (PyTerm cls args)
  else
    if decide (0 < nls_arity cls)
    then Raise (ValueError "Unspecified term {} has no default value")
    else _ ← generate_raw cls []; Ok (PyTerm cls [])
  .

(** [FieldQueryComparator.__call__] from the values [v1] and [v2] of its two
    arguments on: the conversion of [v2], in which every exception of the
    constructor becomes a [TypeError]. *)
Definition fqc_convert (v1 v2 : pyval) : result pyval :=
  if decide (type_of v1 ≠ type_of v2) then
    match v1 with
    | PyTerm cls _ =>
        if (match v2 with
            | PyTerm cls2 _ => bool_decide (nls_meta_name cls ≠ nls_meta_name cls2)
            | _ => false
            end)
        then Raise TypeError
        else match args ← unpack v2; nls_constructor cls args with
             | Ok t => Ok t
             | Raise _ => Raise TypeError
             end
    | _ => Ok v2
    end
  else Ok v2.

Definition fqc_compare (op : compop) (v1 v2 : pyval) : result bool :=
  v2' ← fqc_convert v1 v2; py_compop op v1 v2'.

(** [_Select.get], the value looked up in the index: [cmplx] is the class of
    the indexed field when the field is complex; when it is and the value
    is a tuple, the value becomes the term that the class makes of the
    items of the tuple, outside any [try]. *)
Definition index_lookup_value (cmplx : option nls_class) (value : pyval) : result pyval :=
  match cmplx, value with
  | Some cls, PyTuple items => nls_constructor cls items
  | _, _ => Ok value
  end.

(** The conversion of the right-hand value.  For a left value that is a
    complex term of the class [cls]: a tuple on the right from which the constructor of
    [cls] makes a term is replaced by this term, in the evaluation of the
    comparison and in the lookup in an index on a field of this class alike;
    when the constructor raises, the evaluation raises [TypeError] whereas
    the lookup raises what the constructor raised; a complex term of
    another predicate name on the right makes the evaluation raise
    [TypeError], and so does an integer. *)
Theorem tuple_is_converted_to_complex_term op cls fields items :
  let v1 := PyTerm cls fields in
  (∀ t, nls_constructor cls items = Ok t →
        fqc_compare op v1 (PyTuple items) = py_compop op v1 t
        ∧ index_lookup_value (Some cls) (PyTuple items) = Ok t)
  ∧ (∀ e, nls_constructor cls items = Raise e →
          fqc_compare op v1 (PyTuple items) = Raise TypeError
          ∧ index_lookup_value (Some cls) (PyTuple items) = Raise e)
  ∧ (∀ cls2 fields2, nls_meta_name cls ≠ nls_meta_name cls2 →
                     fqc_compare op v1 (PyTerm cls2 fields2) = Raise TypeError)
  ∧ (∀ z, fqc_compare op v1 (PyInt z) = Raise TypeError).
Proof.
  intros v1. unfold v1, fqc_compare, fqc_convert.
  split; [|split; [|split]].
  - intros t Ht. cbn [type_of unpack index_lookup_value].
    rewrite decide_True by done. cbn. by rewrite Ht.
  - intros e He. cbn [type_of unpack index_lookup_value].
    rewrite decide_True by done. cbn. by rewrite He.
  - intros cls2 fields2 Hname. cbn [type_of].
    rewrite decide_True by (intros [= ->]; done).
    by rewrite bool_decide_true.
  - intros z. cbn [type_of unpack]. by rewrite decide_True.
Qed.

End ComplexTerms.

(** A class of pairs, a term of it, and a solver library that takes every
    value. *)
Definition pair_class : nls_class := mkNlsClass "Pair" "pair" 2.
Definition any_raw (cls : nls_class) (args : list pyval) : result () := Ok ().

(** C10, at a tuple the constructor refuses: for the comparison of a field
    of pairs with the tuple [(1, 2, 3)], the evaluation of the comparison,
    which the scan runs, raises [TypeError], whereas the lookup in an index
    on this field, which converts the tuple under no [try], raises the
    [ValueError] of the constructor.  A tuple of two values is converted to
    the same pair by both. *)
Theorem index_lookup_raises_constructor_error py_compop op :
  nls_constructor any_raw pair_class [PyInt 1; PyInt 2; PyInt 3]
  = Raise (ValueError "Expected {} arguments but {} given")
  ∧ fqc_compare any_raw py_compop op (PyTerm pair_class [PyInt 1; PyInt 2])
      (PyTuple [PyInt 1; PyInt 2; PyInt 3])
    = Raise TypeError
  ∧ index_lookup_value any_raw (Some pair_class) (PyTuple [PyInt 1; PyInt 2; PyInt 3])
    = Raise (ValueError "Expected {} arguments but {} given")
  ∧ index_lookup_value any_raw (Some pair_class) (PyTuple [PyInt 1; PyInt 2; PyInt 3])
    ≠ Raise TypeError
  ∧ fqc_compare any_raw py_compop op (PyTerm pair_class [PyInt 1; PyInt 2])
      (PyTuple [PyInt 1; PyInt 2])
    = py_compop op (PyTerm pair_class [PyInt 1; PyInt 2])
        (PyTerm pair_class [PyInt 1; PyInt 2])
  ∧ index_lookup_value any_raw (Some pair_class) (PyTuple [PyInt 1; PyInt 2])
    = Ok (PyTerm pair_class [PyInt 1; PyInt 2]).
Proof. split_and!; try reflexivity. discriminate. Qed.

(** ** The engine on the integer terms, continued *)

(** The index of [demo_map] on the first field. *)
Definition demo_index : FactIndex (K := Z) (fact := int_fact) (path := int_path) :=
  match factmap_get_factindex demo_map F_0 with
  | Ok ix => ix
  | Raise _ => findex_init F_0
  end.

Lemma demo_index_inv :
  fi_fpspec demo_index = F_0
  ∧ index_inv Z.ltb int_path_get (fm_allfacts demo_map) demo_index.
Proof.
  destruct (factmap_get_factindex_inv Z.ltb int_fact_type int_path_pred int_path_get
              demo_map F_0 demo_map_inv) as (ix & Hix & Hp & Hinv).
  { apply (bool_decide_unpack _). vm_compute. exact I. }
  unfold demo_index. by rewrite Hix.
Qed.

Lemma demo_map_facts :
  F 3 1 ∈ fm_allfacts demo_map ∧ F 4 7 ∉ fm_allfacts demo_map.
Proof. split; apply (bool_decide_unpack _); vm_compute; exact I. Qed.

Lemma findex_add_keeps_keys_sorted_witness :
  index_inv Z.ltb int_path_get (fm_allfacts demo_map) demo_index
  ∧ int_fact_type (F 4 7) = int_path_pred (fi_fpspec demo_index)
  ∧ ∃ ix', findex_add Z.ltb int_fact_type int_path_pred int_path_get (F 4 7) demo_index
           = (ix', Ok ())
           ∧ 4%Z ∈ fi_keylist ix'
           ∧ ksorted Z.ltb (fi_keylist ix').
Proof.
  destruct demo_index_inv as [Hp Hinv].
  assert (int_fact_type (F 4 7) = int_path_pred (fi_fpspec demo_index)) as Hty
    by (by rewrite Hp).
  split; [exact Hinv|]. split; [exact Hty|].
  destruct (findex_add_keeps_keys_sorted Z.ltb int_fact_type int_path_pred int_path_get
              zlt_irrefl zlt_trans zlt_total (fm_allfacts demo_map) demo_index (F 4 7)
              Hinv) as [Hadd _].
  destruct (Hadd Hty) as (ix' & Hix' & _ & Hsorted & Hkeys & _).
  exists ix'. split; [exact Hix'|]. split; [|exact Hsorted].
  apply Hkeys. left. by rewrite Hp.
Defined.

Lemma findex_remove_keeps_keys_sorted_witness :
  index_inv Z.ltb int_path_get (fm_allfacts demo_map) demo_index
  ∧ int_fact_type (F 3 1) = int_path_pred (fi_fpspec demo_index)
  ∧ (∃ ix', findex_remove Z.ltb int_fact_type int_path_pred int_path_get
              (F 3 1) true demo_index = (ix', Ok ())
            ∧ ksorted Z.ltb (fi_keylist ix'))
  ∧ findex_remove Z.ltb int_fact_type int_path_pred int_path_get
      (F 4 7) true demo_index = (demo_index, Raise KeyError).
Proof.
  destruct demo_index_inv as [Hp Hinv]. destruct demo_map_facts as [Hin Hout].
  assert (∀ a b, int_fact_type (F a b) = int_path_pred (fi_fpspec demo_index)) as Hty
    by (intros a b; by rewrite Hp).
  split; [exact Hinv|]. split; [exact (Hty _ _)|]. split.
  - destruct (findex_remove_keeps_keys_sorted Z.ltb int_fact_type int_path_pred
                int_path_get zlt_irrefl zlt_trans zlt_total (fm_allfacts demo_map)
                demo_index (F 3 1) Hinv (Hty _ _)) as [Hrm _].
    destruct (Hrm Hin true) as (ix' & Hix' & _ & Hsorted & _).
    exists ix'. split; [exact Hix'|exact Hsorted].
  - destruct (findex_remove_keeps_keys_sorted Z.ltb int_fact_type int_path_pred
                int_path_get zlt_irrefl zlt_trans zlt_total (fm_allfacts demo_map)
                demo_index (F 4 7) Hinv (Hty _ _)) as [_ Habs].
    apply (Habs Hout).
Defined.

Lemma findex_find_is_sound_witness :
  index_inv Z.ltb int_path_get (fm_allfacts demo_map) demo_index
  ∧ ∃ found, findex_find Z.ltb demo_index OpLe 3%Z = Ok found
             ∧ F 3 1 ∈ found ∧ F 5 2 ∉ found.
Proof.
  destruct demo_index_inv as [Hp Hinv]. destruct demo_map_facts as [Hin _].
  split; [exact Hinv|].
  destruct (findex_find_is_sound Z.ltb int_fact_type int_path_get
              zlt_irrefl zlt_trans zlt_total (fm_allfacts demo_map) demo_index
              OpLe 3%Z Hinv) as (found & Hfind & Hsound & Hcomplete & _ & Hexact).
  exists found. split; [exact Hfind|]. split.
  - apply Hcomplete; [|exact Hin|by rewrite Hp].
    apply Hexact. apply (bool_decide_unpack _). vm_compute. exact I.
  - intros [_ Hop]%Hsound. rewrite Hp in Hop. vm_compute in Hop. discriminate Hop.
Defined.

Lemma findex_add_then_remove_restores_witness :
  index_inv Z.ltb int_path_get (fm_allfacts demo_map) demo_index
  ∧ int_fact_type (F 4 7) = int_path_pred (fi_fpspec demo_index)
  ∧ (F 4 7 ∉ fm_allfacts demo_map)
  ∧ ∃ ix', findex_add Z.ltb int_fact_type int_path_pred int_path_get (F 4 7) demo_index
           = (ix', Ok ())
           ∧ findex_remove Z.ltb int_fact_type int_path_pred int_path_get
               (F 4 7) true ix' = (demo_index, Ok ()).
Proof.
  destruct demo_index_inv as [Hp Hinv]. destruct demo_map_facts as [_ Hout].
  assert (int_fact_type (F 4 7) = int_path_pred (fi_fpspec demo_index)) as Hty
    by (by rewrite Hp).
  split; [exact Hinv|]. split; [exact Hty|]. split; [exact Hout|].
  exact (findex_add_then_remove_restores Z.ltb int_fact_type int_path_pred int_path_get
           zlt_irrefl zlt_trans zlt_total (fm_allfacts demo_map) demo_index (F 4 7)
           true Hinv Hty Hout).
Defined.

Lemma factmap_add_then_remove_restores_witness :
  factmap_inv Z.ltb int_fact_type int_path_pred int_path_get demo_map
  ∧ int_fact_type (F 4 7) = fm_ptype demo_map
  ∧ (F 4 7 ∉ fm_allfacts demo_map)
  ∧ ∃ m', factmap_add Z.ltb int_fact_type int_path_pred int_path_get (F 4 7) demo_map
          = (m', Ok ())
          ∧ F 4 7 ∈ fm_allfacts m'
          ∧ factmap_remove Z.ltb int_fact_type int_path_pred int_path_get
              (F 4 7) false m' = (demo_map, Ok ()).
Proof.
  destruct demo_map_facts as [_ Hout].
  assert (int_fact_type (F 4 7) = fm_ptype demo_map) as Hty by (vm_compute; reflexivity).
  split; [exact demo_map_inv|]. split; [exact Hty|]. split; [exact Hout|].
  exact (factmap_add_then_remove_restores Z.ltb int_fact_type int_path_pred int_path_get
           zlt_irrefl zlt_trans zlt_total demo_map (F 4 7) false demo_map_inv Hty Hout).
Defined.

Lemma delete_without_where_clears_witness :
  factmap_inv Z.ltb int_fact_type int_path_pred int_path_get demo_map
  ∧ (delete_execute Z.ltb int_fact_type int_path_pred int_path_get
       (delete_init demo_map) demo_map [] ∅).2 = Ok 2
  ∧ factmap_indexes (factmap_clear demo_map) = [F_0].
Proof.
  split; [exact demo_map_inv|].
  destruct (delete_without_where_clears Z.ltb int_fact_type int_path_pred int_path_get
              zlt_irrefl zlt_trans zlt_total demo_map [] ∅ demo_map_inv)
    as (Hexec & _ & Hidx & _).
  split.
  - rewrite Hexec. apply (bool_decide_unpack _). vm_compute. exact I.
  - rewrite Hidx. vm_compute. reflexivity.
Defined.

Lemma select_through_index_agrees_with_scan_witness :
  factmap_inv Z.ltb int_fact_type int_path_pred int_path_get demo_map
  ∧ select_where [gt_ph1] (select_init demo_map) = Ok (demo_select demo_map)
  ∧ select_get Z.ltb int_fact_type int_path_pred int_path_get
      (mkSelect (sel_index_priority (demo_select demo_map))
                (sel_where (demo_select demo_map)) None
                (sel_key (demo_select demo_map)))
      demo_map [4%Z] ∅ = Ok [F 5 2]
  ∧ ∃ nk found,
      select_get Z.ltb int_fact_type int_path_pred int_path_get
        (demo_select demo_map) demo_map [4%Z] ∅ = Ok found
      ∧ select_misses Z.ltb (demo_select demo_map) demo_map [4%Z] nk = false
      ∧ F 5 2 ∈ found.
Proof.
  assert (select_where [gt_ph1] (select_init demo_map) = Ok (demo_select demo_map))
    as Hs by (vm_compute; reflexivity).
  assert (select_get Z.ltb int_fact_type int_path_pred int_path_get
            (mkSelect (sel_index_priority (demo_select demo_map))
                      (sel_where (demo_select demo_map)) None
                      (sel_key (demo_select demo_map)))
            demo_map [4%Z] ∅ = Ok [F 5 2]) as Hscan by (vm_compute; reflexivity).
  split; [exact demo_map_inv|]. split; [exact Hs|]. split; [exact Hscan|].
  destruct (select_through_index_agrees_with_scan Z.ltb int_fact_type int_path_pred
              int_path_get zlt_irrefl zlt_trans zlt_total demo_map [gt_ph1]
              (demo_select demo_map) [4%Z] ∅ [F 5 2] demo_map_inv Hs Hscan)
    as (nk & found & Hnk & Hget & _ & _ & Hall & _).
  assert (select_misses Z.ltb (demo_select demo_map) demo_map [4%Z] nk = false) as Hmiss.
  { revert Hnk. vm_compute. intros [= <-]. reflexivity. }
  exists nk, found. split; [exact Hget|]. split; [exact Hmiss|].
  apply (Hall Hmiss). left.
Defined.

Lemma resolve_arguments_gives_placeholders_values_witness :
  sel_where (demo_select demo_map) = Some gt_ph1
  ∧ resolve_arguments (demo_select demo_map) [] ∅ = Raise TypeError
  ∧ ∀ nk, resolve_arguments (demo_select demo_map) [4%Z] ∅ = Ok nk →
          ∃ v, get_value [4%Z] nk (ArgPositional 0) = Ok v.
Proof.
  assert (sel_where (demo_select demo_map) = Some gt_ph1) as Hw
    by (vm_compute; reflexivity).
  split; [exact Hw|].
  destruct (resolve_arguments_gives_placeholders_values (demo_select demo_map) gt_ph1
              [] ∅ Hw) as (_ & Hposn & _).
  destruct (resolve_arguments_gives_placeholders_values (demo_select demo_map) gt_ph1
              [4%Z] ∅ Hw) as (Hok & _).
  split.
  - apply (Hposn 0); [left|]. simpl. lia.
  - intros nk Hnk. destruct (Hok nk Hnk) as [Hvals _]. apply Hvals. left.
Defined.

Lemma simplified_without_static_is_identity_witness :
  well_formed (BoolComparator OpAnd [eq_1; gt_ph1])
  ∧ no_static (BoolComparator OpAnd [eq_1; gt_ph1])
  ∧ simplified (BoolComparator OpAnd [eq_1; gt_ph1])
    = Ok (BoolComparator OpAnd [eq_1; gt_ph1]).
Proof.
  assert (well_formed (BoolComparator OpAnd [eq_1; gt_ph1])) as Hwf.
  { simpl. split; [lia|done]. }
  assert (no_static (BoolComparator OpAnd [eq_1; gt_ph1])) as Hns.
  { simpl. done. }
  split; [exact Hwf|]. split; [exact Hns|].
  apply (simplified_without_static_is_identity _ Hwf Hns).
Defined.

(** ** The end points of a query, characterised *)

(** [singleton], and [get_unique] when it gets past its test of the
    arguments, for every list of outputs: the call raises exactly when an
    output before the last is true as a Python value, and returns the last
    output otherwise, [None] when there is no output. *)
Theorem singleton_raises_iff_truthy_before_last {out : Type} (truthy : out → bool)
    (outs : list out) (given has_where : bool) :
  singleton truthy outs
  = (if existsb truthy (removelast outs)
     then Raise (ValueError "Query returned more than a single element")
     else Ok (last outs))
  ∧ get_unique truthy given has_where outs
    = (if given && negb has_where then Raise (ValueError "No where clause to ground")
       else singleton truthy outs).
Proof.
  split; [|done]. unfold singleton. rewrite singleton_loop_spec. simpl.
  destruct (existsb truthy (removelast outs)); [done|]. by destruct (last outs).
Qed.
